(** * relentless: pair potentials, tabulation and gradient descent

    A shallow embedding of [relentless/potential.py] and
    [relentless/optimize/method.py], with the properties of their
    specification stated and settled against it.

    Python floats are modelled by exact canonical rationals ([Qc], whose
    equality is Leibniz equality).  Where the source itself manufactures
    non-finite values ([np.inf] in the Lennard-Jones evaluator, and the
    arrays that flow from it into the tabulator) the rationals are
    extended with the IEEE special values in [float].  Rounding and the
    sign of zero are not modelled. *)

From Stdlib Require Import QArith Qcanon Qcabs ZArith Lia Lqa.
From stdpp Require Import base option list gmap strings.

(** ** Exact rationals *)

Definition qc (n : Z) (d : positive) : Qc := Q2Qc (n # d).

(** Closed (in)equalities between rationals, and between the lists,
    options and records built from them, are settled by evaluating
    their decision procedure. *)
Ltac by_compute := apply (bool_decide_unpack _); vm_compute; exact I.

(** ** Exceptions and the state-and-exception monad

    A raised exception keeps the state reached so far: Python does not
    roll back the assignments made before a [raise]. *)

Inductive exn :=
  | KeyError (msg : string)
  | ValueError (msg : string)
  | IndexError (msg : string)
  | TypeError (msg : string)
  | ZeroDivisionError (msg : string).

#[global] Instance exn_eq_dec : EqDecision exn.
Proof. solve_decision. Defined.

Inductive result (A : Type) :=
  | Ok (a : A)
  | Raise (e : exn).
Arguments Ok {A} a.
Arguments Raise {A} e.

#[global] Instance result_eq_dec `{EqDecision A} : EqDecision (result A).
Proof. solve_decision. Defined.

#[global] Instance result_ret : MRet result := fun A a => Ok a.
#[global] Instance result_bind : MBind result := fun A B k r =>
  match r with Ok a => k a | Raise e => Raise e end.
#[global] Instance result_fmap : FMap result := fun A B f r =>
  match r with Ok a => Ok (f a) | Raise e => Raise e end.

Definition M (S A : Type) : Type := S -> result A * S.

#[global] Instance M_ret {S} : MRet (M S) := fun A a s => (Ok a, s).
#[global] Instance M_bind {S} : MBind (M S) := fun A B k m s =>
  match m s with
  | (Ok a, s') => k a s'
  | (Raise e, s') => (Raise e, s')
  end.

Definition raise {S A} (e : exn) : M S A := fun s => (Raise e, s).
Definition lift {S A} (r : result A) : M S A := fun s => (r, s).
Definition get {S} : M S S := fun s => (Ok s, s).
Definition modify {S} (f : S -> S) : M S unit := fun s => (Ok tt, f s).

(** [for x in xs: body x] *)
Fixpoint for_each {S A} (xs : list A) (body : A -> M S unit) : M S unit :=
  match xs with
  | [] => mret tt
  | x :: rest => body x;; for_each rest body
  end.

(** ** Floats with the IEEE special values

    [Fin q] is a finite float, taken exactly.  Comparisons involving
    [NaN] are false, as in IEEE arithmetic. *)

Inductive float :=
  | Fin (q : Qc)
  | PInf
  | NInf
  | NaN.

#[global] Instance float_eq_dec : EqDecision float.
Proof. solve_decision. Defined.

#[global] Instance float_inhabited : Inhabited float := populate (Fin 0%Qc).

Definition fzero : float := Fin 0%Qc.

Definition fneg (x : float) : float :=
  match x with
  | Fin q => Fin (- q)%Qc
  | PInf => NInf
  | NInf => PInf
  | NaN => NaN
  end.

Definition fabs (x : float) : float :=
  match x with
  | Fin q => Fin (Qcabs q)
  | PInf | NInf => PInf
  | NaN => NaN
  end.

Definition fadd (x y : float) : float :=
  match x, y with
  | NaN, _ | _, NaN => NaN
  | Fin a, Fin b => Fin (a + b)%Qc
  | PInf, NInf | NInf, PInf => NaN
  | PInf, _ | _, PInf => PInf
  | NInf, _ | _, NInf => NInf
  end.

Definition fsub (x y : float) : float := fadd x (fneg y).

(** The infinity carrying the sign of a non-zero rational; [NaN] for zero. *)
Definition inf_of_sign (q : Qc) : float :=
  if decide (0 < q)%Qc then PInf else if decide (q < 0)%Qc then NInf else NaN.

Definition fmul (x y : float) : float :=
  match x, y with
  | NaN, _ | _, NaN => NaN
  | Fin a, Fin b => Fin (a * b)%Qc
  | Fin a, PInf | PInf, Fin a => inf_of_sign a
  | Fin a, NInf | NInf, Fin a => inf_of_sign (- a)%Qc
  | PInf, PInf | NInf, NInf => PInf
  | PInf, NInf | NInf, PInf => NInf
  end.

Definition fdiv (x y : float) : float :=
  match x, y with
  | NaN, _ | _, NaN => NaN
  | Fin a, Fin b => if decide (b = 0%Qc) then inf_of_sign a else Fin (a / b)%Qc
  | Fin _, (PInf | NInf) => Fin 0%Qc
  | PInf, Fin b => if decide (b < 0)%Qc then NInf else PInf
  | NInf, Fin b => if decide (b < 0)%Qc then PInf else NInf
  | (PInf | NInf), (PInf | NInf) => NaN
  end.

(** [np.power] at an integral exponent. *)
Definition fpow (x : float) (n : Z) : float :=
  if decide (n = 0)%Z then Fin 1%Qc else
  match x with
  | NaN => NaN
  | Fin a =>
      if decide (0 < n)%Z then Fin (a ^ Z.to_nat n)%Qc
      else if decide (a = 0%Qc) then PInf
      else Fin (/ (a ^ Z.to_nat (- n)))%Qc
  | PInf => if decide (0 < n)%Z then PInf else Fin 0%Qc
  | NInf => if decide (0 < n)%Z
            then (if Z.even n then PInf else NInf)
            else Fin 0%Qc
  end.

Definition fle (x y : float) : bool :=
  match x, y with
  | NaN, _ | _, NaN => false
  | Fin a, Fin b => bool_decide (a <= b)%Qc
  | NInf, _ | _, PInf => true
  | _, _ => false
  end.

Definition flt (x y : float) : bool :=
  match x, y with
  | NaN, _ | _, NaN => false
  | Fin a, Fin b => bool_decide (a < b)%Qc
  | PInf, _ | _, NInf => false
  | _, _ => true
  end.

Definition fge (x y : float) : bool := fle y x.
Definition fgt (x y : float) : bool := flt y x.

Definition fq (n : Z) (d : positive) : float := Fin (qc n d).

(** ** numpy arrays

    A one-dimensional [ndarray] is a Python object: the names [u] and [f]
    inside [Tabulator.regularize] denote the caller's arrays, and slice
    assignment and [-=] write through them.  The heap maps an array's
    identity to its current contents. *)

Definition loc := nat.
Abbreviation heap := (gmap loc (list float)).

(** Reading and writing the array behind a name.  An identity the heap
    does not hold reads as the empty array. *)
Definition read (a : loc) : M heap (list float) := fun h => (Ok (h !!! a), h).
Definition write (a : loc) (v : list float) : M heap unit := modify <[a := v]>.

(** [np.argmax] on a boolean array: the first [True], 0 when there is
    none; an empty array is rejected. *)
Fixpoint first_true (flags : list bool) : option nat :=
  match flags with
  | [] => None
  | true :: _ => Some 0%nat
  | false :: rest => S <$> first_true rest
  end.

Definition argmax (flags : list bool) : result nat :=
  match flags with
  | [] => Raise (ValueError "attempt to get argmax of an empty sequence")
  | _ => Ok (default 0%nat (first_true flags))
  end.

(** [a[:n] = vs] for an array of [n] values, [a[:n] = v] and [a[n:] = v]
    for a scalar. *)
Definition set_prefix (n : nat) (vs a : list float) : list float :=
  vs ++ drop n a.
Definition fill_prefix (n : nat) (v : float) (a : list float) : list float :=
  replicate (n `min` length a) v ++ drop n a.
Definition fill_suffix (n : nat) (v : float) (a : list float) : list float :=
  take n a ++ replicate (length a - n) v.

(** [np.column_stack((r, u, f))] *)
Fixpoint column_stack (r u f : list float) : list (float * float * float) :=
  match r, u, f with
  | ri :: r', ui :: u', fi :: f' => (ri, ui, fi) :: column_stack r' u' f'
  | _, _, _ => []
  end.

(** ** Tabulator *)

Module Tabulator.

(** [r] is the grid [self._r] that [__init__] builds once; [fmax] and
    [fcut] are [None] or a float. *)
Record Tabulator := {
  r : list float;
  fmax : option float;
  fcut : option float;
}.

Section regularize.
Context (self : Tabulator).

(** The block guarded by [if self.fmax is not None]. *)
Definition cap_forces (u f : loc) (fmax : float) : M heap unit :=
  fa ← read f;
  cut ← lift (argmax ((λ x, fle (fabs x) fmax) <$> fa));
  if bool_decide (0 < cut)%nat then
    ua ← read u;
    fa ← read f;
    let rc := r self !!! cut in
    let uc := ua !!! cut in
    let fc := fa !!! cut in
    write u (set_prefix cut
               ((λ ri, fsub uc (fmul fc (fsub ri rc))) <$> take cut (r self))
               ua);;
    fa ← read f;
    write f (fill_prefix cut (fa !!! cut) fa)
  else mret tt.

(** The block guarded by [if self.fcut is not None]. *)
Definition cut_tail (u f : loc) (fcut : float) : M heap unit :=
  fa ← read f;
  k ← lift (argmax ((λ x, fge (fabs x) fcut) <$> reverse fa));
  let cut := (length fa - 1 - k)%nat in
  ua ← read u;
  write u ((λ x, fsub x (ua !!! cut)) <$> ua);;
  fa ← read f;
  if bool_decide (cut < length fa - 1)%nat then
    ua ← read u;
    write u (fill_suffix (cut + 1) fzero ua);;
    fa ← read f;
    write f (fill_suffix (cut + 1) fzero fa)
  else mret tt.

(** The trailing-zero trim; it rebinds the local names to shorter
    views and writes nothing. *)
Definition trim_rows (u f : loc) (trim : bool)
  : M heap (list float * list float * list float) :=
  let ra := r self in
  if trim then
    fa ← read f;
    k ← lift (argmax ((λ x, fgt (fabs x) fzero) <$> reverse fa));
    let cut := (length fa - k)%nat in
    if bool_decide (cut < length fa - 1)%nat then
      ua ← read u;
      fa ← read f;
      mret (take (cut + 1) ra, take (cut + 1) ua, take (cut + 1) fa)
    else
      ua ← read u; fa ← read f; mret (ra, ua, fa)
  else
    ua ← read u; fa ← read f; mret (ra, ua, fa).

Definition regularize (u f : loc) (trim : bool)
  : M heap (list (float * float * float)) :=
  ua ← read u;
  (if bool_decide (length ua ≠ length (r self))
   then raise (IndexError "Potential must have the same length as r.")
   else mret tt);;
  fa ← read f;
  (if bool_decide (length fa ≠ length (r self))
   then raise (IndexError "Force must have the same length as r.")
   else mret tt);;
  match fmax self with Some m => cap_forces u f m | None => mret tt end;;
  match fcut self with Some c => cut_tail u f c | None => mret tt end;;
  '(ra, ua, fa) ← trim_rows u f trim;
  mret (column_stack ra ua fa).

End regularize.

(** *** The steps of [regularize] on arrays that are not aliased

    When [u] and [f] are different arrays, each step is a function of their
    contents.  These definitions state what [regularize] is proved to do;
    they are not part of the embedding. *)

Definition capped (self : Tabulator) (fmax : float) (ua fa : list float)
  : list float * list float :=
  let cut := default 0%nat (first_true ((λ x, fle (fabs x) fmax) <$> fa)) in
  if bool_decide (0 < cut)%nat then
    (set_prefix cut
       ((λ ri, fsub (ua !!! cut) (fmul (fa !!! cut) (fsub ri (r self !!! cut))))
          <$> take cut (r self))
       ua,
     fill_prefix cut (fa !!! cut) fa)
  else (ua, fa).

Definition tail_cut (fcut : float) (ua fa : list float)
  : list float * list float :=
  let k := default 0%nat (first_true ((λ x, fge (fabs x) fcut) <$> reverse fa)) in
  let cut := (length fa - 1 - k)%nat in
  let shifted := (λ x, fsub x (ua !!! cut)) <$> ua in
  if bool_decide (cut < length fa - 1)%nat then
    (fill_suffix (cut + 1) fzero shifted, fill_suffix (cut + 1) fzero fa)
  else (shifted, fa).

(** The arrays after the [fmax] and the [fcut] block. *)
Definition regularized (self : Tabulator) (ua fa : list float)
  : list float * list float :=
  let '(u1, f1) :=
    match fmax self with Some m => capped self m ua fa | None => (ua, fa) end in
  match fcut self with Some c => tail_cut c u1 f1 | None => (u1, f1) end.

(** The number of rows of the returned table. *)
Definition rows_kept (trim : bool) (fa : list float) : nat :=
  if trim then
    let k := default 0%nat (first_true ((λ x, fgt (fabs x) fzero) <$> reverse fa)) in
    let cut := (length fa - k)%nat in
    if bool_decide (cut < length fa - 1)%nat then (cut + 1)%nat else length fa
  else length fa.

(** The arrays as the [fmax] block leaves them. *)
Definition after_cap (self : Tabulator) (ua fa : list float)
  : list float * list float :=
  match fmax self with
  | Some m => capped self m ua fa
  | None => (ua, fa)
  end.

(** What [np.argmax] raises on an empty array. *)
Definition empty_argmax : exn :=
  ValueError "attempt to get argmax of an empty sequence".

(** The table of [test_regularize] in [tests/potential/test_potential.py]:
    the grid, the energies and the forces of the quadratic potential. *)
Definition test_r : list float := [fq 1 2; fq 1 1; fq 3 2; fq 2 1; fq 5 2].

Definition test_u : list float := [fq 75 4; fq 12 1; fq 27 4; fq 3 1; fq 3 4].

Definition test_f : list float := [fq 15 1; fq 12 1; fq 9 1; fq 6 1; fq 3 1].

Definition test_heap : heap := {[ 0%nat := test_u; 1%nat := test_f ]}.


(** *** The grid

    [Tabulator.__init__] for finite bounds, taken exactly.  It yields the
    tabulator and its [dr]. *)

(** [np.arange(n, dtype=np.float64)]: [0, 1, ..., n-1], empty for
    [n <= 0]. *)
Definition arange (n : Z) : list Qc :=
  (λ i : nat, qc (Z.of_nat i) 1) <$> seq 0 (Z.to_nat n).

(** [np.linspace(start, stop, num)]: the samples [i * step + start] for
    [step = (stop - start) / (num - 1)], the last of them set to [stop];
    a negative [num] is refused (numpy's message also names [num]). *)
Definition linspace (start stop : Qc) (num : Z) : result (list Qc) :=
  if decide (num < 0)%Z then
    Raise (ValueError "Number of samples must be non-negative.")
  else
    let step := ((stop - start) / qc (num - 1) 1)%Qc in
    let y := (λ i, (i * step + start)%Qc) <$> arange num in
    Ok (if decide (1 < num)%Z then take (Z.to_nat num - 1) y ++ [stop] else y).

Definition init (nbins : Z) (rmin rmax : Qc) (fmax fcut : option float)
    (edges : bool) : result (Tabulator * Qc) :=
  if decide (nbins = 0)%Z then
    Raise (ZeroDivisionError "float division by zero")
  else
    let dr := ((rmax - rmin) / qc nbins 1)%Qc in
    grid ← (if edges then linspace rmin rmax (nbins + 1)
            else Ok ((λ i, (rmin + dr * (i + qc 1 2))%Qc) <$> arange nbins));
    Ok (Build_Tabulator (Fin <$> grid) fmax fcut, dr).

End Tabulator.

(** ** Coefficient matrices and pair potentials *)

Module Potential.

(** A slot of the matrix holds [None], a number, or a callable (a
    chained parameter).  Callables are function objects; a slot stores the
    identity of one, and [run_callable] below applies it. *)
Inductive entry :=
  | Unset
  | Scalar (v : float)
  | Callable (fn : nat).

#[global] Instance entry_eq_dec : EqDecision entry.
Proof. solve_decision. Defined.
#[global] Instance entry_inhabited : Inhabited entry := populate Unset.

Definition pair : Type := string * string.

Record CoefficientMatrix := {
  types : list string;
  params : list string;
  data : gmap pair (gmap string entry);
}.

#[global] Instance CoefficientMatrix_eq_dec : EqDecision CoefficientMatrix.
Proof. solve_decision. Defined.

(** Modelled from the spec: [PairMatrix], the base class in
    [relentless/core.py]; that file is not among the sources.  A key is an
    unordered pair of declared type labels, [(A,B)] and [(B,A)] address the
    same slot, and a label outside the type set is refused. *)
Definition check_key (self : CoefficientMatrix) (key : pair) : result pair :=
  let '(i, j) := key in
  if bool_decide (i ∉ types self) then
    Raise (KeyError ("Type " +:+ i +:+ " is not in coefficient matrix."))
  else if bool_decide (j ∉ types self) then
    Raise (KeyError ("Type " +:+ j +:+ " is not in coefficient matrix."))
  else if String.leb i j then Ok (i, j) else Ok (j, i).

(** Modelled from the spec: [PairMatrix.__getitem__], the dictionary of
    one pair. *)
Definition getitem (self : CoefficientMatrix) (key : pair)
  : result (gmap string entry) :=
  k ← check_key self key;
  match data self !! k with
  | Some d => Ok d
  | None => Raise (KeyError "pair")
  end.

(** [self[key][p]] *)
Definition getparam (self : CoefficientMatrix) (key : pair) (p : string)
  : result entry :=
  d ← getitem self key;
  match d !! p with
  | Some v => Ok v
  | None => Raise (KeyError p)
  end.

(** [self[key][p] = v]: item assignment on the dictionary that
    [PairMatrix.__getitem__] hands out. *)
Definition setparam (key : pair) (p : string) (v : entry)
  : M CoefficientMatrix unit :=
  self ← get;
  k ← lift (check_key self key);
  match data self !! k with
  | Some d =>
      modify (λ c, {| types := types c; params := params c;
                      data := <[k := <[p := v]> d]> (data c) |})
  | None => raise (KeyError "pair")
  end.

(** Modelled from the spec: the pairs [PairMatrix.__init__] floods, one
    per unordered pair of types. *)
Definition all_pairs (ts : list string) : list pair :=
  i ← ts; j ← ts; if String.leb i j then [(i, j)] else [].

(** [CoefficientMatrix.__init__] *)
Definition init (ts ps : list string) (defaults : gmap string entry)
  : CoefficientMatrix :=
  let row : gmap string entry :=
    list_to_map ((λ p, (p, default Unset (defaults !! p))) <$> ps) in
  {| types := ts; params := ps;
     data := list_to_map ((λ k, (k, row)) <$> all_pairs ts) |}.

Section with_callables.
(** The function objects stored in the matrices: [run_callable fn c] is
    the call [v(self)], which may raise and may return [None]. *)
Context (run_callable : nat → CoefficientMatrix → result (option float)).

(** [np.power] on floats. *)
Context (power : float → float → float).

Definition str_pair (key : pair) : string :=
  "(" +:+ key.1 +:+ "," +:+ key.2 +:+ ")".

(** The loop of [CoefficientMatrix.evaluate]. *)
Fixpoint evaluate_loop (self : CoefficientMatrix) (pair : pair)
    (ps : list string) (acc : gmap string float)
  : result (gmap string float) :=
  match ps with
  | [] => Ok acc
  | p :: rest =>
      v ← getparam self pair p;
      x ← match v with
          | Callable fn => run_callable fn self
          | Scalar x => Ok (Some x)
          | Unset => Ok None
          end;
      match x with
      | None => Raise (ValueError
                  ("Parameter " +:+ p +:+ " is not set for " +:+ str_pair pair +:+ "."))
      | Some x => evaluate_loop self pair rest (<[p := x]> acc)
      end
  end.

Definition evaluate (self : CoefficientMatrix) (pair : pair)
  : result (gmap string float) :=
  evaluate_loop self pair (params self) ∅.

Definition perturb (pair key : pair) (param : string) (value : entry)
  : M CoefficientMatrix (gmap string float * gmap string float) :=
  self ← get;
  if bool_decide (param ∉ params self) then
    raise (KeyError ("Parameter " +:+ param +:+ " is not part of the coefficient matrix."))
  else
    old_value ← lift (getparam self key param);
    match old_value with
    | Unset =>
        raise (ValueError ("Cannot perturb parameter " +:+ param +:+
                           ", not set for " +:+ str_pair key +:+ "."))
    | Callable _ =>
        raise (KeyError "Cannot perturb a callable parameter; it is chained.")
    | Scalar _ =>
        (* evaluate old values first *)
        old_params ← lift (evaluate self pair);
        (* swap in new value *)
        setparam key param value;;
        self ← get;
        new_params ← lift (evaluate self pair);
        (* restore old value *)
        setparam key param old_value;;
        mret (new_params, old_params)
    end.

(** A pair potential: its coefficient matrix, the [shift] flag and the
    [energy] method that a subclass supplies. *)
Record PairPotential := {
  coeff : CoefficientMatrix;
  shift : bool;
  energy : list float → gmap string float → result (list float);
}.

(** [u[mask] -= e] for a one-element array [e]. *)
Definition sub_where (mask : list bool) (u : list float) (e : list float)
  : result (list float) :=
  match e with
  | [e0] => Ok (zip_with (λ (m : bool) ui, if m then fsub ui e0 else ui) mask u)
  | _ => Raise (ValueError "operands could not be broadcast together")
  end.

(** [energy(r, **kwargs)] binds a parameter of the method by name. *)
Definition kwarg (kwargs : gmap string float) (name : string) : result float :=
  match kwargs !! name with
  | Some v => Ok v
  | None => Raise (TypeError ("missing required argument " +:+ name))
  end.

(** [params[name]] *)
Definition item (params : gmap string float) (name : string) : result float :=
  match params !! name with
  | Some v => Ok v
  | None => Raise (KeyError name)
  end.

(** [PairPotential.__call__] *)
Definition call (self : PairPotential) (r : list float) (pair : pair)
  : result (list float) :=
  params ← evaluate (coeff self) pair;
  u ← energy self r params;
  if shift self then
    rmax ← item params "rmax";
    e ← energy self [rmax] params;
    sub_where ((λ ri, fle ri rmax) <$> r) u e
  else Ok u.

(** [np.isclose(r, 0)] with the default tolerances: [|r| <= 1e-8]. *)
Definition isclose0 (x : float) : bool := fle (fabs x) (fq 1 100000000).

Definition in_range (rmin rmax x : float) : bool := fge x rmin && fle x rmax.

(** One entry of the array [LJPotential.energy] returns. *)
Definition lj_energy_at (epsilon sigma n rmin rmax ri : float) : float :=
  let zero_flag := isclose0 ri in
  let range_flag := in_range rmin rmax ri in
  let u := fzero in
  (* evaluate potential for r in range, but nonzero *)
  let u :=
    if xorb range_flag zero_flag then
      let rn_inv := power (fdiv sigma ri) n in
      fmul (fmul (fq 4 1) epsilon) (fsub (power rn_inv (fq 2 1)) rn_inv)
    else u in
  (* evaluate potential for r in range, but zero *)
  if range_flag && zero_flag then PInf else u.

Definition lj_energy (r : list float) (kwargs : gmap string float)
  : result (list float) :=
  epsilon ← kwarg kwargs "epsilon";
  sigma ← kwarg kwargs "sigma";
  n ← kwarg kwargs "n";
  rmin ← kwarg kwargs "rmin";
  rmax ← kwarg kwargs "rmax";
  Ok (lj_energy_at epsilon sigma n rmin rmax <$> r).

(** One entry of the array [LJPotential.force] returns. *)
Definition lj_force_at (epsilon sigma n rmin rmax ri : float) : float :=
  let zero_flag := isclose0 ri in
  let range_flag := in_range rmin rmax ri in
  let f := fzero in
  let f :=
    if xorb range_flag zero_flag then
      let rinv := fdiv (fq 1 1) ri in
      let rn_inv := power (fmul sigma rinv) n in
      fmul (fmul (fmul (fmul (fq 8 1) n) epsilon) rinv)
           (fsub (power rn_inv (fq 2 1)) (fmul (fq 1 2) rn_inv))
    else f in
  if range_flag && zero_flag then PInf else f.

(** [LJPotential.__init__] *)
Definition LJPotential (ts : list string) (shift : bool) : PairPotential :=
  {| coeff := init ts ["epsilon"; "sigma"; "n"; "rmin"; "rmax"]
                {[ "n" := Scalar (fq 6 1); "rmin" := Scalar (fq 0 1) ]};
     shift := shift;
     energy := lj_energy |}.

(** [LJPotential.force] *)
Definition lj_force (self : PairPotential) (r : list float) (pair : pair)
  : result (list float) :=
  params ← evaluate (coeff self) pair;
  epsilon ← item params "epsilon";
  sigma ← item params "sigma";
  n ← item params "n";
  rmin ← item params "rmin";
  rmax ← item params "rmax";
  Ok (lj_force_at epsilon sigma n rmin rmax <$> r).

End with_callables.

(** [np.power] where the exponent is an integer; other exponents leave
    the rationals and are answered by [NaN]. *)
Definition power_int (x n : float) : float :=
  match n with
  | Fin q => if bool_decide (Qden q = 1%positive) then fpow x (Qnum q) else NaN
  | _ => NaN
  end.

(** *** Examples *)

(** A matrix over the single type [A] with a number [a] and a chained
    parameter [b], the callable [lambda c: 1. / c['A','A']['a']]. *)
Definition reciprocal_of_a (fn : nat) (c : CoefficientMatrix)
  : result (option float) :=
  v ← getparam c ("A", "A") "a";
  match v with
  | Scalar (Fin q) =>
      if decide (q = 0%Qc) then Raise (ZeroDivisionError "float division by zero")
      else Ok (Some (Fin (1 / q)%Qc))
  | _ => Raise (TypeError "unsupported operand type(s) for /")
  end.

Definition chained_matrix : CoefficientMatrix :=
  init ["A"] ["a"; "b"] {[ "a" := Scalar (fq 1 1); "b" := Callable 0 ]}.

(** A Lennard-Jones potential over the single type [1] with
    [epsilon = sigma = 1], [n = 6], [rmin = 1] and [rmax = 2]. *)
Definition lj_example (shift : bool) : PairPotential :=
  let lj := LJPotential power_int ["1"] shift in
  let set (p : string) (v : float) (c : CoefficientMatrix) :=
    (setparam ("1", "1") p (Scalar v) c).2 in
  {| coeff := set "rmax" (fq 2 1) (set "rmin" (fq 1 1)
                (set "sigma" (fq 1 1) (set "epsilon" (fq 1 1) (coeff lj))));
     shift := shift;
     energy := energy lj |}.

(** No callable is stored in [lj_example]. *)
Definition no_callable (fn : nat) (c : CoefficientMatrix)
  : result (option float) :=
  Raise (TypeError "object is not callable").


(** *** Assignment of a dictionary of coefficients *)

(** [CoefficientMatrix.__setitem__], [self[key] = value]: the dictionary
    [value] is visited in its insertion order. *)
Definition setitem (key : pair) (value : list (string * entry))
  : M CoefficientMatrix unit :=
  for_each value (λ pv,
    self ← get;
    if bool_decide (pv.1 ∉ params self) then
      raise (KeyError "Only the known parameters can be set in coefficient matrix.")
    else setparam key pv.1 pv.2).

End Potential.

(** ** Optimization: variables, objectives, line search, descent

    The optimizer only ever combines finite values, so its floats are
    plain rationals.  A zero divisor, which numpy answers by [nan] or
    [inf], follows the convention [x / 0 = 0] of [Qc]; nothing proved
    below depends on the value of such a quotient. *)

Module Optimize.

(** A design variable is a Python object, used by identity as the key of
    every gradient and snapshot. *)
Definition var := nat.

(** Modelled from the spec: [DesignVariable], the class in
    [relentless/variable.py]; that file is not among the sources.  A
    variable carries a value and optional bounds, and a write is clamped
    into the bounds, not rejected. *)
Record DesignVariable := {
  value : Qc;
  low : option Qc;
  high : option Qc;
}.

#[global] Instance DesignVariable_eq_dec : EqDecision DesignVariable.
Proof. solve_decision. Defined.

(** Modelled from the spec: the clamp of a written value into the
    bounds that are set, the lower bound first. *)
Definition clamp (v : DesignVariable) (x : Qc) : Qc :=
  match low v with
  | Some l => if decide (x <= l)%Qc then l else
      match high v with
      | Some h => if decide (h <= x)%Qc then h else x
      | None => x
      end
  | None =>
      match high v with
      | Some h => if decide (h <= x)%Qc then h else x
      | None => x
      end
  end.

(** The variable objects alive during a run. *)
Definition store := var → DesignVariable.

(** Modelled from the spec: the setter of [DesignVariable.value],
    [x.value = q]. *)
Definition set_value (x : var) (q : Qc) : M store unit :=
  modify (λ (s : store),
    let v := s x in
    let v' := {| value := clamp v q; low := low v; high := high v |} in
    λ (y : var), if decide (y = x) then v' else s y).

(** Modelled from the spec: [KeyedArray], the class in
    [relentless/_collections.py]; that file is not among the sources.  It
    is a dictionary over a fixed, ordered set of keys, here variables, with
    element-wise arithmetic between arrays over the same keys. *)
Definition KeyedArray := list (var * Qc).

Definition keys (a : KeyedArray) : list var := a.*1.

(** Modelled from the spec: [a[x]], a [KeyError] for a key that is not
    there. *)
Definition kget (a : KeyedArray) (x : var) : result Qc :=
  match list_find (λ kv, kv.1 = x) a with
  | Some (_, (_, v)) => Ok v
  | None => Raise (KeyError "variable")
  end.

(** Modelled from the spec: arithmetic between two arrays needs the same
    key sets; the result has the keys of the left operand, in its order. *)
Definition same_keys (a b : KeyedArray) : bool :=
  bool_decide (keys a ⊆ keys b) && bool_decide (keys b ⊆ keys a).

Fixpoint kzip_loop (f : Qc → Qc → Qc) (a b : KeyedArray) : result KeyedArray :=
  match a with
  | [] => Ok []
  | (x, v) :: rest =>
      w ← kget b x;
      tl ← kzip_loop f rest b;
      Ok ((x, f v w) :: tl)
  end.

Definition kzip (f : Qc → Qc → Qc) (a b : KeyedArray) : result KeyedArray :=
  if same_keys a b then kzip_loop f a b
  else Raise (KeyError "Both KeyedArrays must have identical keys to perform mathematical operations.").

(** [a * b] and [a - b] *)
Definition kmul := kzip Qcmult.
Definition ksub := kzip Qcminus.

Definition ksum (a : KeyedArray) : Qc :=
  foldr (λ kv acc, (kv.2 + acc)%Qc) 0%Qc a.

(** [a.dot(b)] *)
Definition kdot (a b : KeyedArray) : result Qc := ksum <$> kmul a b.

(** [a / q] for a scalar [q] *)
Definition kdiv_scalar (a : KeyedArray) (q : Qc) : KeyedArray :=
  (λ kv, (kv.1, (kv.2 / q)%Qc)) <$> a.

(** Modelled from the spec: [ObjectiveFunctionResult], the class in
    [relentless/optimize/objective.py]; that file is not among the
    sources.  The result holds the value, the gradient keyed by variable
    and a frozen copy of the design-variable values at the moment of
    computation. *)
Record ObjectiveFunctionResult := {
  res_value : option Qc;
  gradient : KeyedArray;
  design_variables : KeyedArray;
}.

#[global] Instance ObjectiveFunctionResult_eq_dec :
  EqDecision ObjectiveFunctionResult.
Proof. solve_decision. Defined.

(** Modelled from the spec: [ObjectiveFunction], the abstract class in
    [relentless/optimize/objective.py].  An objective supplies its design
    variables and, from the current values of the variables, a value and a
    partial derivative per design variable; computing is deterministic and
    does not write the variables. *)
Record ObjectiveFunction := {
  dvars : list var;
  objective_value : (var → Qc) → option Qc;
  objective_gradient : (var → Qc) → var → Qc;
}.

(** Modelled from the spec: [objective.compute()], which snapshots the
    design variables into the result and leaves the variables alone. *)
Definition compute (objective : ObjectiveFunction)
  : M store ObjectiveFunctionResult :=
  fun s =>
    let now := λ x, value (s x) in
    (Ok {| res_value := objective_value objective now;
           gradient := (λ x, (x, objective_gradient objective now x)) <$> dvars objective;
           design_variables := (λ x, (x, now x)) <$> dvars objective |}, s).

(** [abs_tol] and [scale] are a float or a dictionary keyed by variable. *)
Inductive scalar_or_dict :=
  | Scalar (q : Qc)
  | Dict (d : gmap var Qc).

(** The setters of [LineSearch] and [SteepestDescent] refuse a [max_iter]
    below 1: the field is a positive number. *)
Record LineSearch := {
  rel_tol : Qc;
  ls_max_iter : positive;
}.

Inductive method := SteepestDescent | FixedStepDescent.

Record Optimizer := {
  kind : method;
  abs_tol : scalar_or_dict;
  max_iter : positive;
  step_size : Qc;
  scale : scalar_or_dict;
  line_search : option LineSearch;
}.

(** The loop of [Optimizer.has_converged] over [result.design_variables]. *)
Fixpoint has_converged_loop (abs_tol : scalar_or_dict) (grad : KeyedArray)
    (xs : list var) : result bool :=
  match xs with
  | [] => Ok true
  | x :: rest =>
      grad_x ← kget grad x;
      tol ← match abs_tol with
            | Scalar t => Ok t
            | Dict d =>
                match d !! x with
                | Some t => Ok t
                | None => Raise (KeyError "Absolute tolerance not set for design variable")
                end
            end;
      if decide (tol < Qcabs grad_x)%Qc then Ok false
      else has_converged_loop abs_tol grad rest
  end.

Definition has_converged (self : Optimizer) (res : ObjectiveFunctionResult)
  : result bool :=
  has_converged_loop (abs_tol self) (gradient res) (keys (design_variables res)).

Section with_norm.
(** Modelled from the spec: [KeyedArray.norm], the Euclidean norm of the
    values; it needs a square root and stays a parameter. *)
Context (norm : KeyedArray → Qc).

Section find.
Context (self : LineSearch) (objective : ObjectiveFunction).
Context (start end_ : ObjectiveFunctionResult).

(** The state of the search loop: [steps], [targets]. *)
Record bracket := {
  steps : Qc * Qc;
  targets : Qc * Qc;
}.

(** One pass of the [while] loop of [find]. *)
Definition probe (ovars d : KeyedArray) (b : bracket)
  : M store (bracket * Qc * ObjectiveFunctionResult) :=
  let '(s0, s1) := steps b in
  let '(t0, t1) := targets b in
  (* linear interpolation for step size *)
  let new_step := ((s0 * t1 - s1 * t0) / (t1 - t0))%Qc in
  (* adjust variables based on new step size, compute new target *)
  for_each (keys ovars) (λ x,
    start_x ← lift (kget (design_variables start) x);
    d_x ← lift (kget d x);
    set_value x (start_x + new_step * d_x)%Qc);;
  new_res ← compute objective;
  d_dot_g ← lift (kdot d (gradient new_res));
  let new_target := (- d_dot_g)%Qc in
  (* update search intervals *)
  let b' :=
    if decide (0 < new_target)%Qc
    then {| steps := (new_step, s1); targets := (new_target, t1) |}
    else {| steps := (s0, new_step); targets := (t0, new_target) |} in
  mret (b', new_target, new_res).

(** The passes after the first; [left] is [max_iter - iter_num]. *)
Fixpoint search (left : nat) (ovars d : KeyedArray) (tol : Qc)
    (b : bracket) (new_target : Qc) (new_res : ObjectiveFunctionResult)
  : M store ObjectiveFunctionResult :=
  match left with
  | O => mret new_res
  | S left' =>
      if decide (tol <= Qcabs new_target)%Qc then
        '(b', new_target', new_res') ← probe ovars d b;
        search left' ovars d tol b' new_target' new_res'
      else mret new_res
  end.

(** [LineSearch.find].  The loop starts from [new_target = np.inf] with
    [iter_num = 0 < max_iter], so its first pass always runs; it is
    written out before [search]. *)
Definition find : M store ObjectiveFunctionResult :=
  s ← get;
  let ovars : KeyedArray := (λ x, (x, value (s x))) <$> dvars objective in
  (* compute search direction *)
  d ← lift (ksub (design_variables end_) (design_variables start));
  if decide (norm d = 0%Qc) then
    raise (ValueError "The start and end of the search interval must be different.")
  else
    (* compute start and end target values *)
    d_dot_start ← lift (kdot d (gradient start));
    d_dot_end ← lift (kdot d (gradient end_));
    let t0 := (- d_dot_start)%Qc in
    let t1 := (- d_dot_end)%Qc in
    if decide (t0 < 0)%Qc then
      raise (ValueError "The defined search interval must be a descent direction.")
    else
      (* compute tolerance *)
      let tol := (rel_tol self * Qcabs t0)%Qc in
      (* check if max step size acceptable, else iterate to minimize target *)
      result ←
        (if decide (0 < t1)%Qc then mret end_
         else if decide (Qcabs t1 < tol)%Qc then mret end_
         else
           '(b, new_target, new_res) ←
             probe ovars d {| steps := (0%Qc, 1%Qc); targets := (t0, t1) |};
           search (Pos.to_nat (ls_max_iter self) - 1) ovars d tol
             b new_target new_res);
      for_each ovars (λ kv, set_value kv.1 kv.2);;
      mret result.
End find.

Section optimize.
Context (self : Optimizer) (objective : ObjectiveFunction).

(** [descent_amount], of [SteepestDescent] and of [FixedStepDescent]. *)
Definition descent_amount (gradient : KeyedArray) : KeyedArray :=
  let k : KeyedArray := (λ i, (i, step_size self)) <$> keys gradient in
  match kind self with
  | SteepestDescent => k
  | FixedStepDescent => kdiv_scalar k (norm gradient)
  end.

(** The scaling parameters fixed at the head of [optimize]. *)
Definition fix_scale (xs : list var) : KeyedArray :=
  (λ x, (x, match scale self with
            | Scalar q => q
            | Dict d => default 1%Qc (d !! x)
            end)) <$> xs.

(** The body of the [while] loop of [optimize]. *)
Definition iteration (scale : KeyedArray) (cur_res : ObjectiveFunctionResult)
  : M store ObjectiveFunctionResult :=
  grad_y ← lift (kmul scale (gradient cur_res));
  update ← lift (kmul (descent_amount grad_y) grad_y);
  (* steepest descent update *)
  for_each (dvars objective) (λ x,
    cur_x ← lift (kget (design_variables cur_res) x);
    update_x ← lift (kget update x);
    set_value x (cur_x - update_x)%Qc);;
  next_res ← compute objective;
  (* if line search, attempt backtracking in interval *)
  match line_search self with
  | Some ls =>
      line_res ← find ls objective cur_res next_res;
      for_each (dvars objective) (λ x,
        line_x ← lift (kget (design_variables line_res) x);
        set_value x line_x);;
      mret line_res
  | None => mret next_res
  end.

(** The [while] loop; [left] is [max_iter - iter_num].  It yields the
    last result and the iterations left. *)
Fixpoint descend (left : nat) (scale : KeyedArray)
    (cur_res : ObjectiveFunctionResult)
  : M store (ObjectiveFunctionResult * nat) :=
  converged ← lift (has_converged self cur_res);
  if converged : bool then mret (cur_res, left)
  else match left with
       | O => mret (cur_res, O)
       | S left' =>
           next_res ← iteration scale cur_res;
           descend left' scale next_res
       end.

(** [SteepestDescent.optimize]; [None], [Some true] and [Some false]
    are Python's [None], [True] and [False]. *)
Definition optimize : M store (option bool) :=
  let dvars := dvars objective in
  if decide (length dvars = 0%nat) then mret None
  else
    (* fix scaling parameters *)
    let scale := fix_scale dvars in
    cur_res ← compute objective;
    '(cur_res, _) ← descend (Pos.to_nat (max_iter self)) scale cur_res;
    converged ← lift (has_converged self cur_res);
    mret (Some converged).
End optimize.

End with_norm.

(** *** Examples and the vocabulary of the properties *)

(** The square root of a rational, exact on squares of rationals; the
    Euclidean norm built from it is exact on the arrays used below. *)
Definition Qc_sqrt (q : Qc) : Qc :=
  Q2Qc (Z.sqrt (Qnum q) # Pos.sqrt (Qden q)).

Definition euclidean_norm (a : KeyedArray) : Qc :=
  Qc_sqrt (ksum ((λ kv, (kv.1, (kv.2 * kv.2)%Qc)) <$> a)).

(** [QuadraticObjective] of [tests/optimize/test_objective.py]:
    [f(x) = (x - 1)^2] with gradient [2 (x - 1)]. *)
Definition QuadraticObjective (x : var) : ObjectiveFunction :=
  {| dvars := [x];
     objective_value := λ v, Some ((v x - 1) * (v x - 1))%Qc;
     objective_gradient := λ v _, (qc 2 1 * (v x - 1))%Qc |}.

(** Unbounded variables, all holding [q]. *)
Definition free_at (q : Qc) : store :=
  λ _, {| value := q; low := None; high := None |}.

(** The result [objective.compute()] returns when the variables hold [q]. *)
Definition result_at (objective : ObjectiveFunction) (q : Qc)
  : ObjectiveFunctionResult :=
  {| res_value := objective_value objective (λ _, q);
     gradient := (λ x, (x, objective_gradient objective (λ _, q) x)) <$> dvars objective;
     design_variables := (λ x, (x, q)) <$> dvars objective |}.

Definition descent (k : method) (tol : scalar_or_dict) (n : positive)
    (alpha : Qc) (X : scalar_or_dict) (ls : option LineSearch) : Optimizer :=
  {| kind := k; abs_tol := tol; max_iter := n; step_size := alpha;
     scale := X; line_search := ls |}.

Definition tolerance (abs_tol : scalar_or_dict) (x : var) : option Qc :=
  match abs_tol with
  | Scalar t => Some t
  | Dict d => d !! x
  end.

(** The invariant of [DesignVariable]: the value lies within the bounds
    that are set. *)
Definition within_bounds (v : DesignVariable) : Prop :=
  (∀ l, low v = Some l → (l <= value v)%Qc)
  ∧ (∀ h, high v = Some h → (value v <= h)%Qc).

Definition same_bounds (s s' : store) : Prop :=
  ∀ y, low (s' y) = low (s y) ∧ high (s' y) = high (s y).

Definition unchanged_outside (xs : list var) (s s' : store) : Prop :=
  ∀ y, y ∉ xs → s' y = s y.

(** The object a write [x.value = q] leaves behind. *)
Definition written (v : DesignVariable) (q : Qc) : DesignVariable :=
  {| value := clamp v q; low := low v; high := high v |}.

(** The dictionary [ovars] that [find] builds on entry. *)
Definition snapshot (xs : list var) (s : store) : KeyedArray :=
  (λ x, (x, value (s x))) <$> xs.

(** [r] was computed at a point [start + step * d] of the search line: in
    the store [s_mid], which has the bounds of [s], every design variable
    holds [start[x] + step * d[x]] (clamped into its bounds), and
    [objective.compute()] there yields [r]. *)
Definition computed_on_line (objective : ObjectiveFunction)
    (start : ObjectiveFunctionResult) (d : KeyedArray) (s : store)
    (r : ObjectiveFunctionResult) : Prop :=
  ∃ step s_mid,
    same_bounds s s_mid
    ∧ (∀ x, x ∈ dvars objective →
         ∃ start_x d_x,
           kget (design_variables start) x = Ok start_x
           ∧ kget d x = Ok d_x
           ∧ value (s_mid x) = clamp (s x) (start_x + step * d_x)%Qc)
    ∧ compute objective s_mid = (Ok r, s_mid).


(** *** Construction and the validating setters

    A setter checks the value assigned to a property and stores it; the
    functions below return the value that is stored.  [abs_tol] and
    [scale] take a float or a dictionary, [max_iter] an [int] or, in
    error, a [float]. *)

Inductive number :=
  | Int (z : Z)
  | Float (q : Qc).

#[global] Instance scalar_or_dict_eq_dec : EqDecision scalar_or_dict.
Proof. solve_decision. Defined.
#[global] Instance LineSearch_eq_dec : EqDecision LineSearch.
Proof. solve_decision. Defined.
#[global] Instance method_eq_dec : EqDecision method.
Proof. solve_decision. Defined.
#[global] Instance Optimizer_eq_dec : EqDecision Optimizer.
Proof. solve_decision. Defined.

(** The setter of [Optimizer.abs_tol]. *)
Definition set_abs_tol (value : scalar_or_dict) : result scalar_or_dict :=
  let err :=
    match value with
    | Dict d => bool_decide (map_Exists (λ _ tol, (tol < 0)%Qc) d)
    | Scalar q => bool_decide (q < 0)%Qc
    end in
  if err then Raise (ValueError "Absolute tolerances must be non-negative.")
  else Ok value.

(** The setter of [LineSearch.rel_tol]. *)
Definition set_rel_tol (value : Qc) : result Qc :=
  if bool_decide (value <= 0)%Qc || bool_decide (1 <= value)%Qc then
    Raise (ValueError "The absolute tolerance must be between 0 and 1.")
  else Ok value.

(** The setter of [max_iter], of [LineSearch] and of [SteepestDescent]. *)
Definition set_max_iter (value : number) : result positive :=
  match value with
  | Float _ =>
      Raise (TypeError "The maximum number of iterations must be an integer.")
  | Int z =>
      if bool_decide (z < 1)%Z then
        Raise (ValueError "The maximum number of iterations must be positive.")
      else Ok (Z.to_pos z)
  end.

(** The setter of [SteepestDescent.step_size]. *)
Definition set_step_size (value : Qc) : result Qc :=
  if bool_decide (value <= 0)%Qc then
    Raise (ValueError "The step size must be positive.")
  else Ok value.

(** The setter of [SteepestDescent.scale]. *)
Definition set_scale (value : scalar_or_dict) : result scalar_or_dict :=
  let err :=
    match value with
    | Dict d => bool_decide (map_Exists (λ _ s, (s <= 0)%Qc) d)
    | Scalar q => bool_decide (q <= 0)%Qc
    end in
  if err then Raise (ValueError "The scaling parameters must be positive.")
  else Ok value.

(** [LineSearch.__init__] *)
Definition LineSearch_init (rel_tol : Qc) (max_iter : number)
  : result LineSearch :=
  r ← set_rel_tol rel_tol;
  n ← set_max_iter max_iter;
  Ok (Build_LineSearch r n).

(** [SteepestDescent.__init__], and [FixedStepDescent.__init__], which
    only calls it. *)
Definition Optimizer_init (kind : method) (abs_tol : scalar_or_dict)
    (max_iter : number) (step_size : Qc) (scale : scalar_or_dict)
    (line_search : option LineSearch) : result Optimizer :=
  tol ← set_abs_tol abs_tol;
  n ← set_max_iter max_iter;
  alpha ← set_step_size step_size;
  X ← set_scale scale;
  Ok (Build_Optimizer kind tol n alpha X line_search).


(** The invariant of the bracket that the search loop of [find] keeps:
    the two steps are ordered within [[0, 1]], the target is positive at
    the lower step and not positive at the upper one. *)
Definition bracketing (b : bracket) : Prop :=
  (0 <= (steps b).1)%Qc ∧ ((steps b).1 <= (steps b).2)%Qc
  ∧ ((steps b).2 <= 1)%Qc
  ∧ (0 < (targets b).1)%Qc ∧ ((targets b).2 <= 0)%Qc.

(** [r] was computed at a point of the search interval itself:
    [computed_on_line] with a step between 0 and 1. *)
Definition computed_in_interval (objective : ObjectiveFunction)
    (start : ObjectiveFunctionResult) (d : KeyedArray) (s : store)
    (r : ObjectiveFunctionResult) : Prop :=
  ∃ step s_mid,
    (0 <= step)%Qc ∧ (step <= 1)%Qc
    ∧ same_bounds s s_mid
    ∧ (∀ x, x ∈ dvars objective →
         ∃ start_x d_x,
           kget (design_variables start) x = Ok start_x
           ∧ kget d x = Ok d_x
           ∧ value (s_mid x) = clamp (s x) (start_x + step * d_x)%Qc)
    ∧ compute objective s_mid = (Ok r, s_mid).

End Optimize.

(** * Properties *)

(** ** The monad *)

Ltac unfold_monad :=
  unfold mbind, M_bind, mret, M_ret, lift, raise, get, modify in *.

Lemma bind_Ok_inv {S A B} (m : M S A) (k : A → M S B) s b s' :
  (m ≫= k) s = (Ok b, s') →
  ∃ a s1, m s = (Ok a, s1) ∧ k a s1 = (Ok b, s').
Proof.
  unfold mbind, M_bind. destruct (m s) as [[a|e] s1]; [eauto|discriminate].
Qed.

Lemma bind_Ok {S A B} (m : M S A) (k : A → M S B) s a s1 :
  m s = (Ok a, s1) → (m ≫= k) s = k a s1.
Proof. unfold mbind, M_bind. intros ->. reflexivity. Qed.

Lemma bind_Raise {S A B} (m : M S A) (k : A → M S B) s e s1 :
  m s = (Raise e, s1) → (m ≫= k) s = (Raise e, s1).
Proof. unfold mbind, M_bind. intros ->. reflexivity. Qed.

Lemma ret_eq {S A} (a : A) (s : S) : (mret a : M S A) s = (Ok a, s).
Proof. reflexivity. Qed.

Lemma lift_Ok_inv {S A} (r : result A) (s s' : S) a :
  lift r s = (Ok a, s') → r = Ok a ∧ s' = s.
Proof. unfold lift. intros [= -> ->]. auto. Qed.

Lemma ret_Ok_inv {S A} (x a : A) (s s' : S) :
  (mret x : M S A) s = (Ok a, s') → a = x ∧ s' = s.
Proof. unfold mret, M_ret. intros [= -> ->]. auto. Qed.

Lemma rbind_Ok {A B} (r : result A) (k : A → result B) a :
  r = Ok a → r ≫= k = k a.
Proof. by intros ->. Qed.

Lemma rbind_Ok_inv {A B} (r : result A) (k : A → result B) b :
  r ≫= k = Ok b → ∃ a, r = Ok a ∧ k a = Ok b.
Proof. destruct r; [eauto|discriminate]. Qed.

(** ** Tabulator *)

Module TabulatorFacts.
Import Tabulator.

(** *** argmax *)

Lemma argmax_nonempty (flags : list bool) :
  flags ≠ [] → argmax flags = Ok (default 0%nat (first_true flags)).
Proof. by destruct flags. Qed.

Lemma first_true_Some flags k :
  first_true flags = Some k →
  flags !! k = Some true ∧ ∀ i, (i < k)%nat → flags !! i = Some false.
Proof.
  revert k. induction flags as [|b flags IH]; intros k H; simpl in H.
  - discriminate.
  - destruct b.
    + injection H as <-. split; [done|lia].
    + destruct (first_true flags) as [k'|]; [|discriminate].
      injection H as <-. destruct (IH k' eq_refl) as [Hk Hlt].
      split; [done|]. intros [|i] Hi; [done|]. apply Hlt. lia.
Qed.

Lemma first_true_lt flags k :
  first_true flags = Some k → (k < length flags)%nat.
Proof.
  intros H. apply first_true_Some in H as [H _]. by eapply lookup_lt_Some.
Qed.

Lemma argmax_default_lt (flags : list bool) :
  flags ≠ [] → (default 0%nat (first_true flags) < length flags)%nat.
Proof.
  intros Hne. destruct (first_true flags) as [k|] eqn:Hk; simpl.
  - by apply first_true_lt.
  - destruct flags; [done|simpl; lia].
Qed.

(** *** The heap *)

Lemma read_eq a (h : heap) : read a h = (Ok (h !!! a), h).
Proof. reflexivity. Qed.

Lemma write_eq a v (h : heap) : write a v h = (Ok tt, <[a := v]> h).
Proof. reflexivity. Qed.

Lemma two_arrays_id (h : heap) u f ua fa :
  u ≠ f → h !! u = Some ua → h !! f = Some fa →
  <[f := fa]> (<[u := ua]> h) = h.
Proof.
  intros Hne Hu Hf. rewrite (insert_id h u ua) by done. by apply insert_id.
Qed.

Lemma two_arrays_overwrite (h : heap) u f u1 f1 u2 f2 :
  u ≠ f →
  <[f := f2]> (<[u := u2]> (<[f := f1]> (<[u := u1]> h)))
  = <[f := f2]> (<[u := u2]> h).
Proof.
  intros Hne. apply map_eq. intros i.
  rewrite !lookup_insert. by repeat case_decide.
Qed.

Lemma two_arrays_lookup (h : heap) u f ua fa :
  u ≠ f →
  <[f := fa]> (<[u := ua]> h) !! u = Some ua
  ∧ <[f := fa]> (<[u := ua]> h) !! f = Some fa.
Proof.
  intros Hne. split.
  - rewrite lookup_insert_ne by done. apply lookup_insert_eq.
  - apply lookup_insert_eq.
Qed.

(** *** The blocks of [regularize] *)

Section steps.
Context (self : Tabulator) (u f : loc) (Hne : u ≠ f).

Lemma cap_forces_distinct fmax (h : heap) ua fa :
  h !! u = Some ua → h !! f = Some fa → fa ≠ [] →
  cap_forces self u f fmax h
  = (Ok tt, <[f := (capped self fmax ua fa).2]>
              (<[u := (capped self fmax ua fa).1]> h)).
Proof.
  intros Hu Hf Hfa. unfold cap_forces, capped.
  rewrite (bind_Ok _ _ _ _ _ (read_eq f h)).
  rewrite (lookup_total_correct _ _ _ Hf).
  rewrite argmax_nonempty by (by destruct fa).
  unfold lift at 1. unfold mbind at 1, M_bind at 1.
  set (cut := default 0%nat (first_true _)).
  case_bool_decide.
  - rewrite (bind_Ok _ _ _ _ _ (read_eq u h)).
    rewrite (bind_Ok _ _ _ _ _ (read_eq f h)).
    rewrite (lookup_total_correct _ _ _ Hu), (lookup_total_correct _ _ _ Hf).
    rewrite (bind_Ok _ _ _ _ _ (write_eq u _ h)).
    rewrite (bind_Ok _ _ _ _ _ (read_eq f _)).
    rewrite lookup_total_insert_ne by done.
    rewrite (lookup_total_correct _ _ _ Hf).
    by rewrite write_eq.
  - simpl. by rewrite two_arrays_id.
Qed.

Lemma cut_tail_distinct fcut (h : heap) ua fa :
  h !! u = Some ua → h !! f = Some fa → fa ≠ [] →
  cut_tail u f fcut h
  = (Ok tt, <[f := (tail_cut fcut ua fa).2]>
              (<[u := (tail_cut fcut ua fa).1]> h)).
Proof.
  intros Hu Hf Hfa. unfold cut_tail, tail_cut.
  rewrite (bind_Ok _ _ _ _ _ (read_eq f h)).
  rewrite (lookup_total_correct _ _ _ Hf).
  rewrite argmax_nonempty
    by (intros Hnil; apply fmap_nil_inv in Hnil;
        apply (f_equal length) in Hnil; rewrite length_reverse in Hnil;
        by destruct fa).
  unfold lift at 1. unfold mbind at 1, M_bind at 1.
  set (k := default 0%nat (first_true _)).
  rewrite (bind_Ok _ _ _ _ _ (read_eq u h)).
  rewrite (lookup_total_correct _ _ _ Hu).
  rewrite (bind_Ok _ _ _ _ _ (write_eq u _ h)).
  rewrite (bind_Ok _ _ _ _ _ (read_eq f _)).
  rewrite lookup_total_insert_ne by done.
  rewrite (lookup_total_correct _ _ _ Hf).
  case_bool_decide.
  - rewrite (bind_Ok _ _ _ _ _ (read_eq u _)).
    rewrite lookup_total_insert_eq.
    rewrite (bind_Ok _ _ _ _ _ (write_eq u _ _)).
    rewrite (bind_Ok _ _ _ _ _ (read_eq f _)).
    rewrite insert_insert_eq.
    rewrite lookup_total_insert_ne by done.
    rewrite (lookup_total_correct _ _ _ Hf).
    by rewrite write_eq.
  - simpl. unfold mret, M_ret. f_equal.
    symmetry. apply insert_id.
    by rewrite lookup_insert_ne.
Qed.
End steps.

Lemma fill_prefix_length n v (a : list float) :
  length (fill_prefix n v a) = length a.
Proof.
  unfold fill_prefix. rewrite length_app, length_replicate, length_drop. lia.
Qed.

Lemma fill_suffix_length n v (a : list float) :
  length (fill_suffix n v a) = length a.
Proof.
  unfold fill_suffix. rewrite length_app, length_replicate, length_take. lia.
Qed.

Lemma capped_length self fmax ua fa :
  length ua = length (r self) → length fa = length (r self) → fa ≠ [] →
  length (capped self fmax ua fa).1 = length ua
  ∧ length (capped self fmax ua fa).2 = length fa.
Proof.
  intros Hu Hf Hne. unfold capped.
  set (flags := (λ x, fle (fabs x) fmax) <$> fa).
  assert (default 0%nat (first_true flags) < length fa)%nat as Hcut.
  { rewrite <- (length_fmap (λ x, fle (fabs x) fmax)).
    apply argmax_default_lt. unfold flags. by destruct fa. }
  case_bool_decide; simpl; [|done].
  split; [|apply fill_prefix_length].
  unfold set_prefix.
  rewrite length_app, length_fmap, length_take, length_drop. lia.
Qed.

Lemma tail_cut_length fcut ua fa :
  length (tail_cut fcut ua fa).1 = length ua
  ∧ length (tail_cut fcut ua fa).2 = length fa.
Proof.
  unfold tail_cut. case_bool_decide; simpl.
  - by rewrite !fill_suffix_length, length_fmap.
  - by rewrite length_fmap.
Qed.

Lemma regularized_length self ua fa :
  length ua = length (r self) → length fa = length (r self) → fa ≠ [] →
  length (regularized self ua fa).1 = length ua
  ∧ length (regularized self ua fa).2 = length fa.
Proof.
  intros Hu Hf Hne. unfold regularized.
  destruct (fmax self) as [m|].
  - destruct (capped_length self m ua fa Hu Hf Hne) as [Hu1 Hf1].
    destruct (capped self m ua fa) as [u1 f1]. simpl in *.
    destruct (fcut self) as [c|]; [|done].
    destruct (tail_cut_length c u1 f1) as [Hu2 Hf2]. split; congruence.
  - destruct (fcut self) as [c|]; [|done].
    apply tail_cut_length.
Qed.

Section steps_composed.
Context (self : Tabulator) (u f : loc) (Hne : u ≠ f).

Lemma trim_rows_distinct trim (h : heap) ua fa :
  h !! u = Some ua → h !! f = Some fa →
  length ua = length (r self) → length fa = length (r self) → fa ≠ [] →
  let n := rows_kept trim fa in
  trim_rows self u f trim h
  = (Ok (take n (r self), take n ua, take n fa), h).
Proof.
  intros Hu Hf Hlu Hlf Hfa n. unfold trim_rows, rows_kept in *.
  destruct trim.
  - rewrite (bind_Ok _ _ _ _ _ (read_eq f h)).
    rewrite (lookup_total_correct _ _ _ Hf).
    rewrite argmax_nonempty
      by (intros Hnil; apply fmap_nil_inv in Hnil;
          apply (f_equal length) in Hnil; rewrite length_reverse in Hnil;
          by destruct fa).
    unfold lift at 1. unfold mbind at 1, M_bind at 1.
    subst n. case_bool_decide;
      rewrite (bind_Ok _ _ _ _ _ (read_eq u h)),
              (bind_Ok _ _ _ _ _ (read_eq f h)),
              (lookup_total_correct _ _ _ Hf), (lookup_total_correct _ _ _ Hu);
      [done|].
    by rewrite !take_ge by lia.
  - rewrite (bind_Ok _ _ _ _ _ (read_eq u h)).
    rewrite (bind_Ok _ _ _ _ _ (read_eq f h)).
    rewrite (lookup_total_correct _ _ _ Hf), (lookup_total_correct _ _ _ Hu).
    subst n. by rewrite !take_ge by lia.
Qed.

(** [regularize] on two different arrays of the grid's length: the
    caller's arrays end up holding [regularized], and the table is stacked
    from their first [rows_kept] entries. *)
Lemma regularize_distinct trim (h : heap) ua fa :
  h !! u = Some ua → h !! f = Some fa →
  length ua = length (r self) → length fa = length (r self) → r self ≠ [] →
  let u' := (regularized self ua fa).1 in
  let f' := (regularized self ua fa).2 in
  let n := rows_kept trim f' in
  regularize self u f trim h
  = (Ok (column_stack (take n (r self)) (take n u') (take n f')),
     <[f := f']> (<[u := u']> h)).
Proof.
  intros Hu Hf Hlu Hlf Hr u' f' n.
  assert (fa ≠ []) as Hfa by (destruct fa, (r self); done).
  destruct (regularized_length self ua fa Hlu Hlf Hfa) as [Hlu' Hlf'].
  fold u' in Hlu'. fold f' in Hlf'.
  unfold regularize.
  rewrite (bind_Ok _ _ _ _ _ (read_eq u h)).
  rewrite (lookup_total_correct _ _ _ Hu).
  rewrite bool_decide_eq_false_2 by (by intros ?). cbn iota.
  rewrite (bind_Ok _ _ _ _ _ (ret_eq tt h)).
  rewrite (bind_Ok _ _ _ _ _ (read_eq f h)).
  rewrite (lookup_total_correct _ _ _ Hf).
  rewrite bool_decide_eq_false_2 by (by intros ?). cbn iota.
  rewrite (bind_Ok _ _ _ _ _ (ret_eq tt h)).
  subst u' f' n. unfold regularized in *.
  set (c1 := match fmax self with
             | Some m => capped self m ua fa | None => (ua, fa) end) in *.
  assert (match fmax self with
          | Some m => cap_forces self u f m | None => mret tt end h
          = (Ok tt, <[f := c1.2]> (<[u := c1.1]> h))) as Hcap.
  { subst c1. destruct (fmax self) as [m|].
    - by apply cap_forces_distinct.
    - simpl. unfold mret, M_ret. by rewrite two_arrays_id. }
  assert (length c1.1 = length ua ∧ length c1.2 = length fa) as [Hl1 Hl2].
  { subst c1. destruct (fmax self) as [m|]; [|done].
    by apply capped_length. }
  rewrite (bind_Ok _ _ _ _ _ Hcap).
  destruct c1 as [u1 f1]. simpl in *.
  assert (f1 ≠ []) as Hf1 by (destruct f1, fa; done).
  destruct (two_arrays_lookup h u f u1 f1 Hne) as [Hu1 Hf1'].
  set (c2 := match fcut self with
             | Some c => tail_cut c u1 f1 | None => (u1, f1) end) in *.
  assert (match fcut self with
          | Some c => cut_tail u f c | None => mret tt end
            (<[f := f1]> (<[u := u1]> h))
          = (Ok tt, <[f := c2.2]> (<[u := c2.1]> h))) as Hcut.
  { subst c2. destruct (fcut self) as [c|].
    - rewrite (cut_tail_distinct u f Hne c _ u1 f1) by done.
      by rewrite two_arrays_overwrite.
    - done. }
  rewrite (bind_Ok _ _ _ _ _ Hcut).
  destruct c2 as [u2 f2]. simpl in *.
  destruct (two_arrays_lookup h u f u2 f2 Hne) as [Hu2 Hf2].
  rewrite (bind_Ok _ _ _ _ _
             (trim_rows_distinct trim _ u2 f2 Hu2 Hf2 ltac:(congruence)
                ltac:(congruence) ltac:(by destruct f2, fa))).
  done.
Qed.
End steps_composed.

(** *** Rows of the table *)

Lemma column_stack_lookup (ra ua fa : list float) i row :
  column_stack ra ua fa !! i = Some row ↔
  ∃ ri ui fi, ra !! i = Some ri ∧ ua !! i = Some ui ∧ fa !! i = Some fi
              ∧ row = (ri, ui, fi).
Proof.
  revert ua fa i. induction ra as [|r0 ra IH]; intros ua fa i.
  - simpl. split; [by rewrite lookup_nil|].
    intros (? & ? & ? & H & _). by rewrite lookup_nil in H.
  - destruct ua as [|u0 ua]; [|destruct fa as [|f0 fa]]; simpl.
    + split; [by rewrite lookup_nil|].
      intros (? & ? & ? & _ & H & _). by rewrite lookup_nil in H.
    + split; [by rewrite lookup_nil|].
      intros (? & ? & ? & _ & _ & H & _). by rewrite lookup_nil in H.
    + destruct i as [|i]; simpl.
      * split.
        -- intros [= <-]. eauto 10.
        -- by intros (? & ? & ? & [= <-] & [= <-] & [= <-] & ->).
      * apply IH.
Qed.

(** The trim keeps every row up to, and one past, the last row whose force
    is not zero. *)
Lemma rows_kept_spec trim fa :
  rows_kept trim fa = length fa
  ∨ ∃ j x, fa !! j = Some x ∧ fgt (fabs x) fzero = true
           ∧ (∀ i y, (j < i)%nat → fa !! i = Some y → fgt (fabs y) fzero = false)
           ∧ rows_kept trim fa = (j + 2)%nat.
Proof.
  unfold rows_kept. destruct trim; [|by left].
  set (flags := (λ x, fgt (fabs x) fzero) <$> reverse fa).
  case_bool_decide as Hcut; [|by left]. right.
  destruct (first_true flags) as [k|] eqn:Hk; simpl in *; [|lia].
  pose proof (first_true_lt _ _ Hk) as Hlt.
  unfold flags in Hlt. rewrite length_fmap, length_reverse in Hlt.
  apply first_true_Some in Hk as [Hk Hbefore].
  unfold flags in Hk. rewrite list_lookup_fmap in Hk.
  rewrite reverse_lookup in Hk by lia.
  destruct (fa !! (length fa - S k)%nat) as [x|] eqn:Hx; [|done].
  injection Hk as Hk.
  exists (length fa - S k)%nat, x. split_and!; [done..| |lia].
  intros i y Hi Hy.
  pose proof (lookup_lt_Some _ _ _ Hy) as Hil.
  specialize (Hbefore (length fa - S i)%nat ltac:(lia)).
  unfold flags in Hbefore. rewrite list_lookup_fmap in Hbefore.
  rewrite reverse_lookup in Hbefore by lia.
  replace (length fa - S (length fa - S i))%nat with i in Hbefore by lia.
  rewrite Hy in Hbefore. by injection Hbefore.
Qed.

(** *** The force cap *)

Section capped_facts.
Context (self : Tabulator) (fmax : float) (ua fa : list float) (cut : nat).
Context (Hlu : length ua = length (r self)) (Hlf : length fa = length (r self)).
Context (Hcut : first_true ((λ x, fle (fabs x) fmax) <$> fa) = Some cut).

Lemma cut_lt : (cut < length fa)%nat.
Proof. apply first_true_lt in Hcut. by rewrite length_fmap in Hcut. Qed.

Lemma capped_before i ri :
  (i < cut)%nat → r self !! i = Some ri →
  (capped self fmax ua fa).1 !! i
    = Some (fsub (ua !!! cut) (fmul (fa !!! cut) (fsub ri (r self !!! cut))))
  ∧ (capped self fmax ua fa).2 !! i = Some (fa !!! cut).
Proof.
  intros Hi Hri. pose proof cut_lt as Hc.
  unfold capped. rewrite Hcut. simpl.
  rewrite bool_decide_eq_true_2 by lia. simpl.
  unfold set_prefix, fill_prefix. split.
  - rewrite lookup_app_l by (rewrite length_fmap, length_take; lia).
    rewrite list_lookup_fmap, lookup_take_lt by done. by rewrite Hri.
  - rewrite lookup_app_l by (rewrite length_replicate; lia).
    apply lookup_replicate. split; [done|lia].
Qed.

Lemma capped_from i :
  (cut <= i)%nat →
  (capped self fmax ua fa).1 !! i = ua !! i
  ∧ (capped self fmax ua fa).2 !! i = fa !! i.
Proof.
  intros Hi. pose proof cut_lt as Hc.
  unfold capped. rewrite Hcut. simpl.
  case_bool_decide; simpl; [|done].
  unfold set_prefix, fill_prefix. split.
  - rewrite lookup_app_r by (rewrite length_fmap, length_take; lia).
    rewrite length_fmap, length_take, lookup_drop. f_equal. lia.
  - rewrite lookup_app_r by (rewrite length_replicate; lia).
    rewrite length_replicate, lookup_drop. f_equal. lia.
Qed.

Lemma capped_keeps_rows trim i :
  (i <= cut)%nat → (i < rows_kept trim (capped self fmax ua fa).2)%nat.
Proof.
  intros Hi. pose proof cut_lt as Hc.
  destruct (capped_length self fmax ua fa Hlu Hlf) as [_ Hl];
    [by destruct fa; simpl in *; [lia|]|].
  destruct (rows_kept_spec trim (capped self fmax ua fa).2)
    as [->|(j & x & Hj & Hx & Hafter & ->)]; [lia|].
  destruct (decide (cut <= j)%nat); [lia|].
  exfalso.
  assert (fa !! cut = Some (fa !!! cut)) as Hfc
    by (apply list_lookup_lookup_total_lt; lia).
  assert ((capped self fmax ua fa).2 !! j = Some (fa !!! cut)) as Hj'.
  { destruct (lookup_lt_is_Some_2 (r self) j) as [rj Hrj]; [lia|].
    by apply (capped_before j rj); [lia|]. }
  rewrite Hj in Hj'. injection Hj' as ->.
  rewrite (Hafter cut (fa !!! cut)) in Hx; [done|lia|].
  destruct (capped_from cut) as [_ ->]; done.
Qed.
End capped_facts.

(** C5.  Let [fmax] be set, let [u] and [f] be two arrays of the grid's
    length, and let [cut] be the first index with [|f[cut]| <= fmax].  The
    [fmax] block leaves the arrays with, at every index [i < cut], the
    energy [u[cut] - f[cut] * (r[i] - r[cut])] and the force [f[cut]], and
    with their old entries from [cut] on.  When no [fcut] block follows,
    [regularize] returns a table with exactly these rows below [cut] (the
    trim never removes them) and the input rows from [cut] on. *)
Theorem regularize_caps_forces self u f trim (h : heap) ua fa m cut :
  u ≠ f → h !! u = Some ua → h !! f = Some fa →
  length ua = length (r self) → length fa = length (r self) →
  fmax self = Some m →
  first_true ((λ x, fle (fabs x) m) <$> fa) = Some cut →
  let tangent ri :=
    fsub (ua !!! cut) (fmul (fa !!! cut) (fsub ri (r self !!! cut))) in
  (∃ h1 u1 f1,
      cap_forces self u f m h = (Ok tt, h1)
      ∧ h1 !! u = Some u1 ∧ h1 !! f = Some f1
      ∧ (∀ i ri, (i < cut)%nat → r self !! i = Some ri →
           u1 !! i = Some (tangent ri) ∧ f1 !! i = Some (fa !!! cut))
      ∧ (∀ i, (cut <= i)%nat → u1 !! i = ua !! i ∧ f1 !! i = fa !! i))
  ∧ (fcut self = None →
     ∃ table h',
       regularize self u f trim h = (Ok table, h')
       ∧ (∀ i ri, (i < cut)%nat → r self !! i = Some ri →
            table !! i = Some (ri, tangent ri, fa !!! cut))
       ∧ (∀ i row, (cut <= i)%nat → table !! i = Some row →
            ∃ ri ui fi, r self !! i = Some ri ∧ ua !! i = Some ui
                        ∧ fa !! i = Some fi ∧ row = (ri, ui, fi))).
Proof.
  intros Hne Hu Hf Hlu Hlf Hfmax Hcut tangent.
  pose proof (cut_lt m fa cut Hcut) as Hc.
  assert (fa ≠ []) as Hfa by (destruct fa; simpl in *; [lia|done]).
  assert (r self ≠ []) as Hr by (destruct (r self), fa; done).
  split.
  - eexists _, _, _. split_and!.
    + by apply (cap_forces_distinct self u f Hne m h ua fa).
    + by apply two_arrays_lookup.
    + by apply two_arrays_lookup.
    + intros i ri Hi Hri. by eapply capped_before.
    + intros i Hi. by eapply capped_from.
  - intros Hfcut. eexists _, _. split_and!.
    + by apply (regularize_distinct self u f Hne trim h ua fa).
    + intros i ri Hi Hri.
      unfold regularized. rewrite Hfmax, Hfcut.
      destruct (capped self m ua fa) as [u1 f1] eqn:Hcap. simpl.
      pose proof (capped_keeps_rows self m ua fa cut Hlu Hlf Hcut trim i
                    ltac:(lia)) as Hrows.
      destruct (capped_before self m ua fa cut Hlu Hlf Hcut i ri Hi Hri)
        as [Hu1 Hf1].
      rewrite Hcap in Hrows, Hu1, Hf1. simpl in *.
      apply column_stack_lookup. eexists _, _, _.
      rewrite !lookup_take_lt by done. done.
    + intros i row Hi Hrow.
      unfold regularized in Hrow. rewrite Hfmax, Hfcut in Hrow.
      destruct (capped_from self m ua fa cut Hlu Hlf Hcut i Hi) as [Hu1 Hf1].
      destruct (capped self m ua fa) as [u1 f1] eqn:Hcap. simpl in *.
      apply column_stack_lookup in Hrow
        as (ri & ui & fi & Hri & Hui & Hfi & ->).
      apply lookup_take_Some in Hri as [Hri _].
      apply lookup_take_Some in Hui as [Hui _].
      apply lookup_take_Some in Hfi as [Hfi _].
      exists ri, ui, fi. split_and!; congruence.
Qed.

(** The case "only fmax" of [test_regularize], with [fmax = 13]: the first
    force within the cap is the second one. *)
Lemma regularize_caps_forces_witness :
  let self := {| r := test_r; fmax := Some (fq 13 1); fcut := None |} in
  let tangent ri :=
    fsub (test_u !!! 1%nat) (fmul (test_f !!! 1%nat) (fsub ri (test_r !!! 1%nat))) in
  (∃ h1 u1 f1,
      cap_forces self 0%nat 1%nat (fq 13 1) test_heap = (Ok tt, h1)
      ∧ h1 !! 0%nat = Some u1 ∧ h1 !! 1%nat = Some f1
      ∧ (∀ i ri, (i < 1)%nat → test_r !! i = Some ri →
           u1 !! i = Some (tangent ri) ∧ f1 !! i = Some (test_f !!! 1%nat))
      ∧ (∀ i, (1 <= i)%nat → u1 !! i = test_u !! i ∧ f1 !! i = test_f !! i))
  ∧ (fcut self = None →
     ∃ table h',
       regularize self 0%nat 1%nat true test_heap = (Ok table, h')
       ∧ (∀ i ri, (i < 1)%nat → test_r !! i = Some ri →
            table !! i = Some (ri, tangent ri, test_f !!! 1%nat))
       ∧ (∀ i row, (1 <= i)%nat → table !! i = Some row →
            ∃ ri ui fi, test_r !! i = Some ri ∧ test_u !! i = Some ui
                        ∧ test_f !! i = Some fi ∧ row = (ri, ui, fi))).
Proof.
  intros self.
  apply (regularize_caps_forces self 0%nat 1%nat true test_heap
           test_u test_f (fq 13 1) 1%nat).
  - discriminate.
  - reflexivity.
  - reflexivity.
  - reflexivity.
  - reflexivity.
  - reflexivity.
  - by_compute.
Defined.

(** *** The tail cutoff *)

Lemma first_true_all_false (flags : list bool) :
  (∀ b, b ∈ flags → b = false) → first_true flags = None.
Proof.
  induction flags as [|b flags IH]; intros H; [done|]. simpl.
  rewrite (H b) by left. rewrite IH; [done|].
  intros b' Hb'. apply H. by right.
Qed.

Lemma capped_forces_subset self fmax ua fa x :
  x ∈ (capped self fmax ua fa).2 → x ∈ fa.
Proof.
  unfold capped.
  destruct (first_true ((λ x, fle (fabs x) fmax) <$> fa)) as [cut|] eqn:Hft;
    simpl; [|done].
  apply first_true_lt in Hft. rewrite length_fmap in Hft.
  case_bool_decide as Hcut; simpl; [|done].
  unfold fill_prefix. intros Hx. apply elem_of_app in Hx as [Hx|Hx].
  - apply elem_of_replicate in Hx as [-> Hn].
    by apply list_elem_of_lookup_total_2.
  - apply list_elem_of_lookup in Hx as [i Hi].
    rewrite lookup_drop in Hi. by eapply list_elem_of_lookup_2.
Qed.

Lemma tail_cut_below_threshold fcut ua fa :
  (∀ x, x ∈ fa → fge (fabs x) fcut = false) →
  tail_cut fcut ua fa
  = ((λ x, fsub x (ua !!! (length fa - 1)%nat)) <$> ua, fa).
Proof.
  intros Hlow. unfold tail_cut.
  rewrite first_true_all_false.
  - simpl. rewrite Nat.sub_0_r.
    by rewrite bool_decide_eq_false_2 by lia.
  - intros b Hb. apply list_elem_of_fmap in Hb as (x & -> & Hx).
    apply Hlow. by apply elem_of_reverse.
Qed.

(** C6 as stated fails.  On the table of [test_regularize] with
    [fcut = 16], above every force, the returned energies are the input
    energies lowered by the last one, 3/4: the table is not the input
    table. *)
Lemma regularize_below_fcut_shifts_energy :
  let self := {| r := test_r; fmax := None; fcut := Some (fq 16 1) |} in
  (∀ x, x ∈ test_f → fge (fabs x) (fq 16 1) = false)
  ∧ (regularize self 0%nat 1%nat false test_heap).1
    = Ok (column_stack test_r
            [fq 18 1; fq 45 4; fq 6 1; fq 9 4; fq 0 1] test_f)
  ∧ (regularize self 0%nat 1%nat false test_heap).1
    ≠ Ok (column_stack test_r test_u test_f).
Proof.
  split_and!; [|by_compute..].
  intros x Hx. unfold test_f in Hx.
  repeat (apply elem_of_cons in Hx as [->|Hx]; [by_compute|]).
  by apply elem_of_nil in Hx.
Qed.

(** C6, amended.  Let [fcut] be set and let no force of a non-empty table
    reach it.  [regularize] has no warning to emit.  The [fcut] block
    zeroes nothing and leaves the forces as the [fmax] block left them;
    it lowers every energy by the energy of the last grid point.  The
    returned table is stacked from the grid and these arrays. *)
Theorem regularize_below_fcut self u f trim (h : heap) ua fa c :
  u ≠ f → h !! u = Some ua → h !! f = Some fa →
  length ua = length (r self) → length fa = length (r self) →
  r self ≠ [] →
  fcut self = Some c →
  (∀ x, x ∈ fa → fge (fabs x) c = false) →
  let u1 := (after_cap self ua fa).1 in
  let f1 := (after_cap self ua fa).2 in
  let shifted := (λ x, fsub x (u1 !!! (length (r self) - 1)%nat)) <$> u1 in
  let n := rows_kept trim f1 in
  regularize self u f trim h
  = (Ok (column_stack (take n (r self)) (take n shifted) (take n f1)),
     <[f := f1]> (<[u := shifted]> h)).
Proof.
  intros Hne Hu Hf Hlu Hlf Hr Hfcut Hlow u1 f1 shifted n.
  rewrite (regularize_distinct self u f Hne trim h ua fa) by done.
  assert (fa ≠ []) as Hfa by (destruct fa, (r self); done).
  assert (regularized self ua fa = (shifted, f1)) as ->; [|done].
  unfold regularized. rewrite Hfcut.
  subst shifted n. subst u1 f1. unfold after_cap.
  assert (length (match fmax self with
                  | Some m => capped self m ua fa | None => (ua, fa) end).2
          = length (r self)) as Hl.
  { destruct (fmax self) as [m|]; [|done].
    destruct (capped_length self m ua fa Hlu Hlf Hfa). congruence. }
  assert (∀ x, x ∈ (match fmax self with
                    | Some m => capped self m ua fa | None => (ua, fa) end).2
               → fge (fabs x) c = false) as Hlow'.
  { intros x Hx. apply Hlow. destruct (fmax self) as [m|]; [|done].
    by eapply capped_forces_subset. }
  destruct (match fmax self with
            | Some m => capped self m ua fa | None => (ua, fa) end)
    as [u1 f1]. simpl in *.
  rewrite tail_cut_below_threshold by done. by rewrite Hl.
Qed.

(** The table of [test_regularize] with [fcut = 16]. *)
Lemma regularize_below_fcut_witness :
  let self := {| r := test_r; fmax := None; fcut := Some (fq 16 1) |} in
  let shifted := (λ x, fsub x (test_u !!! 4%nat)) <$> test_u in
  regularize self 0%nat 1%nat true test_heap
  = (Ok (column_stack (take (rows_kept true test_f) test_r)
           (take (rows_kept true test_f) shifted)
           (take (rows_kept true test_f) test_f)),
     <[1%nat := test_f]> (<[0%nat := shifted]> test_heap)).
Proof.
  intros self shifted.
  apply (regularize_below_fcut self 0%nat 1%nat true test_heap
           test_u test_f (fq 16 1)).
  - discriminate.
  - reflexivity.
  - reflexivity.
  - reflexivity.
  - reflexivity.
  - discriminate.
  - reflexivity.
  - intros x Hx. unfold test_f in Hx.
    repeat (apply elem_of_cons in Hx as [->|Hx]; [by_compute|]).
    by apply elem_of_nil in Hx.
Defined.

(** *** In-place mutation *)

Lemma regularize_Ok_lengths self u f trim (h : heap) table h' :
  regularize self u f trim h = (Ok table, h') →
  length (h !!! u) = length (r self) ∧ length (h !!! f) = length (r self).
Proof.
  unfold regularize. intros H.
  rewrite (bind_Ok _ _ _ _ _ (read_eq u h)) in H.
  case_bool_decide as Hu; [discriminate|].
  rewrite (bind_Ok _ _ _ _ _ (ret_eq tt h)) in H.
  rewrite (bind_Ok _ _ _ _ _ (read_eq f h)) in H.
  case_bool_decide as Hf; [discriminate|].
  split.
  - destruct (decide (length (h !!! u) = length (r self))); [done|by destruct Hu].
  - destruct (decide (length (h !!! f) = length (r self))); [done|by destruct Hf].
Qed.

Lemma cap_forces_empty self u f m (h : heap) :
  h !! f = Some [] → cap_forces self u f m h = (Raise empty_argmax, h).
Proof.
  intros Hf. unfold cap_forces.
  rewrite (bind_Ok _ _ _ _ _ (read_eq f h)).
  by rewrite (lookup_total_correct _ _ _ Hf).
Qed.

Lemma cut_tail_empty u f c (h : heap) :
  h !! f = Some [] → cut_tail u f c h = (Raise empty_argmax, h).
Proof.
  intros Hf. unfold cut_tail.
  rewrite (bind_Ok _ _ _ _ _ (read_eq f h)).
  by rewrite (lookup_total_correct _ _ _ Hf).
Qed.

Lemma trim_rows_empty self u f (h : heap) :
  h !! f = Some [] → trim_rows self u f true h = (Raise empty_argmax, h).
Proof.
  intros Hf. unfold trim_rows.
  rewrite (bind_Ok _ _ _ _ _ (read_eq f h)).
  by rewrite (lookup_total_correct _ _ _ Hf).
Qed.

Lemma trim_rows_false self u f (h : heap) :
  trim_rows self u f false h = (Ok (r self, h !!! u, h !!! f), h).
Proof. reflexivity. Qed.

Lemma regularize_empty_grid self u f trim (h : heap) table h' :
  r self = [] → h !! u = Some [] → h !! f = Some [] →
  regularize self u f trim h = (Ok table, h') →
  fmax self = None ∧ fcut self = None ∧ trim = false ∧ table = [] ∧ h' = h.
Proof.
  intros Hr Hu Hf H. unfold regularize in H.
  rewrite (bind_Ok _ _ _ _ _ (read_eq u h)) in H.
  rewrite (lookup_total_correct _ _ _ Hu), Hr in H.
  rewrite bool_decide_eq_false_2 in H by (by intros ?). cbn iota in H.
  rewrite (bind_Ok _ _ _ _ _ (ret_eq tt h)) in H.
  rewrite (bind_Ok _ _ _ _ _ (read_eq f h)) in H.
  rewrite (lookup_total_correct _ _ _ Hf) in H.
  rewrite bool_decide_eq_false_2 in H by (by intros ?). cbn iota in H.
  rewrite (bind_Ok _ _ _ _ _ (ret_eq tt h)) in H.
  destruct (fmax self) as [m|].
  { rewrite (bind_Raise _ _ _ _ _ (cap_forces_empty self u f m h Hf)) in H.
    discriminate. }
  rewrite (bind_Ok _ _ _ _ _ (ret_eq tt h)) in H.
  destruct (fcut self) as [c|].
  { rewrite (bind_Raise _ _ _ _ _ (cut_tail_empty u f c h Hf)) in H.
    discriminate. }
  rewrite (bind_Ok _ _ _ _ _ (ret_eq tt h)) in H.
  destruct trim.
  { rewrite (bind_Raise _ _ _ _ _ (trim_rows_empty self u f h Hf)) in H.
    discriminate. }
  rewrite (bind_Ok _ _ _ _ _ (trim_rows_false self u f h)) in H.
  rewrite Hr in H. simpl in H. unfold mret, M_ret in H.
  by injection H as <- <-.
Qed.

(** C10.  A call of [regularize] on two arrays that returns leaves the
    caller's arrays holding the regularized values: the tangent-line
    energies and the capped forces of the [fmax] block, the shifted
    energies and the zeroed tail of the [fcut] block.  No other array
    changes.  The returned table is stacked from the grid and from the
    leading entries of these two arrays. *)
Theorem regularize_mutates_in_place self u f trim (h : heap) ua fa table h' :
  u ≠ f → h !! u = Some ua → h !! f = Some fa →
  regularize self u f trim h = (Ok table, h') →
  let u' := (regularized self ua fa).1 in
  let f' := (regularized self ua fa).2 in
  let n := rows_kept trim f' in
  h' !! u = Some u' ∧ h' !! f = Some f'
  ∧ (∀ a, a ≠ u → a ≠ f → h' !! a = h !! a)
  ∧ table = column_stack (take n (r self)) (take n u') (take n f').
Proof.
  intros Hne Hu Hf H u' f' n.
  destruct (regularize_Ok_lengths _ _ _ _ _ _ _ H) as [Hlu Hlf].
  rewrite (lookup_total_correct _ _ _ Hu) in Hlu.
  rewrite (lookup_total_correct _ _ _ Hf) in Hlf.
  destruct (decide (r self = [])) as [Hr|Hr].
  - rewrite Hr in Hlu, Hlf.
    apply nil_length_inv in Hlu as ->. apply nil_length_inv in Hlf as ->.
    destruct (regularize_empty_grid _ _ _ _ _ _ _ Hr Hu Hf H)
      as (Hfmax & Hfcut & -> & -> & ->).
    subst u' f' n. unfold regularized. rewrite Hfmax, Hfcut, Hr. simpl.
    done.
  - rewrite (regularize_distinct self u f Hne trim h ua fa) in H by done.
    injection H as <- <-. fold u' f' n.
    split_and!; [by apply two_arrays_lookup..| |done].
    intros a Hau Haf. by rewrite !lookup_insert_ne.
Qed.

(** The case "fmax and fcut" of [test_regularize]: after the call the
    caller's energies and forces are the regularized ones, not the ones
    passed in. *)
Lemma regularize_mutates_in_place_witness :
  let self := {| r := test_r; fmax := Some (fq 13 1); fcut := Some (fq 7 1) |} in
  let h' := (regularize self 0%nat 1%nat true test_heap).2 in
  let u' := [fq 45 4; fq 21 4; fq 0 1; fq 0 1; fq 0 1] in
  let f' := [fq 12 1; fq 12 1; fq 9 1; fq 0 1; fq 0 1] in
  regularized self test_u test_f = (u', f')
  ∧ h' !! 0%nat = Some (regularized self test_u test_f).1
  ∧ h' !! 1%nat = Some (regularized self test_u test_f).2
  ∧ (∀ a, a ≠ 0%nat → a ≠ 1%nat → h' !! a = test_heap !! a)
  ∧ (regularize self 0%nat 1%nat true test_heap).1
    = Ok (column_stack
            (take (rows_kept true (regularized self test_u test_f).2) test_r)
            (take (rows_kept true (regularized self test_u test_f).2)
               (regularized self test_u test_f).1)
            (take (rows_kept true (regularized self test_u test_f).2)
               (regularized self test_u test_f).2)).
Proof.
  intros self h' u' f'.
  assert (regularized self test_u test_f = (u', f')) as Hreg by by_compute.
  split; [exact Hreg|].
  destruct (regularize self 0%nat 1%nat true test_heap) as [[table|e] h1] eqn:Hrun.
  - destruct (regularize_mutates_in_place self 0%nat 1%nat true test_heap
                test_u test_f table h1) as (H0 & H1 & Hrest & Htable).
    + discriminate.
    + reflexivity.
    + reflexivity.
    + exact Hrun.
    + subst h'. simpl. rewrite Htable. auto.
  - exfalso.
    assert ((regularize self 0%nat 1%nat true test_heap).1 ≠ Raise e) as Hok
      by (intros Hbad; vm_compute in Hbad; discriminate Hbad).
    apply Hok. by rewrite Hrun.
Defined.


(** *** The length checks, and calls without limits *)

(** X1.  [regularize] checks the lengths before it touches anything: an
    energy array whose length differs from the grid's is refused with
    [IndexError], and so is a force array of another length when the
    energies fit.  No array is modified, and the two names may denote one
    and the same array. *)
Theorem regularize_refuses_wrong_length self u f trim (h : heap) :
  (length (h !!! u) ≠ length (r self) →
   regularize self u f trim h
   = (Raise (IndexError "Potential must have the same length as r."), h))
  ∧ (length (h !!! u) = length (r self) →
     length (h !!! f) ≠ length (r self) →
     regularize self u f trim h
     = (Raise (IndexError "Force must have the same length as r."), h)).
Proof.
  split.
  - intros Hu. unfold regularize.
    rewrite (bind_Ok _ _ _ _ _ (read_eq u h)).
    by rewrite bool_decide_eq_true_2 by done.
  - intros Hu Hf. unfold regularize.
    rewrite (bind_Ok _ _ _ _ _ (read_eq u h)).
    rewrite bool_decide_eq_false_2 by (by intros ?). cbn iota.
    rewrite (bind_Ok _ _ _ _ _ (ret_eq tt h)).
    rewrite (bind_Ok _ _ _ _ _ (read_eq f h)).
    by rewrite bool_decide_eq_true_2 by done.
Qed.

(** The table of [test_regularize] against a grid of two points, and
    against its own grid with the grid passed for the forces cut short. *)
Lemma regularize_refuses_wrong_length_witness :
  let short := {| r := [fq 1 1; fq 2 1]; fmax := None; fcut := None |} in
  let self := {| r := test_r; fmax := Some (fq 13 1); fcut := None |} in
  let h : heap := {[ 0%nat := test_u; 1%nat := [fq 15 1] ]} in
  regularize short 0%nat 1%nat true test_heap
  = (Raise (IndexError "Potential must have the same length as r."), test_heap)
  ∧ regularize self 0%nat 1%nat true h
    = (Raise (IndexError "Force must have the same length as r."), h).
Proof.
  intros short self h. split.
  - apply (proj1 (regularize_refuses_wrong_length short 0%nat 1%nat true test_heap)).
    by_compute.
  - apply (proj2 (regularize_refuses_wrong_length self 0%nat 1%nat true h)).
    + reflexivity.
    + by_compute.
Defined.

(** X2.  Without [fmax] and [fcut], [regularize] only reads: it returns
    the grid stacked with the arrays as they are, cut to the rows the trim
    keeps, and leaves every array unchanged.  This holds also when both
    names denote the same array.  (With [trim] on, the grid must not be
    empty.) *)
Theorem regularize_without_limits self u f trim (h : heap) :
  fmax self = None → fcut self = None →
  length (h !!! u) = length (r self) → length (h !!! f) = length (r self) →
  (trim = true → r self ≠ []) →
  let n := rows_kept trim (h !!! f) in
  regularize self u f trim h
  = (Ok (column_stack (take n (r self)) (take n (h !!! u)) (take n (h !!! f))), h).
Proof.
  intros Hfmax Hfcut Hlu Hlf Htrim n. unfold regularize.
  rewrite (bind_Ok _ _ _ _ _ (read_eq u h)).
  rewrite bool_decide_eq_false_2 by (by intros ?). cbn iota.
  rewrite (bind_Ok _ _ _ _ _ (ret_eq tt h)).
  rewrite (bind_Ok _ _ _ _ _ (read_eq f h)).
  rewrite bool_decide_eq_false_2 by (by intros ?). cbn iota.
  rewrite (bind_Ok _ _ _ _ _ (ret_eq tt h)).
  rewrite Hfmax, Hfcut.
  rewrite !(bind_Ok _ _ _ _ _ (ret_eq tt h)).
  assert (trim_rows self u f trim h
          = (Ok (take n (r self), take n (h !!! u), take n (h !!! f)), h)) as Hrows;
    [|by rewrite (bind_Ok _ _ _ _ _ Hrows)].
  subst n. unfold trim_rows, rows_kept. destruct trim.
  - rewrite (bind_Ok _ _ _ _ _ (read_eq f h)).
    rewrite argmax_nonempty.
    2:{ intros Hnil. apply fmap_nil_inv in Hnil.
        apply (f_equal length) in Hnil. rewrite length_reverse, Hlf in Hnil.
        destruct (r self); [by apply Htrim|done]. }
    unfold lift at 1. unfold mbind at 1, M_bind at 1.
    case_bool_decide;
      rewrite (bind_Ok _ _ _ _ _ (read_eq u h)),
              (bind_Ok _ _ _ _ _ (read_eq f h)); [done|].
    by rewrite !take_ge by lia.
  - rewrite (bind_Ok _ _ _ _ _ (read_eq u h)).
    rewrite (bind_Ok _ _ _ _ _ (read_eq f h)).
    by rewrite !take_ge by lia.
Qed.

(** The table of [test_regularize] with no limit set: the table returned
    is the input table, whole, since the last force is not zero. *)
Lemma regularize_without_limits_witness :
  let self := {| r := test_r; fmax := None; fcut := None |} in
  rows_kept true test_f = 5%nat
  ∧ regularize self 0%nat 1%nat true test_heap
    = (Ok (column_stack (take (rows_kept true test_f) test_r)
             (take (rows_kept true test_f) test_u)
             (take (rows_kept true test_f) test_f)), test_heap).
Proof.
  intros self. split; [by_compute|].
  apply (regularize_without_limits self 0%nat 1%nat true test_heap).
  - reflexivity.
  - reflexivity.
  - reflexivity.
  - reflexivity.
  - intros _. discriminate.
Defined.

(** X3.  On an empty grid every option of [regularize] fails: the three
    blocks all start with [np.argmax] over the forces, which rejects an
    empty array with [ValueError].  Whichever of [fmax], [fcut] and [trim]
    is on, empty arrays of energies and forces are refused, unmodified. *)
Theorem regularize_empty_grid_raises self u f trim (h : heap) :
  r self = [] → h !! u = Some [] → h !! f = Some [] →
  is_Some (fmax self) ∨ is_Some (fcut self) ∨ trim = true →
  regularize self u f trim h = (Raise empty_argmax, h).
Proof.
  intros Hr Hu Hf Hopt. unfold regularize.
  rewrite (bind_Ok _ _ _ _ _ (read_eq u h)).
  rewrite (lookup_total_correct _ _ _ Hu), Hr.
  rewrite bool_decide_eq_false_2 by (by intros ?). cbn iota.
  rewrite (bind_Ok _ _ _ _ _ (ret_eq tt h)).
  rewrite (bind_Ok _ _ _ _ _ (read_eq f h)).
  rewrite (lookup_total_correct _ _ _ Hf).
  rewrite bool_decide_eq_false_2 by (by intros ?). cbn iota.
  rewrite (bind_Ok _ _ _ _ _ (ret_eq tt h)).
  destruct (fmax self) as [m|].
  { by rewrite (bind_Raise _ _ _ _ _ (cap_forces_empty self u f m h Hf)). }
  rewrite (bind_Ok _ _ _ _ _ (ret_eq tt h)).
  destruct (fcut self) as [c|].
  { by rewrite (bind_Raise _ _ _ _ _ (cut_tail_empty u f c h Hf)). }
  rewrite (bind_Ok _ _ _ _ _ (ret_eq tt h)).
  destruct Hopt as [[? [=]]|[[? [=]]| ->]].
  by rewrite (bind_Raise _ _ _ _ _ (trim_rows_empty self u f h Hf)).
Qed.

(** An empty grid with only the trim on. *)
Lemma regularize_empty_grid_raises_witness :
  let self := {| r := []; fmax := None; fcut := None |} in
  let h : heap := {[ 0%nat := []; 1%nat := [] ]} in
  regularize self 0%nat 1%nat true h = (Raise empty_argmax, h).
Proof.
  intros self h.
  apply (regularize_empty_grid_raises self 0%nat 1%nat true h).
  - reflexivity.
  - reflexivity.
  - reflexivity.
  - right. right. reflexivity.
Defined.


(** *** A force cap that caps nothing *)

Lemma capped_noop self m ua fa :
  default 0%nat (first_true ((λ x, fle (fabs x) m) <$> fa)) = 0%nat →
  capped self m ua fa = (ua, fa).
Proof. unfold capped. intros ->. by rewrite bool_decide_eq_false_2 by lia. Qed.

(** X4.  The [fmax] block has no effect when no force is within [fmax]
    at all ([np.argmax] of an all-[False] array is 0, the same as for a
    first force within the cap): the forces above the cap are kept as they
    are.  With no [fcut] block the call returns the input rows and leaves
    the arrays unchanged. *)
Theorem regularize_fmax_without_effect self u f trim (h : heap) ua fa m :
  u ≠ f → h !! u = Some ua → h !! f = Some fa →
  length ua = length (r self) → length fa = length (r self) →
  r self ≠ [] →
  fmax self = Some m → fcut self = None →
  (∀ x, x ∈ fa → fle (fabs x) m = false)
  ∨ (∃ x, fa !! 0%nat = Some x ∧ fle (fabs x) m = true) →
  let n := rows_kept trim fa in
  regularize self u f trim h
  = (Ok (column_stack (take n (r self)) (take n ua) (take n fa)), h).
Proof.
  intros Hne Hu Hf Hlu Hlf Hr Hfmax Hfcut Hcase n.
  rewrite (regularize_distinct self u f Hne trim h ua fa) by done.
  assert (regularized self ua fa = (ua, fa)) as ->.
  { unfold regularized. rewrite Hfmax, Hfcut.
    rewrite capped_noop; [done|].
    destruct Hcase as [Hall|(x & Hx & Hle)].
    - rewrite first_true_all_false; [done|].
      intros b Hb. apply list_elem_of_fmap in Hb as (x & -> & Hx). by apply Hall.
    - destruct fa as [|x' fa']; [done|]. injection Hx as ->.
      simpl. by rewrite Hle. }
  simpl. by rewrite two_arrays_id.
Qed.

(** The table of [test_regularize] with [fmax = 1], below every force. *)
Lemma regularize_fmax_without_effect_witness :
  let self := {| r := test_r; fmax := Some (fq 1 1); fcut := None |} in
  regularize self 0%nat 1%nat false test_heap
  = (Ok (column_stack (take (rows_kept false test_f) test_r)
           (take (rows_kept false test_f) test_u)
           (take (rows_kept false test_f) test_f)), test_heap).
Proof.
  intros self.
  apply (regularize_fmax_without_effect self 0%nat 1%nat false test_heap
           test_u test_f (fq 1 1)).
  - discriminate.
  - reflexivity.
  - reflexivity.
  - reflexivity.
  - reflexivity.
  - discriminate.
  - reflexivity.
  - reflexivity.
  - left. intros x Hx. unfold test_f in Hx.
    repeat (apply elem_of_cons in Hx as [->|Hx]; [by_compute|]).
    by apply elem_of_nil in Hx.
Defined.

(** *** The tail cutoff at the last sufficient force *)

Lemma first_true_intro flags k :
  flags !! k = Some true → (∀ i, (i < k)%nat → flags !! i = Some false) →
  first_true flags = Some k.
Proof.
  revert k. induction flags as [|b flags IH]; intros k Hk Hlt; [done|].
  destruct k as [|k]; simpl in *.
  - by injection Hk as ->.
  - specialize (Hlt 0%nat ltac:(lia)) as H0. injection H0 as ->.
    rewrite (IH k); [done..|].
    intros i Hi. apply (Hlt (S i)). lia.
Qed.

Lemma last_reaching_first_true c (fa : list float) cut x :
  fa !! cut = Some x → fge (fabs x) c = true →
  (∀ i y, (cut < i)%nat → fa !! i = Some y → fge (fabs y) c = false) →
  first_true ((λ y, fge (fabs y) c) <$> reverse fa)
  = Some (length fa - 1 - cut)%nat.
Proof.
  intros Hx Hge Hlast.
  pose proof (lookup_lt_Some _ _ _ Hx) as Hcut.
  apply first_true_intro.
  - rewrite list_lookup_fmap, reverse_lookup by lia.
    replace (length fa - S (length fa - 1 - cut))%nat with cut by lia.
    by rewrite Hx; simpl; rewrite Hge.
  - intros i Hi. rewrite list_lookup_fmap, reverse_lookup by lia.
    destruct (lookup_lt_is_Some_2 fa (length fa - S i)%nat) as [y Hy]; [lia|].
    rewrite Hy. simpl. f_equal.
    apply (Hlast (length fa - S i)%nat y); [lia|done].
Qed.

(** X5.  Let [cut] be the last index whose force reaches [fcut].  The
    [fcut] block lowers the energies up to [cut] by the energy at [cut],
    leaves the forces up to [cut] as they are, and sets energy and force to
    zero at every index after [cut].  It writes the caller's two arrays
    and no other. *)
Theorem cut_tail_zeroes_after_last_force u f c (h : heap) ua fa cut x :
  u ≠ f → h !! u = Some ua → h !! f = Some fa → length ua = length fa →
  fa !! cut = Some x → fge (fabs x) c = true →
  (∀ i y, (cut < i)%nat → fa !! i = Some y → fge (fabs y) c = false) →
  ∃ h1 u1 f1,
    cut_tail u f c h = (Ok tt, h1)
    ∧ h1 !! u = Some u1 ∧ h1 !! f = Some f1
    ∧ (∀ a, a ≠ u → a ≠ f → h1 !! a = h !! a)
    ∧ (∀ i, (i <= cut)%nat →
         u1 !! i = (λ y, fsub y (ua !!! cut)) <$> ua !! i ∧ f1 !! i = fa !! i)
    ∧ (∀ i, (cut < i < length fa)%nat →
         u1 !! i = Some fzero ∧ f1 !! i = Some fzero).
Proof.
  intros Hne Hu Hf Hlen Hx Hge Hlast.
  pose proof (lookup_lt_Some _ _ _ Hx) as Hcut.
  assert (fa ≠ []) as Hfa by (destruct fa; simpl in *; [lia|done]).
  eexists _, _, _. split_and!.
  - by apply (cut_tail_distinct u f Hne c h ua fa).
  - by apply two_arrays_lookup.
  - by apply two_arrays_lookup.
  - intros a Hau Haf. by rewrite !lookup_insert_ne.
  - assert (first_true ((λ y, fge (fabs y) c) <$> reverse fa)
            = Some (length fa - 1 - cut)%nat) as Hk.
    { by eapply last_reaching_first_true. }
    intros i Hi. unfold tail_cut. rewrite Hk. simpl.
    replace (length fa - 1 - (length fa - 1 - cut))%nat with cut by lia.
    case_bool_decide; simpl; [|by rewrite list_lookup_fmap].
    unfold fill_suffix.
    rewrite !lookup_app_l by (rewrite length_take, ?length_fmap; lia).
    rewrite !lookup_take_lt by lia. by rewrite list_lookup_fmap.
  - assert (first_true ((λ y, fge (fabs y) c) <$> reverse fa)
            = Some (length fa - 1 - cut)%nat) as Hk.
    { by eapply last_reaching_first_true. }
    intros i Hi. unfold tail_cut. rewrite Hk. simpl.
    replace (length fa - 1 - (length fa - 1 - cut))%nat with cut by lia.
    rewrite bool_decide_eq_true_2 by lia. simpl.
    unfold fill_suffix.
    rewrite !lookup_app_r by (rewrite length_take, ?length_fmap; lia).
    rewrite !length_take, !length_fmap.
    split; apply lookup_replicate; (split; [done|lia]).
Qed.

(** The table of [test_regularize] with [fcut = 7]: the last force that
    reaches 7 is the third one, 9. *)
Lemma cut_tail_zeroes_after_last_force_witness :
  ∃ h1 u1 f1,
    cut_tail 0%nat 1%nat (fq 7 1) test_heap = (Ok tt, h1)
    ∧ h1 !! 0%nat = Some u1 ∧ h1 !! 1%nat = Some f1
    ∧ (∀ a, a ≠ 0%nat → a ≠ 1%nat → h1 !! a = test_heap !! a)
    ∧ (∀ i, (i <= 2)%nat →
         u1 !! i = (λ y, fsub y (test_u !!! 2%nat)) <$> test_u !! i
         ∧ f1 !! i = test_f !! i)
    ∧ (∀ i, (2 < i < length test_f)%nat →
         u1 !! i = Some fzero ∧ f1 !! i = Some fzero).
Proof.
  apply (cut_tail_zeroes_after_last_force 0%nat 1%nat (fq 7 1) test_heap
           test_u test_f 2%nat (fq 9 1)).
  - discriminate.
  - reflexivity.
  - reflexivity.
  - reflexivity.
  - reflexivity.
  - by_compute.
  - intros i y Hi Hy.
    destruct i as [|[|[|[|[|i]]]]]; try lia; simpl in Hy.
    + injection Hy as <-. by_compute.
    + injection Hy as <-. by_compute.
    + discriminate Hy.
Defined.

(** *** The trim *)

Lemma column_stack_length (ra ua fa : list float) :
  length (column_stack ra ua fa)
  = (length ra `min` (length ua `min` length fa))%nat.
Proof.
  revert ua fa. induction ra as [|r0 ra IH]; intros [|u0 ua] [|f0 fa];
    simpl; try done; try lia.
  rewrite IH. lia.
Qed.

Lemma rows_kept_le trim fa : (rows_kept trim fa <= length fa)%nat.
Proof. unfold rows_kept. destruct trim; [case_bool_decide|]; lia. Qed.

(** X6.  The rows of the table [regularize] returns are rows of the
    caller's arrays as the call leaves them.  The trim never removes a row
    whose force is not zero; a table shorter than the grid ends with
    exactly one row of zero force, right after the last row of non-zero
    force.  With [trim] off the table has a row per grid point. *)
Theorem regularize_trim_keeps_forces self u f trim (h : heap) ua fa table h' :
  u ≠ f → h !! u = Some ua → h !! f = Some fa →
  regularize self u f trim h = (Ok table, h') →
  ∃ u' f',
    h' !! u = Some u' ∧ h' !! f = Some f'
    ∧ (length table <= length (r self))%nat
    ∧ (trim = false → length table = length (r self))
    ∧ (∀ i row, table !! i = Some row →
         ∃ ri ui fi, r self !! i = Some ri ∧ u' !! i = Some ui
                     ∧ f' !! i = Some fi ∧ row = (ri, ui, fi))
    ∧ (∀ i x, f' !! i = Some x → fgt (fabs x) fzero = true →
         (i < length table)%nat)
    ∧ ((length table < length (r self))%nat →
       ∃ j x y, length table = (j + 2)%nat
                ∧ f' !! j = Some x ∧ fgt (fabs x) fzero = true
                ∧ f' !! (j + 1)%nat = Some y ∧ fgt (fabs y) fzero = false).
Proof.
  intros Hne Hu Hf H.
  destruct (regularize_Ok_lengths _ _ _ _ _ _ _ H) as [Hlu Hlf].
  rewrite (lookup_total_correct _ _ _ Hu) in Hlu.
  rewrite (lookup_total_correct _ _ _ Hf) in Hlf.
  destruct (decide (r self = [])) as [Hr|Hr].
  - rewrite Hr in Hlu, Hlf.
    apply nil_length_inv in Hlu as ->. apply nil_length_inv in Hlf as ->.
    destruct (regularize_empty_grid _ _ _ _ _ _ _ Hr Hu Hf H)
      as (_ & _ & _ & -> & ->).
    exists [], []. rewrite Hr. simpl. split_and!; try done; lia.
  - rewrite (regularize_distinct self u f Hne trim h ua fa) in H by done.
    injection H as <- <-.
    assert (fa ≠ []) as Hfa by (destruct fa, (r self); done).
    destruct (regularized_length self ua fa Hlu Hlf Hfa) as [Hlu' Hlf'].
    set (u' := (regularized self ua fa).1) in *.
    set (f' := (regularized self ua fa).2) in *.
    pose proof (rows_kept_le trim f') as Hle.
    assert (length (column_stack (take (rows_kept trim f') (r self))
                      (take (rows_kept trim f') u') (take (rows_kept trim f') f'))
            = rows_kept trim f') as Hlen.
    { rewrite column_stack_length, !length_take. lia. }
    exists u', f'. rewrite Hlen.
    split_and!; [by apply two_arrays_lookup..|lia|by intros ->; simpl; lia| | |].
    + intros i row Hrow.
      apply column_stack_lookup in Hrow as (ri & ui & fi & Hri & Hui & Hfi & ->).
      apply lookup_take_Some in Hri as [Hri _].
      apply lookup_take_Some in Hui as [Hui _].
      apply lookup_take_Some in Hfi as [Hfi _].
      eauto 10.
    + intros i x Hx Hnz. pose proof (lookup_lt_Some _ _ _ Hx) as Hi.
      destruct (rows_kept_spec trim f')
        as [->|(j & y & Hj & Hy & Hafter & ->)]; [done|].
      destruct (decide (i <= j)%nat); [lia|].
      rewrite (Hafter i x) in Hnz; [done|lia|done].
    + intros Hshort.
      destruct (rows_kept_spec trim f')
        as [Heq|(j & x & Hj & Hx & Hafter & Heq)]; [lia|].
      destruct (lookup_lt_is_Some_2 f' (j + 1)%nat) as [y Hy]; [lia|].
      exists j, x, y. split_and!; [done..|].
      apply (Hafter (j + 1)%nat y); [lia|done].
Qed.

(** The case "fmax and fcut" of [test_regularize]: the forces end up as
    [12, 12, 9, 0, 0], and the table keeps four of the five rows. *)
Lemma regularize_trim_keeps_forces_witness :
  let self := {| r := test_r; fmax := Some (fq 13 1); fcut := Some (fq 7 1) |} in
  ∃ table h' u' f',
    regularize self 0%nat 1%nat true test_heap = (Ok table, h')
    ∧ length table = 4%nat
    ∧ h' !! 0%nat = Some u' ∧ h' !! 1%nat = Some f'
    ∧ (length table <= length test_r)%nat
    ∧ (∀ i row, table !! i = Some row →
         ∃ ri ui fi, test_r !! i = Some ri ∧ u' !! i = Some ui
                     ∧ f' !! i = Some fi ∧ row = (ri, ui, fi))
    ∧ (∀ i x, f' !! i = Some x → fgt (fabs x) fzero = true →
         (i < length table)%nat)
    ∧ ((length table < length test_r)%nat →
       ∃ j x y, length table = (j + 2)%nat
                ∧ f' !! j = Some x ∧ fgt (fabs x) fzero = true
                ∧ f' !! (j + 1)%nat = Some y ∧ fgt (fabs y) fzero = false).
Proof.
  intros self.
  destruct (regularize self 0%nat 1%nat true test_heap) as [[table|e] h1] eqn:Hrun.
  - assert (length table = 4%nat) as Hlen.
    { assert ((regularize self 0%nat 1%nat true test_heap).1
              ≫= (λ t, Ok (length t)) = Ok 4%nat) as Hl by by_compute.
      rewrite Hrun in Hl. simpl in Hl. by injection Hl. }
    destruct (regularize_trim_keeps_forces self 0%nat 1%nat true test_heap
                test_u test_f table h1)
      as (u' & f' & H0 & H1 & Hle & _ & Hrows & Hkeep & Hlast).
    + discriminate.
    + reflexivity.
    + reflexivity.
    + exact Hrun.
    + exists table, h1, u', f'. split_and!; done.
  - exfalso.
    assert ((regularize self 0%nat 1%nat true test_heap).1 ≠ Raise e) as Hok
      by (intros Hbad; vm_compute in Hbad; discriminate Hbad).
    apply Hok. by rewrite Hrun.
Defined.


(** *** The grid *)

Lemma qc_int_eq_0 z : qc z 1 = 0%Qc → z = 0%Z.
Proof.
  unfold qc. intros H. apply Q2Qc_eq_iff in H.
  unfold Qeq in H. simpl in H. lia.
Qed.

Lemma arange_length n : length (arange n) = Z.to_nat n.
Proof. unfold arange. by rewrite length_fmap, length_seq. Qed.

Lemma arange_lookup n i :
  (i < Z.to_nat n)%nat → arange n !! i = Some (qc (Z.of_nat i) 1).
Proof.
  intros Hi. unfold arange.
  by rewrite list_lookup_fmap, lookup_seq_lt.
Qed.

(** [np.linspace] with at least two samples: sample [i] is
    [start + i * (stop - start) / (num - 1)], and the last one is [stop]. *)
Lemma linspace_lookup start stop num :
  (1 < num)%Z →
  ∃ l, linspace start stop num = Ok l
       ∧ length l = Z.to_nat num
       ∧ ∀ i, (i < Z.to_nat num)%nat →
           l !! i = Some (start + qc (Z.of_nat i) 1
                                  * ((stop - start) / qc (num - 1) 1))%Qc.
Proof.
  intros Hnum. unfold linspace.
  rewrite decide_False, decide_True by lia.
  eexists. split; [done|]. split.
  - rewrite length_app, length_take, length_fmap, arange_length. simpl. lia.
  - intros i Hi.
    destruct (decide (i < Z.to_nat num - 1)%nat) as [Hlt|Hlast].
    + rewrite lookup_app_l
        by (rewrite length_take, length_fmap, arange_length; lia).
      rewrite lookup_take_lt, list_lookup_fmap, arange_lookup by lia.
      simpl. f_equal. apply Qcplus_comm.
    + rewrite lookup_app_r
        by (rewrite length_take, length_fmap, arange_length; lia).
      rewrite length_take, length_fmap, arange_length.
      replace (i - (Z.to_nat num - 1) `min` Z.to_nat num)%nat with 0%nat by lia.
      simpl. f_equal.
      replace (Z.of_nat i) with (num - 1)%Z by lia.
      field. intros H0. apply qc_int_eq_0 in H0. lia.
Qed.

(** X7.  [Tabulator(nbins, rmin, rmax)] with a positive number of bins
    and [edges] on has the [nbins + 1] grid points [rmin + i * dr] with
    [dr = (rmax - rmin) / nbins]; the first one is [rmin] and the last one
    is [rmax].  The limits [fmax] and [fcut] are stored as given. *)
Theorem init_edges nbins rmin rmax m c :
  (0 < nbins)%Z →
  let dr := ((rmax - rmin) / qc nbins 1)%Qc in
  ∃ t, init nbins rmin rmax m c true = Ok (t, dr)
       ∧ fmax t = m ∧ fcut t = c
       ∧ length (r t) = S (Z.to_nat nbins)
       ∧ (∀ i, (i <= Z.to_nat nbins)%nat →
            r t !! i = Some (Fin (rmin + qc (Z.of_nat i) 1 * dr)%Qc))
       ∧ r t !! 0%nat = Some (Fin rmin)
       ∧ r t !! Z.to_nat nbins = Some (Fin rmax).
Proof.
  intros Hn dr. unfold init. rewrite decide_False by lia.
  destruct (linspace_lookup rmin rmax (nbins + 1) ltac:(lia))
    as (l & -> & Hlen & Hl).
  rewrite Z.add_simpl_r in Hl. fold dr in Hl. simpl.
  eexists. split; [done|]. simpl.
  assert (∀ i, (i <= Z.to_nat nbins)%nat →
            (Fin <$> l) !! i = Some (Fin (rmin + qc (Z.of_nat i) 1 * dr)%Qc))
    as Hpoints.
  { intros i Hi. by rewrite list_lookup_fmap, Hl by lia. }
  split_and!; [done..|rewrite length_fmap; lia|done| |].
  - rewrite Hpoints by lia. do 2 f_equal. simpl.
    change (qc (Z.of_nat 0) 1) with 0%Qc.
    by rewrite Qcmult_0_l, Qcplus_0_r.
  - rewrite Hpoints by lia. do 2 f_equal.
    rewrite Z2Nat.id by lia. subst dr. field.
    intros H0. apply qc_int_eq_0 in H0. lia.
Qed.

(** Four bins from 1/2 to 5/2: the grid of [test_regularize]. *)
Lemma init_edges_witness :
  ∃ t, init 4 (qc 1 2) (qc 5 2) None None true
       = Ok (t, ((qc 5 2 - qc 1 2) / qc 4 1)%Qc)
       ∧ fmax t = None ∧ fcut t = None
       ∧ length (r t) = S (Z.to_nat 4)
       ∧ (∀ i, (i <= Z.to_nat 4)%nat →
            r t !! i = Some (Fin (qc 1 2 + qc (Z.of_nat i) 1
                                           * ((qc 5 2 - qc 1 2) / qc 4 1))%Qc))
       ∧ r t !! 0%nat = Some (Fin (qc 1 2))
       ∧ r t !! Z.to_nat 4 = Some (Fin (qc 5 2)).
Proof. apply (init_edges 4 (qc 1 2) (qc 5 2) None None). lia. Defined.

(** X8.  With [edges] off the grid has [nbins] points, and each of them
    is the midpoint of two neighbouring points of the grid that the same
    arguments give with [edges] on; both grids have the same [dr]. *)
Theorem init_midpoints nbins rmin rmax m c :
  (0 < nbins)%Z →
  ∃ t e dr,
    init nbins rmin rmax m c false = Ok (t, dr)
    ∧ init nbins rmin rmax m c true = Ok (e, dr)
    ∧ length (r t) = Z.to_nat nbins
    ∧ ∀ i, (i < Z.to_nat nbins)%nat →
        ∃ a b, r e !! i = Some (Fin a) ∧ r e !! S i = Some (Fin b)
               ∧ r t !! i = Some (Fin ((a + b) / qc 2 1)%Qc).
Proof.
  intros Hn. unfold init. rewrite !decide_False by lia.
  destruct (linspace_lookup rmin rmax (nbins + 1) ltac:(lia))
    as (l & -> & Hlen & Hl).
  rewrite Z.add_simpl_r in Hl. simpl.
  eexists _, _, _. split_and!; [done..| |]; simpl.
  - by rewrite !length_fmap, arange_length.
  - intros i Hi. eexists _, _.
    rewrite !list_lookup_fmap, !Hl, arange_lookup by lia. simpl.
    split_and!; [done..|]. do 2 f_equal.
    replace (qc (Z.of_nat (S i)) 1) with (qc (Z.of_nat i) 1 + 1)%Qc.
    + replace (qc 1 2) with (1 / (1 + 1))%Qc by by_compute.
      replace (qc 2 1) with (1 + 1)%Qc by by_compute.
      field. split.
      * intros H0. apply qc_int_eq_0 in H0. lia.
      * by_compute.
    + unfold qc. apply Q2Qc_eq_iff. rewrite Nat2Z.inj_succ.
      simpl. rewrite !Qred_correct. unfold Qeq. simpl. lia.
Qed.

(** Four bins from 1/2 to 5/2. *)
Lemma init_midpoints_witness :
  ∃ t e dr,
    init 4 (qc 1 2) (qc 5 2) None None false = Ok (t, dr)
    ∧ init 4 (qc 1 2) (qc 5 2) None None true = Ok (e, dr)
    ∧ length (r t) = Z.to_nat 4
    ∧ ∀ i, (i < Z.to_nat 4)%nat →
        ∃ a b, r e !! i = Some (Fin a) ∧ r e !! S i = Some (Fin b)
               ∧ r t !! i = Some (Fin ((a + b) / qc 2 1)%Qc).
Proof. apply (init_midpoints 4 (qc 1 2) (qc 5 2) None None). lia. Defined.

(** X9.  The degenerate bin counts.  [nbins = 0] fails in the division
    that computes [dr], whatever [edges] is.  A negative [nbins] is not
    refused with [edges] off, nor for [nbins = -1] with [edges] on: the
    grid is then empty.  With [edges] on, [nbins < -1] is refused by
    [np.linspace]. *)
Theorem init_degenerate nbins rmin rmax m c :
  (nbins = 0%Z →
   ∀ edges, ∃ msg, init nbins rmin rmax m c edges
                   = Raise (ZeroDivisionError msg))
  ∧ ((nbins < 0)%Z →
     ∃ t dr, init nbins rmin rmax m c false = Ok (t, dr) ∧ r t = [])
  ∧ (nbins = (-1)%Z →
     ∃ t dr, init nbins rmin rmax m c true = Ok (t, dr) ∧ r t = [])
  ∧ ((nbins < -1)%Z →
     ∃ msg, init nbins rmin rmax m c true = Raise (ValueError msg)).
Proof.
  split_and!.
  - intros -> edges. by eexists.
  - intros Hn. unfold init. rewrite decide_False by lia. simpl.
    eexists _, _. split; [done|]. simpl. unfold arange.
    by replace (Z.to_nat nbins) with 0%nat by lia.
  - intros ->. by eexists _, _.
  - intros Hn. unfold init, linspace.
    rewrite decide_False by lia. rewrite decide_True by lia.
    by eexists.
Qed.

(** No bins, and minus three bins. *)
Lemma init_degenerate_witness :
  (∃ msg, init 0 (qc 0 1) (qc 3 1) None None true
          = Raise (ZeroDivisionError msg))
  ∧ (∃ t dr, init (-3) (qc 0 1) (qc 3 1) None None false = Ok (t, dr)
             ∧ r t = [])
  ∧ (∃ t dr, init (-1) (qc 0 1) (qc 3 1) None None true = Ok (t, dr)
             ∧ r t = [])
  ∧ (∃ msg, init (-3) (qc 0 1) (qc 3 1) None None true
            = Raise (ValueError msg)).
Proof.
  split_and!.
  - by apply (proj1 (init_degenerate 0 (qc 0 1) (qc 3 1) None None)).
  - apply (proj1 (proj2 (init_degenerate (-3) (qc 0 1) (qc 3 1) None None))).
    lia.
  - by apply (proj1 (proj2 (proj2
                (init_degenerate (-1) (qc 0 1) (qc 3 1) None None)))).
  - apply (proj2 (proj2 (proj2
             (init_degenerate (-3) (qc 0 1) (qc 3 1) None None)))).
    lia.
Defined.

End TabulatorFacts.

(** ** Coefficient matrices and pair potentials *)

Module PotentialFacts.
Import Potential.

(** *** perturb *)

(** C9, at the failing input.  In [chained_matrix] the parameter [a] is 1
    and [b] is chained to it.  [perturb] with the value 0 for [a] evaluates
    the old parameters, swaps 0 in, and the second [evaluate] raises
    [ZeroDivisionError] in the callable of [b]: the statement that restores
    the old value is never reached, and the matrix keeps [a = 0].  The
    same happens when the value swapped in is [None]. *)
Theorem perturb_raising_keeps_swapped_value :
  let key : pair := ("A", "A") in
  let after (value : entry) :=
    perturb reciprocal_of_a key key "a" value chained_matrix in
  getparam chained_matrix key "a" = Ok (Scalar (fq 1 1))
  ∧ (after (Scalar (fq 0 1))).1 = Raise (ZeroDivisionError "float division by zero")
  ∧ getparam (after (Scalar (fq 0 1))).2 key "a" = Ok (Scalar (fq 0 1))
  ∧ (after Unset).1 = Raise (ValueError "Parameter a is not set for (A,A).")
  ∧ getparam (after Unset).2 key "a" = Ok Unset.
Proof. split_and!; by_compute. Qed.

Lemma setparam_Ok_inv key p v c c' :
  setparam key p v c = (Ok tt, c') →
  ∃ k d, check_key c key = Ok k ∧ data c !! k = Some d
         ∧ c' = {| types := types c; params := params c;
                   data := <[k := <[p := v]> d]> (data c) |}.
Proof.
  unfold setparam. intros H.
  apply bind_Ok_inv in H as (c0 & ? & [= <- <-] & H).
  apply bind_Ok_inv in H as (k & ? & Hk & H).
  apply lift_Ok_inv in Hk as [Hk ->].
  destruct (data c !! k) as [d|] eqn:Hd; [|discriminate].
  injection H as <-. eauto.
Qed.

Lemma getparam_Ok_inv c key p v :
  getparam c key p = Ok v →
  ∃ k d, check_key c key = Ok k ∧ data c !! k = Some d ∧ d !! p = Some v.
Proof.
  unfold getparam, getitem. intros H.
  apply rbind_Ok_inv in H as (d & H & Hv).
  apply rbind_Ok_inv in H as (k & Hk & Hd).
  destruct (data c !! k) as [d'|] eqn:Hd'; [|discriminate].
  injection Hd as ->.
  destruct (d !! p) as [v'|] eqn:Hp; [|discriminate].
  injection Hv as ->. eauto.
Qed.

(** X20.  A call of [perturb] that returns leaves the whole matrix as it
    was, and returns the parameters evaluated with the value swapped in
    and the parameters evaluated before the swap. *)
Lemma perturb_returns run_callable pair key param value c new_params old_params c' :
  perturb run_callable pair key param value c = (Ok (new_params, old_params), c') →
  c' = c
  ∧ evaluate run_callable c pair = Ok old_params
  ∧ ∃ swapped, setparam key param value c = (Ok tt, swapped)
               ∧ evaluate run_callable swapped pair = Ok new_params.
Proof.
  unfold perturb. intros H.
  apply bind_Ok_inv in H as (c0 & ? & [= <- <-] & H).
  case_bool_decide; [discriminate|].
  apply bind_Ok_inv in H as (old_value & ? & Hold & H).
  apply lift_Ok_inv in Hold as [Hold ->].
  destruct old_value as [|old|]; [discriminate| |discriminate].
  apply bind_Ok_inv in H as (old' & ? & Hev & H).
  apply lift_Ok_inv in Hev as [Hev ->].
  apply bind_Ok_inv in H as ([] & c1 & Hswap & H).
  apply bind_Ok_inv in H as (c1' & ? & [= <- <-] & H).
  apply bind_Ok_inv in H as (new' & ? & Hev' & H).
  apply lift_Ok_inv in Hev' as [Hev' ->].
  apply bind_Ok_inv in H as ([] & c2 & Hrestore & H).
  apply ret_Ok_inv in H as [[= -> ->] ->].
  split_and!; [|done|by eauto].
  apply getparam_Ok_inv in Hold as (k & d & Hk & Hd & Hp).
  apply setparam_Ok_inv in Hswap as (k1 & d1 & Hk1 & Hd1 & ->).
  apply setparam_Ok_inv in Hrestore as (k2 & d2 & Hk2 & Hd2 & ->).
  assert (k2 = k ∧ k1 = k) as [-> ->].
  { unfold check_key in *. simpl in *. split; congruence. }
  simpl in *. rewrite Hd in Hd1. injection Hd1 as <-.
  rewrite lookup_insert_eq in Hd2. injection Hd2 as <-.
  rewrite !insert_insert_eq, (insert_id d), (insert_id (data c)) by done.
  by destruct c.
Qed.

(** *** The cutoff *)

Lemma flt_not_fle (x y : float) : flt x y = true → fle y x = false.
Proof.
  destruct x as [a| | |], y as [b| | |]; simpl; try done.
  intros H. apply bool_decide_eq_true in H. apply bool_decide_eq_false.
  by apply Qclt_not_le.
Qed.

Lemma outside_not_in_range (rmin rmax x : float) :
  flt x rmin = true ∨ flt rmax x = true → in_range rmin rmax x = false.
Proof.
  unfold in_range, fge. intros [H|H]; apply flt_not_fle in H; rewrite H.
  - done.
  - apply andb_false_r.
Qed.

Lemma lj_energy_at_outside power epsilon sigma n rmin rmax ri :
  in_range rmin rmax ri = false → isclose0 ri = false →
  lj_energy_at power epsilon sigma n rmin rmax ri = fzero.
Proof. unfold lj_energy_at. by intros -> ->. Qed.

Lemma lj_force_at_outside power epsilon sigma n rmin rmax ri :
  in_range rmin rmax ri = false → isclose0 ri = false →
  lj_force_at power epsilon sigma n rmin rmax ri = fzero.
Proof. unfold lj_force_at. by intros -> ->. Qed.

(** C4 as stated fails.  With [shift = True], [rmin = 1] and [rmax = 2]
    the separation [r = 1/2] lies strictly below [rmin]; the energy there is
    0 before the shift, and [__call__] subtracts [energy(rmax) = -63/1024]
    from every entry with [r <= rmax]: the potential at [r = 1/2] is
    [63/1024], not 0. *)
Lemma shifted_energy_below_rmin_is_not_zero :
  let r := fq 1 2 in
  flt r (fq 1 1) = true
  ∧ energy (lj_example true) [fq 2 1]
      {[ "epsilon" := fq 1 1; "sigma" := fq 1 1; "n" := fq 6 1;
         "rmin" := fq 1 1; "rmax" := fq 2 1 ]} = Ok [fq (-63) 1024]
  ∧ call no_callable (lj_example true) [r] ("1", "1") = Ok [fq 63 1024]
  ∧ call no_callable (lj_example true) [r] ("1", "1") ≠ Ok [fzero].
Proof. split_and!; by_compute. Qed.

(** C4, amended.  Let a Lennard-Jones potential have its parameters set
    for a pair, and let the separation [r[i]] lie strictly outside
    [[rmin, rmax]] and not be one numpy takes for zero ([|r| > 1e-8]).
    There the force is 0 and [energy] is 0.  The potential [__call__]
    returns is 0 there when [shift] is off or [r[i] > rmax]; when [shift]
    is on and [r[i] <= rmax] (so [r[i] < rmin]) it is [0 - energy(rmax)]. *)
Theorem lj_outside_cutoff run_callable power self pair params
    epsilon sigma n rmin rmax r i ri :
  energy self = lj_energy power →
  evaluate run_callable (coeff self) pair = Ok params →
  params !! "epsilon" = Some epsilon →
  params !! "sigma" = Some sigma →
  params !! "n" = Some n →
  params !! "rmin" = Some rmin →
  params !! "rmax" = Some rmax →
  r !! i = Some ri →
  flt ri rmin = true ∨ flt rmax ri = true →
  isclose0 ri = false →
  (∃ f, lj_force run_callable power self r pair = Ok f ∧ f !! i = Some fzero)
  ∧ (∃ u, energy self r params = Ok u ∧ u !! i = Some fzero)
  ∧ (∃ u, call run_callable self r pair = Ok u
          ∧ u !! i = Some (if shift self && fle ri rmax
                           then fsub fzero
                                  (lj_energy_at power epsilon sigma n rmin rmax rmax)
                           else fzero)).
Proof.
  intros Henergy Hev He Hs Hn Hmin Hmax Hri Hout Hzero.
  apply outside_not_in_range in Hout.
  assert (∀ x, lj_energy power x params
               = Ok (lj_energy_at power epsilon sigma n rmin rmax <$> x)) as Hlj.
  { intros x. unfold lj_energy, kwarg. by rewrite He, Hs, Hn, Hmin, Hmax. }
  split_and!.
  - unfold lj_force, item. rewrite Hev. simpl.
    rewrite He, Hs, Hn, Hmin, Hmax. simpl.
    eexists. split; [done|].
    rewrite list_lookup_fmap, Hri. simpl.
    by rewrite lj_force_at_outside.
  - rewrite Henergy, Hlj. eexists. split; [done|].
    rewrite list_lookup_fmap, Hri. simpl.
    by rewrite lj_energy_at_outside.
  - unfold call. rewrite Hev. simpl. rewrite Henergy, Hlj. simpl.
    destruct (shift self); simpl.
    + unfold item. rewrite Hmax. simpl. rewrite Hlj. simpl.
      eexists. split; [done|].
      rewrite lookup_zip_with, !list_lookup_fmap, Hri. simpl.
      rewrite lj_energy_at_outside by done.
      by destruct (fle ri rmax).
    + eexists. split; [done|].
      rewrite list_lookup_fmap, Hri. simpl.
      by rewrite lj_energy_at_outside.
Qed.

(** [lj_example] with [shift] on, at [r = [1/2; 3/2; 3]]: the first
    separation lies below [rmin = 1], outside [[1, 2]]. *)
Lemma lj_outside_cutoff_witness :
  let self := lj_example true in
  let r := [fq 1 2; fq 3 2; fq 3 1] in
  (∃ f, lj_force no_callable power_int self r ("1", "1") = Ok f
        ∧ f !! 0%nat = Some fzero)
  ∧ (∃ u, energy self r
            {[ "epsilon" := fq 1 1; "sigma" := fq 1 1; "n" := fq 6 1;
               "rmin" := fq 1 1; "rmax" := fq 2 1 ]} = Ok u
          ∧ u !! 0%nat = Some fzero)
  ∧ (∃ u, call no_callable self r ("1", "1") = Ok u
          ∧ u !! 0%nat = Some (if shift self && fle (fq 1 2) (fq 2 1)
                               then fsub fzero
                                      (lj_energy_at power_int (fq 1 1) (fq 1 1)
                                         (fq 6 1) (fq 1 1) (fq 2 1) (fq 2 1))
                               else fzero)).
Proof.
  intros self r.
  apply (lj_outside_cutoff no_callable power_int self ("1", "1")
           {[ "epsilon" := fq 1 1; "sigma" := fq 1 1; "n" := fq 6 1;
              "rmin" := fq 1 1; "rmax" := fq 2 1 ]}
           (fq 1 1) (fq 1 1) (fq 6 1) (fq 1 1) (fq 2 1) r 0%nat (fq 1 2)).
  - reflexivity.
  - by_compute.
  - by_compute.
  - by_compute.
  - by_compute.
  - by_compute.
  - by_compute.
  - reflexivity.
  - left. by_compute.
  - by_compute.
Defined.


(** *** Construction and lookup *)

Lemma list_to_map_fn `{Countable K} {V} (g : K → V) (l : list K) (k : K) :
  (list_to_map ((λ k, (k, g k)) <$> l) : gmap K V) !! k
  = if decide (k ∈ l) then Some (g k) else None.
Proof.
  induction l as [|k0 l IH].
  - rewrite fmap_nil, list_to_map_nil, lookup_empty.
    destruct (decide (k ∈ [])) as [Hk|]; [by apply elem_of_nil in Hk|done].
  - rewrite fmap_cons, list_to_map_cons.
    destruct (decide (k = k0)) as [->|Hk].
    + rewrite lookup_insert_eq. by rewrite decide_True by left.
    + rewrite lookup_insert_ne, IH by done.
      destruct (decide (k ∈ l)) as [Hl|Hl].
      * by rewrite decide_True by (by right).
      * rewrite decide_False; [done|].
        intros Hin. apply elem_of_cons in Hin as [?|?]; done.
Qed.

Lemma elem_of_all_pairs ts i j :
  (i, j) ∈ all_pairs ts ↔ i ∈ ts ∧ j ∈ ts ∧ String.leb i j = true.
Proof.
  unfold all_pairs. rewrite list_elem_of_bind. split.
  - intros (i' & Hin & Hi'). apply list_elem_of_bind in Hin as (j' & Hin & Hj').
    destruct (String.leb i' j') eqn:Hle; [|by apply elem_of_nil in Hin].
    apply list_elem_of_singleton in Hin as [= -> ->]. done.
  - intros (Hi & Hj & Hle). exists i. split; [|done].
    apply list_elem_of_bind. exists j. split; [|done].
    rewrite Hle. by apply list_elem_of_singleton.
Qed.

Lemma check_key_declared c i j :
  i ∈ types c → j ∈ types c →
  ∃ k, check_key c (i, j) = Ok k ∧ k ∈ all_pairs (types c).
Proof.
  intros Hi Hj. unfold check_key.
  rewrite !bool_decide_eq_false_2 by (by intros ?).
  destruct (String.leb i j) eqn:Hle.
  - eexists. split; [done|]. by apply elem_of_all_pairs.
  - eexists. split; [done|]. apply elem_of_all_pairs. split_and!; [done..|].
    destruct (String.leb_total i j) as [H|H]; [congruence|done].
Qed.

Lemma getitem_init ts ps defaults i j :
  i ∈ ts → j ∈ ts →
  getitem (init ts ps defaults) (i, j)
  = Ok (list_to_map ((λ p, (p, default Unset (defaults !! p))) <$> ps)).
Proof.
  intros Hi Hj.
  destruct (check_key_declared (init ts ps defaults) i j Hi Hj)
    as (k & Hk & Hin).
  unfold getitem. rewrite Hk. simpl.
  rewrite (list_to_map_fn (λ _, _) (all_pairs ts) k).
  by rewrite decide_True.
Qed.

(** X10.  A matrix fresh from [CoefficientMatrix(types, params, default)]
    holds, for every pair of declared types in either order and every
    declared parameter, the default of that parameter, or [None] where
    there is no default.  A name outside [params] is no key of the pair's
    dictionary, also when [default] names it. *)
Theorem init_getparam ts ps defaults i j p :
  i ∈ ts → j ∈ ts →
  getparam (init ts ps defaults) (i, j) p
  = if decide (p ∈ ps) then Ok (default Unset (defaults !! p))
    else Raise (KeyError p).
Proof.
  intros Hi Hj. unfold getparam.
  rewrite getitem_init by done. simpl.
  rewrite (list_to_map_fn (λ p, default Unset (defaults !! p)) ps p).
  by case_decide.
Qed.

(** The matrix of [LJPotential(types=('1','2'))]: [n] has the default 6,
    [epsilon] has none, and [shift] is no parameter. *)
Lemma init_getparam_witness :
  let c := coeff (LJPotential power_int ["1"; "2"] false) in
  getparam c ("2", "1") "n" = Ok (Scalar (fq 6 1))
  ∧ getparam c ("2", "1") "epsilon" = Ok Unset
  ∧ getparam c ("1", "2") "shift" = Raise (KeyError "shift").
Proof.
  intros c. subst c. unfold LJPotential. simpl.
  rewrite !init_getparam by (repeat constructor).
  split_and!; by_compute.
Defined.

(** *** Writes to the matrix *)

Lemma check_key_types c c' key :
  types c' = types c → check_key c' key = check_key c key.
Proof. unfold check_key. by intros ->. Qed.

Lemma setparam_getparam key p v c c' key' q :
  setparam key p v c = (Ok tt, c') →
  getparam c' key' q
  = if decide (check_key c key' = check_key c key ∧ q = p) then Ok v
    else getparam c key' q.
Proof.
  intros H. apply setparam_Ok_inv in H as (k & d & Hk & Hd & ->).
  unfold getparam, getitem.
  rewrite (check_key_types c _ key') by done.
  destruct (decide (check_key c key' = check_key c key ∧ q = p))
    as [[Hkk ->]|Hn].
  - rewrite Hkk, Hk. simpl. rewrite lookup_insert_eq. simpl.
    by rewrite lookup_insert_eq.
  - destruct (check_key c key') as [k'|e] eqn:Hk'; simpl; [|done].
    destruct (decide (k' = k)) as [->|Hne].
    + rewrite lookup_insert_eq, Hd. simpl.
      rewrite lookup_insert_ne; [done|].
      intros ->. apply Hn. by rewrite Hk.
    + by rewrite lookup_insert_ne.
Qed.

Lemma setparam_frame key p v c c' :
  setparam key p v c = (Ok tt, c') → types c' = types c ∧ params c' = params c.
Proof. intros H. by apply setparam_Ok_inv in H as (k & d & _ & _ & ->). Qed.

Lemma setitem_cons key p v value c :
  setitem key ((p, v) :: value) c
  = if bool_decide (p ∉ params c) then
      (Raise (KeyError "Only the known parameters can be set in coefficient matrix."),
       c)
    else match setparam key p v c with
         | (Ok _, c1) => setitem key value c1
         | (Raise e, c1) => (Raise e, c1)
         end.
Proof.
  unfold setitem. cbn [for_each]. unfold mbind at 1, M_bind at 1.
  unfold mbind at 1, M_bind at 1, get. cbn [fst snd].
  case_bool_decide; [done|].
  by destruct (setparam key p v c) as [[[]|e] c1].
Qed.

(** X11.  An assignment [self[key] = value] that returns has stored
    every value of the dictionary under the pair, for a key written in
    either order; the types and parameter names of the matrix are as
    before, and so is every slot of another pair and every parameter that
    the dictionary does not name. *)
Theorem setitem_getparam key value c c' :
  NoDup value.*1 →
  setitem key value c = (Ok tt, c') →
  types c' = types c ∧ params c' = params c
  ∧ (∀ p v, (p, v) ∈ value → p ∈ params c ∧ getparam c' key p = Ok v)
  ∧ (∀ key' q, check_key c key' ≠ check_key c key ∨ q ∉ value.*1 →
       getparam c' key' q = getparam c key' q).
Proof.
  revert c. induction value as [|[p0 v0] value IH]; intros c Hnd H.
  - apply ret_Ok_inv in H as [_ ->].
    split_and!; [done..| |done]. intros p v Hin. by apply elem_of_nil in Hin.
  - rewrite fmap_cons in Hnd. apply NoDup_cons in Hnd as [Hp0 Hnd].
    rewrite setitem_cons in H.
    case_bool_decide as Hp0c; [discriminate|].
    destruct (setparam key p0 v0 c) as [[[]|e] c1] eqn:Hhead; [|discriminate].
    destruct (setparam_frame _ _ _ _ _ Hhead) as [Ht1 Hp1].
    apply IH in H as (Ht & Hp & Hin & Hout); [|done].
    split_and!; [congruence..| |].
    + intros p v Hpv. apply elem_of_cons in Hpv as [[= -> ->]|Hpv].
      * split; [done|].
        rewrite Hout by (by right).
        rewrite (setparam_getparam _ _ _ _ _ key p0 Hhead).
        by rewrite decide_True.
      * destruct (Hin p v Hpv) as [? ?]. split; [congruence|done].
    + intros key' q Hcase.
      rewrite Hout.
      * rewrite (setparam_getparam _ _ _ _ _ key' q Hhead).
        rewrite decide_False; [done|].
        intros [Hk ->]. destruct Hcase as [Hcase|Hcase]; [done|].
        apply Hcase. simpl. left.
      * rewrite !(check_key_types c c1) by done.
        destruct Hcase as [?|Hcase]; [by left|right].
        intros Hq. apply Hcase. simpl. by right.
Qed.

(** [lj.coeff['1','1'] = {'epsilon': 1.0, 'sigma': 1.0, 'rmax': 3.0}], the
    assignment of [examples/akima/project.py]. *)
Lemma setitem_getparam_witness :
  let c := coeff (LJPotential power_int ["1"] true) in
  let value := [("epsilon", Scalar (fq 1 1)); ("sigma", Scalar (fq 1 1));
                ("rmax", Scalar (fq 3 1))] in
  let c' := (setitem ("1", "1") value c).2 in
  (setitem ("1", "1") value c).1 = Ok tt
  ∧ types c' = types c ∧ params c' = params c
  ∧ (∀ p v, (p, v) ∈ value → p ∈ params c ∧ getparam c' ("1", "1") p = Ok v)
  ∧ (∀ key' q, check_key c key' ≠ check_key c ("1", "1") ∨ q ∉ value.*1 →
       getparam c' key' q = getparam c key' q).
Proof.
  intros c value c'.
  assert ((setitem ("1", "1") value c).1 = Ok tt) as Hrun by by_compute.
  split; [exact Hrun|].
  apply (setitem_getparam ("1", "1") value c c').
  - by_compute.
  - rewrite <- Hrun. apply surjective_pairing.
Defined.

Lemma for_each_app {S A} (l1 l2 : list A) (body : A → M S unit) s s1 :
  for_each l1 body s = (Ok tt, s1) →
  for_each (l1 ++ l2) body s = for_each l2 body s1.
Proof.
  revert s. induction l1 as [|a l1 IH]; intros s H; simpl in *.
  - by apply ret_Ok_inv in H as [_ ->].
  - apply bind_Ok_inv in H as ([] & s0 & Ha & H).
    rewrite (bind_Ok _ _ _ _ _ Ha). by apply IH.
Qed.

Lemma setitem_app key pre post c c1 :
  setitem key pre c = (Ok tt, c1) →
  setitem key (pre ++ post) c = setitem key post c1.
Proof. unfold setitem. apply for_each_app. Qed.

(** X12.  An assignment [self[key] = value] whose dictionary names a
    parameter outside [params] raises [KeyError] when the loop reaches
    that name.  The assignment is not atomic: the values listed before the
    unknown name are already stored, and stay stored; the values after it
    are never looked at. *)
Theorem setitem_unknown_parameter key pre p v post c c1 :
  setitem key pre c = (Ok tt, c1) →
  p ∉ params c →
  setitem key (pre ++ (p, v) :: post) c
  = (Raise (KeyError "Only the known parameters can be set in coefficient matrix."),
     c1).
Proof.
  intros Hpre Hp.
  assert (params c1 = params c) as Hparams.
  { clear Hp. revert c Hpre.
    induction pre as [|[q w] pre IH]; intros c H.
    - by apply ret_Ok_inv in H as [_ ->].
    - rewrite setitem_cons in H. case_bool_decide; [discriminate|].
      destruct (setparam key q w c) as [[[]|e] c0] eqn:Hhead; [|discriminate].
      destruct (setparam_frame _ _ _ _ _ Hhead) as [_ Hp0].
      rewrite (IH _ H). done. }
  rewrite (setitem_app _ _ _ _ _ Hpre), setitem_cons, Hparams.
  by rewrite bool_decide_eq_true_2.
Qed.

(** In [chained_matrix], with the parameters [a] and [b]: the assignment
    of [{'a': 2, 'c': 0, 'b': 5}] raises at [c]; by then [a] is 2, and [b]
    is still the callable. *)
Lemma setitem_unknown_parameter_witness :
  let key : pair := ("A", "A") in
  let pre := [("a", Scalar (fq 2 1))] in
  let c1 := (setitem key pre chained_matrix).2 in
  setitem key (pre ++ ("c", Scalar (fq 0 1)) :: [("b", Scalar (fq 5 1))])
    chained_matrix
  = (Raise (KeyError "Only the known parameters can be set in coefficient matrix."),
     c1)
  ∧ getparam c1 key "a" = Ok (Scalar (fq 2 1))
  ∧ getparam c1 key "b" = Ok (Callable 0).
Proof.
  intros key pre c1. split_and!; [|by_compute..].
  apply (setitem_unknown_parameter key pre "c" (Scalar (fq 0 1))
           [("b", Scalar (fq 5 1))] chained_matrix c1).
  - assert ((setitem key pre chained_matrix).1 = Ok tt) as Hrun by by_compute.
    rewrite <- Hrun. apply surjective_pairing.
  - by_compute.
Defined.


(** *** evaluate *)

Lemma evaluate_loop_Ok rc c pair ps acc m :
  evaluate_loop rc c pair ps acc = Ok m →
  (∀ p, p ∉ ps → m !! p = acc !! p)
  ∧ (∀ p, p ∈ ps →
       ∃ e x, getparam c pair p = Ok e ∧ m !! p = Some x
              ∧ match e with
                | Unset => False
                | Scalar y => x = y
                | Callable fn => rc fn c = Ok (Some x)
                end).
Proof.
  revert acc. induction ps as [|p0 ps IH]; intros acc H; simpl in H.
  - injection H as <-. split; [done|]. intros p Hp. by apply elem_of_nil in Hp.
  - apply rbind_Ok_inv in H as (e0 & He0 & H).
    apply rbind_Ok_inv in H as (x0 & Hx0 & H).
    destruct x0 as [x0|]; [|discriminate].
    apply IH in H as [Hout Hin]. split.
    + intros p Hp. apply not_elem_of_cons in Hp as [Hne Hp].
      rewrite (Hout p Hp). by rewrite lookup_insert_ne.
    + intros p Hp.
      destruct (decide (p ∈ ps)) as [Hps|Hps]; [by apply Hin|].
      apply elem_of_cons in Hp as [->|Hp]; [|done].
      exists e0, x0. rewrite (Hout p0 Hps), lookup_insert_eq.
      split_and!; [done..|].
      destruct e0; [discriminate|by injection Hx0|done].
Qed.

(** X13.  The dictionary a returning [evaluate] yields has exactly the
    declared parameters as keys.  No parameter of the pair is [None]; a
    number is returned as stored, and a callable has been applied to the
    matrix and returned the number that is in the dictionary. *)
Theorem evaluate_returns rc c pair m :
  evaluate rc c pair = Ok m →
  (∀ p, is_Some (m !! p) ↔ p ∈ params c)
  ∧ (∀ p, p ∈ params c →
       ∃ e x, getparam c pair p = Ok e ∧ m !! p = Some x
              ∧ match e with
                | Unset => False
                | Scalar y => x = y
                | Callable fn => rc fn c = Ok (Some x)
                end).
Proof.
  intros H. apply evaluate_loop_Ok in H as [Hout Hin].
  split; [|done]. intros p. split.
  - intros Hp. destruct (decide (p ∈ params c)) as [|Hn]; [done|].
    rewrite (Hout p Hn), lookup_empty in Hp. by destruct Hp.
  - intros Hp. destruct (Hin p Hp) as (e & x & _ & -> & _). by eexists.
Qed.

(** [chained_matrix]: [a] is the number 1 and [b] the callable
    [lambda c: 1. / c['A','A']['a']]. *)
Lemma evaluate_returns_witness :
  let m : gmap string float := {[ "a" := fq 1 1; "b" := fq 1 1 ]} in
  evaluate reciprocal_of_a chained_matrix ("A", "A") = Ok m
  ∧ (∀ p, is_Some (m !! p) ↔ p ∈ params chained_matrix)
  ∧ (∀ p, p ∈ params chained_matrix →
       ∃ e x, getparam chained_matrix ("A", "A") p = Ok e ∧ m !! p = Some x
              ∧ match e with
                | Unset => False
                | Scalar y => x = y
                | Callable fn => reciprocal_of_a fn chained_matrix = Ok (Some x)
                end).
Proof.
  intros m.
  assert (evaluate reciprocal_of_a chained_matrix ("A", "A") = Ok m) as Hrun
    by by_compute.
  split; [exact Hrun|].
  exact (evaluate_returns reciprocal_of_a chained_matrix ("A", "A") m Hrun).
Defined.

Lemma evaluate_loop_app rc c pair pre rest acc :
  (∀ q, q ∈ pre →
     ∃ e x, getparam c pair q = Ok e
            ∧ (e = Scalar x ∨ ∃ fn, e = Callable fn ∧ rc fn c = Ok (Some x))) →
  ∃ acc', evaluate_loop rc c pair (pre ++ rest) acc
          = evaluate_loop rc c pair rest acc'.
Proof.
  revert acc. induction pre as [|q pre IH]; intros acc Hpre; [by eexists|].
  destruct (Hpre q) as (e & x & He & Hcase); [left|].
  destruct (IH (<[q := x]> acc)) as [acc' Hacc'].
  { intros q' Hq'. apply Hpre. by right. }
  exists acc'. rewrite <- Hacc'. simpl. rewrite He.
  destruct Hcase as [->|(fn & -> & Hfn)]; simpl; [done|by rewrite Hfn].
Qed.

(** X14.  [evaluate] stops at the first parameter, in the order of
    [params], that has no value: one that is [None], or a callable that
    returns [None].  It raises [ValueError] naming that parameter and the
    pair as passed; the parameters after it are not looked at. *)
Theorem evaluate_first_unset rc c pair pre p post :
  params c = pre ++ p :: post →
  (∀ q, q ∈ pre →
     ∃ e x, getparam c pair q = Ok e
            ∧ (e = Scalar x ∨ ∃ fn, e = Callable fn ∧ rc fn c = Ok (Some x))) →
  getparam c pair p = Ok Unset
  ∨ (∃ fn, getparam c pair p = Ok (Callable fn) ∧ rc fn c = Ok None) →
  evaluate rc c pair
  = Raise (ValueError ("Parameter " +:+ p +:+ " is not set for "
                       +:+ str_pair pair +:+ ".")).
Proof.
  intros Hparams Hpre Hp. unfold evaluate. rewrite Hparams.
  destruct (evaluate_loop_app rc c pair pre (p :: post) ∅ Hpre) as [acc ->].
  simpl. destruct Hp as [->|(fn & -> & Hfn)]; simpl; [done|by rewrite Hfn].
Qed.

(** The matrix of a fresh [LJPotential] with [epsilon] set: [sigma] is the
    first parameter without a value. *)
Lemma evaluate_first_unset_witness :
  let c := (setparam ("1", "1") "epsilon" (Scalar (fq 1 1))
              (coeff (LJPotential power_int ["1"] false))).2 in
  evaluate no_callable c ("1", "1")
  = Raise (ValueError "Parameter sigma is not set for (1,1).").
Proof.
  intros c.
  apply (evaluate_first_unset no_callable c ("1", "1")
           ["epsilon"] "sigma" ["n"; "rmin"; "rmax"]).
  - reflexivity.
  - intros q Hq. apply list_elem_of_singleton in Hq as ->.
    exists (Scalar (fq 1 1)), (fq 1 1). split; [by_compute|by left].
  - left. by_compute.
Defined.

(** *** perturb *)

Lemma bind_Raise_inv {S A B} (m : M S A) (k : A → M S B) s e s' :
  (m ≫= k) s = (Raise e, s') →
  m s = (Raise e, s') ∨ ∃ a s1, m s = (Ok a, s1) ∧ k a s1 = (Raise e, s').
Proof.
  unfold mbind, M_bind. destruct (m s) as [[a|e0] s1]; [eauto|].
  intros [= -> ->]. by left.
Qed.

Lemma lift_Raise_inv {S A} (r : result A) (s s' : S) e :
  lift r s = (Raise e, s') → r = Raise e ∧ s' = s.
Proof. unfold lift. intros [= -> ->]. auto. Qed.

Lemma setparam_again key p v w c c1 :
  setparam key p v c = (Ok tt, c1) → ∃ c2, setparam key p w c1 = (Ok tt, c2).
Proof.
  intros H. apply setparam_Ok_inv in H as (k & d & Hk & Hd & ->).
  unfold setparam. unfold_monad.
  rewrite (check_key_types c _ key) by done. rewrite Hk. simpl.
  rewrite lookup_insert_eq. by eexists.
Qed.

(** X15.  The refusals of [perturb]: a parameter that is not declared
    ([KeyError]), one that is [None] for the key ([ValueError]) and one
    that is a callable ([KeyError]).  They come before anything is
    evaluated or written: the matrix is unchanged. *)
Theorem perturb_refusals rc pair key param value c :
  (param ∉ params c →
   perturb rc pair key param value c
   = (Raise (KeyError ("Parameter " +:+ param
                       +:+ " is not part of the coefficient matrix.")), c))
  ∧ (param ∈ params c → getparam c key param = Ok Unset →
     perturb rc pair key param value c
     = (Raise (ValueError ("Cannot perturb parameter " +:+ param
                           +:+ ", not set for " +:+ str_pair key +:+ ".")), c))
  ∧ (param ∈ params c →
     ∀ fn, getparam c key param = Ok (Callable fn) →
     perturb rc pair key param value c
     = (Raise (KeyError "Cannot perturb a callable parameter; it is chained."),
        c)).
Proof.
  unfold perturb. split_and!.
  - intros Hp. unfold_monad. by rewrite bool_decide_eq_true_2.
  - intros Hp Hold. unfold_monad.
    rewrite bool_decide_eq_false_2 by (by intros ?). by rewrite Hold.
  - intros Hp fn Hold. unfold_monad.
    rewrite bool_decide_eq_false_2 by (by intros ?). by rewrite Hold.
Qed.

(** [chained_matrix] has no parameter [c], and its [b] is a callable; the
    parameter [epsilon] of a fresh [LJPotential] is [None]. *)
Lemma perturb_refusals_witness :
  let key : pair := ("A", "A") in
  let lj := coeff (LJPotential power_int ["1"] false) in
  perturb reciprocal_of_a key key "c" (Scalar (fq 2 1)) chained_matrix
  = (Raise (KeyError "Parameter c is not part of the coefficient matrix."),
     chained_matrix)
  ∧ perturb no_callable ("1", "1") ("1", "1") "epsilon" (Scalar (fq 2 1)) lj
    = (Raise (ValueError "Cannot perturb parameter epsilon, not set for (1,1)."),
       lj)
  ∧ perturb reciprocal_of_a key key "b" (Scalar (fq 2 1)) chained_matrix
    = (Raise (KeyError "Cannot perturb a callable parameter; it is chained."),
       chained_matrix).
Proof.
  intros key lj. split_and!.
  - apply (proj1 (perturb_refusals reciprocal_of_a key key "c"
                    (Scalar (fq 2 1)) chained_matrix)).
    by_compute.
  - apply (proj1 (proj2 (perturb_refusals no_callable ("1", "1") ("1", "1")
                           "epsilon" (Scalar (fq 2 1)) lj))).
    + by_compute.
    + by_compute.
  - apply (proj2 (proj2 (perturb_refusals reciprocal_of_a key key "b"
                           (Scalar (fq 2 1)) chained_matrix)) ltac:(by_compute) 0%nat).
    by_compute.
Defined.

(** X16.  The only way [perturb] leaves the matrix modified.  A call
    that raises leaves the matrix as it was, unless the exception comes
    from the second [evaluate], the one that runs with the new value
    swapped in; then the matrix is the swapped one, with [value] stored
    for the key.  The statement that restores the old value never
    raises. *)
Theorem perturb_raise_leaves_matrix rc pair key param value c e c' :
  perturb rc pair key param value c = (Raise e, c') →
  c' = c
  ∨ (setparam key param value c = (Ok tt, c')
     ∧ evaluate rc c' pair = Raise e
     ∧ getparam c' key param = Ok value).
Proof.
  unfold perturb. intros H.
  apply bind_Raise_inv in H as [[=]|(c0 & ? & [= <- <-] & H)].
  case_bool_decide; [injection H as _ <-; by left|].
  apply bind_Raise_inv in H as [H|(old_value & ? & Hold & H)].
  { apply lift_Raise_inv in H as [_ ->]. by left. }
  apply lift_Ok_inv in Hold as [Hold ->].
  destruct old_value as [|old|]; [injection H as _ <-; by left| |
                                  injection H as _ <-; by left].
  apply bind_Raise_inv in H as [H|(old_params & ? & Hev & H)].
  { apply lift_Raise_inv in H as [_ ->]. by left. }
  apply lift_Ok_inv in Hev as [Hev ->].
  apply bind_Raise_inv in H as [H|([] & c1 & Hswap & H)].
  { unfold setparam in H.
    apply bind_Raise_inv in H as [[=]|(? & ? & [= <- <-] & H)].
    apply bind_Raise_inv in H as [H|(k & ? & Hk & H)].
    - apply lift_Raise_inv in H as [_ ->]. by left.
    - apply lift_Ok_inv in Hk as [Hk ->].
      destruct (data c !! k); [discriminate|].
      injection H as _ <-. by left. }
  apply bind_Raise_inv in H as [[=]|(? & ? & [= <- <-] & H)].
  apply bind_Raise_inv in H as [H|(new_params & ? & Hev' & H)].
  { apply lift_Raise_inv in H as [Hraise ->]. right.
    split_and!; [done..|].
    rewrite (setparam_getparam _ _ _ _ _ key param Hswap).
    by rewrite decide_True. }
  apply lift_Ok_inv in Hev' as [Hev' ->].
  apply bind_Raise_inv in H as [H|([] & c2 & Hrestore & H)]; [|discriminate].
  destruct (setparam_again key param value (Scalar old) c c1 Hswap)
    as [c2 Hc2].
  rewrite Hc2 in H. discriminate.
Qed.

(** [chained_matrix] with 0 swapped in for [a]: the callable of [b]
    divides by it. *)
Lemma perturb_raise_leaves_matrix_witness :
  let key : pair := ("A", "A") in
  let run := perturb reciprocal_of_a key key "a" (Scalar (fq 0 1)) chained_matrix in
  run.1 = Raise (ZeroDivisionError "float division by zero")
  ∧ (run.2 = chained_matrix
     ∨ (setparam key "a" (Scalar (fq 0 1)) chained_matrix = (Ok tt, run.2)
        ∧ evaluate reciprocal_of_a run.2 key
          = Raise (ZeroDivisionError "float division by zero")
        ∧ getparam run.2 key "a" = Ok (Scalar (fq 0 1)))).
Proof.
  intros key run.
  assert (run.1 = Raise (ZeroDivisionError "float division by zero")) as Hrun
    by by_compute.
  split; [exact Hrun|].
  apply (perturb_raise_leaves_matrix reciprocal_of_a key key "a"
           (Scalar (fq 0 1)) chained_matrix).
  rewrite <- Hrun. apply surjective_pairing.
Defined.

(** [chained_matrix] with 2 swapped in for [a]: the call returns the new
    and the old parameters, and the matrix is as before. *)
Lemma perturb_returns_witness :
  let key : pair := ("A", "A") in
  let new_params : gmap string float := {[ "a" := fq 2 1; "b" := fq 1 2 ]} in
  let old_params : gmap string float := {[ "a" := fq 1 1; "b" := fq 1 1 ]} in
  let run := perturb reciprocal_of_a key key "a" (Scalar (fq 2 1)) chained_matrix in
  run.1 = Ok (new_params, old_params)
  ∧ run.2 = chained_matrix
  ∧ evaluate reciprocal_of_a chained_matrix key = Ok old_params
  ∧ ∃ swapped, setparam key "a" (Scalar (fq 2 1)) chained_matrix = (Ok tt, swapped)
               ∧ evaluate reciprocal_of_a swapped key = Ok new_params.
Proof.
  intros key new_params old_params run.
  assert (run.1 = Ok (new_params, old_params)) as Hrun by by_compute.
  split; [exact Hrun|].
  apply (perturb_returns reciprocal_of_a key key "a" (Scalar (fq 2 1))
           chained_matrix new_params old_params run.2).
  rewrite <- Hrun. apply surjective_pairing.
Defined.


(** *** Lennard-Jones: zero separation, the shift, a fresh potential *)

Lemma lj_energy_eq power params epsilon sigma n rmin rmax r :
  params !! "epsilon" = Some epsilon → params !! "sigma" = Some sigma →
  params !! "n" = Some n → params !! "rmin" = Some rmin →
  params !! "rmax" = Some rmax →
  lj_energy power r params
  = Ok (lj_energy_at power epsilon sigma n rmin rmax <$> r).
Proof.
  intros He Hs Hn Hmin Hmax. unfold lj_energy, kwarg.
  by rewrite He, Hs, Hn, Hmin, Hmax.
Qed.

(** X17.  At a separation that numpy takes for zero ([|r| <= 1e-8]) and
    that lies within [[rmin, rmax]], the Lennard-Jones energy and force
    are [+inf], whatever [epsilon], [sigma] and [n] are: the formula,
    which divides by [r], is not evaluated there. *)
Theorem lj_at_zero_separation run_callable power self pair params
    epsilon sigma n rmin rmax r i ri :
  energy self = lj_energy power →
  evaluate run_callable (coeff self) pair = Ok params →
  params !! "epsilon" = Some epsilon →
  params !! "sigma" = Some sigma →
  params !! "n" = Some n →
  params !! "rmin" = Some rmin →
  params !! "rmax" = Some rmax →
  r !! i = Some ri →
  in_range rmin rmax ri = true →
  isclose0 ri = true →
  (∃ u, energy self r params = Ok u ∧ u !! i = Some PInf)
  ∧ (∃ f, lj_force run_callable power self r pair = Ok f ∧ f !! i = Some PInf).
Proof.
  intros Henergy Hev He Hs Hn Hmin Hmax Hri Hin Hzero. split.
  - rewrite Henergy, (lj_energy_eq _ _ _ _ _ _ _ _ He Hs Hn Hmin Hmax).
    eexists. split; [done|].
    rewrite list_lookup_fmap, Hri. simpl.
    unfold lj_energy_at. by rewrite Hin, Hzero.
  - unfold lj_force, item. rewrite Hev. simpl.
    rewrite He, Hs, Hn, Hmin, Hmax. simpl.
    eexists. split; [done|].
    rewrite list_lookup_fmap, Hri. simpl.
    unfold lj_force_at. by rewrite Hin, Hzero.
Qed.

(** A Lennard-Jones potential with the default [rmin = 0], at [r = 0]. *)
Lemma lj_at_zero_separation_witness :
  let lj := LJPotential power_int ["1"] false in
  let value := [("epsilon", Scalar (fq 1 1)); ("sigma", Scalar (fq 1 1));
                ("rmax", Scalar (fq 3 1))] in
  let self := {| coeff := (setitem ("1", "1") value (coeff lj)).2;
                 shift := false; energy := energy lj |} in
  let params : gmap string float :=
    {[ "epsilon" := fq 1 1; "sigma" := fq 1 1; "n" := fq 6 1;
       "rmin" := fq 0 1; "rmax" := fq 3 1 ]} in
  (∃ u, energy self [fq 0 1; fq 1 1] params = Ok u ∧ u !! 0%nat = Some PInf)
  ∧ (∃ f, lj_force no_callable power_int self [fq 0 1; fq 1 1] ("1", "1") = Ok f
          ∧ f !! 0%nat = Some PInf).
Proof.
  intros lj value self params.
  apply (lj_at_zero_separation no_callable power_int self ("1", "1") params
           (fq 1 1) (fq 1 1) (fq 6 1) (fq 0 1) (fq 3 1)
           [fq 0 1; fq 1 1] 0%nat (fq 0 1)).
  - reflexivity.
  - by_compute.
  - by_compute.
  - by_compute.
  - by_compute.
  - by_compute.
  - by_compute.
  - reflexivity.
  - by_compute.
  - by_compute.
Defined.

Lemma fle_refl_or_nan x : fle x x = true ∨ x = NaN.
Proof.
  destruct x as [q| | |]; simpl; auto.
  left. by apply bool_decide_eq_true.
Qed.

(** X18.  With [shift] on, the potential [__call__] returns for a
    Lennard-Jones potential is [energy(r) - energy(rmax)] at every
    separation [r <= rmax], and [energy(r)] beyond [rmax].  At [r = rmax]
    it is exactly 0 whenever [energy(rmax)] is finite: the shifted
    potential vanishes at the cutoff. *)
Theorem shifted_lj_vanishes_at_rmax run_callable power self pair params
    epsilon sigma n rmin rmax r :
  energy self = lj_energy power →
  shift self = true →
  evaluate run_callable (coeff self) pair = Ok params →
  params !! "epsilon" = Some epsilon →
  params !! "sigma" = Some sigma →
  params !! "n" = Some n →
  params !! "rmin" = Some rmin →
  params !! "rmax" = Some rmax →
  let e := lj_energy_at power epsilon sigma n rmin rmax in
  ∃ u, call run_callable self r pair = Ok u
       ∧ length u = length r
       ∧ (∀ i ri, r !! i = Some ri →
            u !! i = Some (if fle ri rmax then fsub (e ri) (e rmax) else e ri))
       ∧ (∀ i q, r !! i = Some rmax → e rmax = Fin q → u !! i = Some fzero).
Proof.
  intros Henergy Hshift Hev He Hs Hn Hmin Hmax e.
  pose proof (λ x, lj_energy_eq power params _ _ _ _ _ x He Hs Hn Hmin Hmax)
    as Hlj.
  unfold call, item. rewrite Hev. simpl.
  rewrite Henergy, Hlj, Hshift. simpl. rewrite Hmax. simpl. rewrite Hlj. simpl.
  fold e.
  assert (∀ i ri, r !! i = Some ri →
            zip_with (λ (m : bool) ui, if m then fsub ui (e rmax) else ui)
              ((λ ri, fle ri rmax) <$> r) (e <$> r) !! i
            = Some (if fle ri rmax then fsub (e ri) (e rmax) else e ri))
    as Hentries.
  { intros i ri Hri. by rewrite lookup_zip_with, !list_lookup_fmap, Hri. }
  eexists. split_and!; [done| |done|].
  - rewrite length_zip_with, !length_fmap. lia.
  - intros i q Hri Hq. rewrite (Hentries i rmax Hri).
    destruct (fle_refl_or_nan rmax) as [->| ->].
    + rewrite Hq. simpl. unfold fzero. do 2 f_equal. apply Qcplus_opp_r.
    + simpl. f_equal. subst e.
      apply lj_energy_at_outside; [apply andb_false_r|done].
Qed.

(** [lj_example] with [shift] on, [rmin = 1] and [rmax = 2], at
    [r = [3/2; 2; 3]]. *)
Lemma shifted_lj_vanishes_at_rmax_witness :
  let e := lj_energy_at power_int (fq 1 1) (fq 1 1) (fq 6 1) (fq 1 1) (fq 2 1) in
  let r := [fq 3 2; fq 2 1; fq 3 1] in
  ∃ u, call no_callable (lj_example true) r ("1", "1") = Ok u
       ∧ length u = length r
       ∧ (∀ i ri, r !! i = Some ri →
            u !! i = Some (if fle ri (fq 2 1) then fsub (e ri) (e (fq 2 1))
                           else e ri))
       ∧ (∀ i q, r !! i = Some (fq 2 1) → e (fq 2 1) = Fin q →
            u !! i = Some fzero).
Proof.
  intros e r.
  apply (shifted_lj_vanishes_at_rmax no_callable power_int (lj_example true)
           ("1", "1")
           {[ "epsilon" := fq 1 1; "sigma" := fq 1 1; "n" := fq 6 1;
              "rmin" := fq 1 1; "rmax" := fq 2 1 ]}
           (fq 1 1) (fq 1 1) (fq 6 1) (fq 1 1) (fq 2 1) r).
  - reflexivity.
  - reflexivity.
  - by_compute.
  - by_compute.
  - by_compute.
  - by_compute.
  - by_compute.
  - by_compute.
Defined.

Lemma evaluate_loop_unset rc c pair p rest acc :
  getparam c pair p = Ok Unset →
  evaluate_loop rc c pair (p :: rest) acc
  = Raise (ValueError ("Parameter " +:+ p +:+ " is not set for "
                       +:+ str_pair pair +:+ ".")).
Proof. intros H. simpl. by rewrite H. Qed.

(** X19.  A Lennard-Jones potential fresh from its constructor cannot be
    evaluated: [n] and [rmin] have defaults, [epsilon], the first
    parameter, has none, and [__call__] and [force] raise [ValueError] for
    it before any energy is computed, for every pair of declared types. *)
Theorem fresh_lj_is_unset run_callable power ts shift r i j :
  i ∈ ts → j ∈ ts →
  let unset : result (list float) :=
    Raise (ValueError ("Parameter epsilon is not set for "
                       +:+ str_pair (i, j) +:+ ".")) in
  call run_callable (LJPotential power ts shift) r (i, j) = unset
  ∧ lj_force run_callable power (LJPotential power ts shift) r (i, j) = unset.
Proof.
  intros Hi Hj unset.
  assert (evaluate run_callable (coeff (LJPotential power ts shift)) (i, j)
          = Raise (ValueError ("Parameter epsilon is not set for "
                               +:+ str_pair (i, j) +:+ "."))) as Hev.
  { unfold evaluate. apply evaluate_loop_unset.
    change (coeff (LJPotential power ts shift))
      with (init ts ["epsilon"; "sigma"; "n"; "rmin"; "rmax"]
              {[ "n" := Scalar (fq 6 1); "rmin" := Scalar (fq 0 1) ]}).
    unfold getparam. rewrite getitem_init by done.
    unfold mbind, result_bind.
    rewrite (list_to_map_fn
               (λ p, default Unset (({[ "n" := Scalar (fq 6 1);
                                         "rmin" := Scalar (fq 0 1) ]}
                                      : gmap string entry) !! p))
               ["epsilon"; "sigma"; "n"; "rmin"; "rmax"] "epsilon").
    by_compute. }
  unfold call, lj_force. by rewrite Hev.
Qed.

(** [LJPotential(types=('1','2'))], asked for the pair [('2','1')]. *)
Lemma fresh_lj_is_unset_witness :
  call no_callable (LJPotential power_int ["1"; "2"] true) [fq 1 1] ("2", "1")
  = Raise (ValueError "Parameter epsilon is not set for (2,1).")
  ∧ lj_force no_callable power_int (LJPotential power_int ["1"; "2"] true)
      [fq 1 1] ("2", "1")
    = Raise (ValueError "Parameter epsilon is not set for (2,1).").
Proof.
  apply (fresh_lj_is_unset no_callable power_int ["1"; "2"] true [fq 1 1]
           "2" "1").
  - by_compute.
  - by_compute.
Defined.

End PotentialFacts.

(** ** Optimization *)

Module OptimizeFacts.
Import Optimize.

(** *** has_converged *)

Lemma has_converged_loop_true abs_tol grad xs :
  has_converged_loop abs_tol grad xs = Ok true ↔
  ∀ x, x ∈ xs → ∃ g tol, kget grad x = Ok g ∧ tolerance abs_tol x = Some tol
                         ∧ (Qcabs g <= tol)%Qc.
Proof.
  induction xs as [|x xs IH]; simpl.
  - split; [intros _ y Hy; inversion Hy|done].
  - split.
    + intros H y Hy.
      destruct (kget grad x) as [g|] eqn:Hg; simpl in H; [|discriminate].
      assert (∃ tol, tolerance abs_tol x = Some tol ∧ ¬ (tol < Qcabs g)%Qc
                     ∧ has_converged_loop abs_tol grad xs = Ok true)
        as (tol & Htol & Hle & Hrest).
      { destruct abs_tol as [t|d]; simpl in *.
        - exists t. destruct (decide (t < Qcabs g)%Qc); [discriminate|done].
        - destruct (d !! x) as [t|]; simpl in H; [|discriminate].
          exists t. destruct (decide (t < Qcabs g)%Qc); [discriminate|done]. }
      apply elem_of_cons in Hy as [->|Hy].
      * exists g, tol. split_and!; [done..|by apply Qcnot_lt_le].
      * by apply IH.
    + intros H.
      destruct (H x) as (g & tol & Hg & Htol & Hle); [left|].
      rewrite Hg. simpl.
      assert (has_converged_loop abs_tol grad xs = Ok true) as Hrest.
      { apply IH. intros y Hy. apply H. by right. }
      destruct abs_tol as [t|d]; simpl in *.
      * injection Htol as ->.
        destruct (decide (tol < Qcabs g)%Qc) as [Hlt|]; [|done].
        by apply Qcle_not_lt in Hle.
      * rewrite Htol. simpl.
        destruct (decide (tol < Qcabs g)%Qc) as [Hlt|]; [|done].
        by apply Qcle_not_lt in Hle.
Qed.

(** The sound half of the convergence predicate: [has_converged] answers
    [True] exactly when every design variable of the result has a gradient
    entry and a tolerance, and the gradient is within the tolerance. *)
Lemma has_converged_true self res :
  has_converged self res = Ok true ↔
  ∀ x, x ∈ keys (design_variables res) →
       ∃ g tol, kget (gradient res) x = Ok g
                ∧ tolerance (abs_tol self) x = Some tol
                ∧ (Qcabs g <= tol)%Qc.
Proof. apply has_converged_loop_true. Qed.

(** C3, at the failing input.  The result has the design variables 0 and
    1 with gradient 1 and 0, and [abs_tol] is the dictionary [{0: 1/2}],
    which has no entry for variable 1.  The claim (and the docstring of
    [has_converged]) has the call raise [KeyError]; the loop instead
    returns [False] at variable 0, before the missing entry is looked
    up. *)
Theorem has_converged_returns_before_missing_tolerance :
  let abs_tol := Dict {[ 0%nat := qc 1 2 ]} in
  let self := descent SteepestDescent abs_tol 1 (qc 1 4) (Scalar 1%Qc) None in
  let res := {| res_value := None;
                gradient := [(0%nat, qc 1 1); (1%nat, qc 0 1)];
                design_variables := [(0%nat, qc 3 1); (1%nat, qc 5 1)] |} in
  tolerance abs_tol 1%nat = None
  ∧ has_converged self res = Ok false.
Proof. split; by_compute. Qed.

(** *** The descent loop *)

Lemma descend_final norm self objective left scale cur s final left' s' :
  descend norm self objective left scale cur s = (Ok (final, left'), s') →
  has_converged self final = Ok true
  ∨ (has_converged self final = Ok false ∧ left' = 0%nat).
Proof.
  revert cur s. induction left as [|left IH]; intros cur s H; simpl in H.
  - apply bind_Ok_inv in H as (c & s1 & Hc & H).
    apply lift_Ok_inv in Hc as [Hc ->].
    destruct c; apply ret_Ok_inv in H as [[= -> ->] _]; auto.
  - apply bind_Ok_inv in H as (c & s1 & Hc & H).
    apply lift_Ok_inv in Hc as [Hc ->].
    destruct c.
    + apply ret_Ok_inv in H as [[= -> ->] _]; auto.
    + apply bind_Ok_inv in H as (next & s2 & _ & H). eauto.
Qed.

(** C2.  A call of [optimize] on an objective without design variables
    returns [None] and touches nothing.  A call that completes on an
    objective with design variables returns the value of the convergence
    predicate at the last result the loop evaluated: [True] when it holds
    there, and [False] only when it fails there and the loop has used up
    its [max_iter] iterations (none is left).  There is no other outcome of
    a completed call. *)
Theorem optimize_outcomes norm self objective s :
  (dvars objective = [] → optimize norm self objective s = (Ok None, s))
  ∧ ∀ r s', optimize norm self objective s = (Ok r, s') →
      (dvars objective = [] ∧ r = None ∧ s' = s)
      ∨ (dvars objective ≠ [] ∧
         ∃ first s0 final left,
           compute objective s = (Ok first, s0)
           ∧ descend norm self objective (Pos.to_nat (max_iter self))
               (fix_scale self (dvars objective)) first s0
             = (Ok (final, left), s')
           ∧ ((r = Some true ∧ has_converged self final = Ok true)
              ∨ (r = Some false ∧ has_converged self final = Ok false
                 ∧ left = 0%nat))).
Proof.
  unfold optimize. split.
  - intros ->. reflexivity.
  - intros r s' H.
    destruct (decide (length (dvars objective) = 0%nat)) as [Hlen|Hlen].
    + apply ret_Ok_inv in H as [-> ->]. left.
      by apply nil_length_inv in Hlen.
    + right. split; [by intros Hnil; rewrite Hnil in Hlen|].
      apply bind_Ok_inv in H as (first & s0 & Hfirst & H).
      apply bind_Ok_inv in H as ([final left] & s1 & Hloop & H).
      apply bind_Ok_inv in H as (c & s2 & Hc & H).
      apply lift_Ok_inv in Hc as [Hc ->].
      apply ret_Ok_inv in H as [-> ->].
      exists first, s0, final, left. split_and!; [done..|].
      destruct (descend_final _ _ _ _ _ _ _ _ _ _ Hloop) as [Ht|[Hf ->]].
      * left. rewrite Ht in Hc. by injection Hc as <-.
      * right. rewrite Hf in Hc. by injection Hc as <-.
Qed.

(** The second run of [test_run] in [tests/optimize/test_method.py]: from
    [x = 1.5] one iteration is not enough, and [optimize] returns [False]
    with no iteration left. *)
Lemma optimize_outcomes_witness :
  let self := descent SteepestDescent (Scalar (qc 1 100000000)) 1 (qc 1 4)
                (Scalar 1%Qc) None in
  let objective := QuadraticObjective 0 in
  let s := free_at (qc 3 2) in
  (optimize euclidean_norm self objective s).1 = Ok (Some false)
  ∧ ∃ first s0 final,
      compute objective s = (Ok first, s0)
      ∧ descend euclidean_norm self objective (Pos.to_nat (max_iter self))
          (fix_scale self (dvars objective)) first s0
        = (Ok (final, 0%nat), (optimize euclidean_norm self objective s).2)
      ∧ has_converged self final = Ok false.
Proof.
  intros self objective s.
  assert ((optimize euclidean_norm self objective s).1 = Ok (Some false))
    as Hrun by by_compute.
  split; [exact Hrun|].
  destruct (proj2 (optimize_outcomes euclidean_norm self objective s)
              (Some false) (optimize euclidean_norm self objective s).2)
    as [(Hnil & _)|(_ & first & s0 & final & left & Hfirst & Hloop & Hcase)].
  - rewrite <- Hrun. apply surjective_pairing.
  - discriminate Hnil.
  - destruct Hcase as [(Htrue & _)|(_ & Hfalse & ->)]; [discriminate Htrue|].
    exists first, s0, final. auto.
Defined.

(** *** The tentative update *)

(** C1, at the failing input.  [QuadraticObjective] at [x_old = 3] has
    [df/dx = 4]; the scaling parameter is 2 and the step size 1/4.  The
    docstring of [SteepestDescent] and the claim have the update write
    [x_old - descent_amount * scale^2 * df/dx]; the loop body multiplies the
    gradient by the scaling parameter once, and writes
    [x_old - descent_amount * scale * df/dx], for [SteepestDescent]
    (descent amount 1/4) and for [FixedStepDescent] (descent amount
    [1/4 / 8 = 1/32]) alike. *)
Theorem tentative_update_scales_once :
  let objective := QuadraticObjective 0 in
  let cur_res := result_at objective (qc 3 1) in
  let tol := Scalar (qc 1 100000000) in
  let X := qc 2 1 in
  let x_old := qc 3 1 in
  let dfdx := qc 4 1 in
  let written (self : Optimizer) :=
    value ((iteration euclidean_norm self objective
              (fix_scale self (dvars objective)) cur_res (free_at x_old)).2 0%nat) in
  let amount (self : Optimizer) :=
    grad_y ← kmul (fix_scale self (dvars objective)) (gradient cur_res);
    kget (descent_amount euclidean_norm self grad_y) 0%nat in
  let steepest := descent SteepestDescent tol 1 (qc 1 4) (Scalar X) None in
  let fixed := descent FixedStepDescent tol 1 (qc 1 4) (Scalar X) None in
  kget (design_variables cur_res) 0%nat = Ok x_old
  ∧ kget (gradient cur_res) 0%nat = Ok dfdx
  ∧ amount steepest = Ok (qc 1 4)
  ∧ written steepest = (x_old - qc 1 4 * X * dfdx)%Qc
  ∧ written steepest ≠ (x_old - qc 1 4 * (X * X) * dfdx)%Qc
  ∧ amount fixed = Ok (qc 1 32)
  ∧ written fixed = (x_old - qc 1 32 * X * dfdx)%Qc
  ∧ written fixed ≠ (x_old - qc 1 32 * (X * X) * dfdx)%Qc.
Proof. split_and!; by_compute. Qed.

(** *** The line search *)

(** C7, at the failing input.  The search interval runs from [x = 1],
    where the gradient of [QuadraticObjective] vanishes, to [x = 2]: the
    direction [d] is 1, not zero, and the start target [-d . gradient(start)]
    is 0, which is not strictly positive.  The claim (and the docstring,
    for which the start target of a descent direction is positive) has
    [find] fail; the guard [targets[0] < 0] lets 0 through and [find]
    returns a result. *)
Theorem find_accepts_zero_start_target :
  let objective := QuadraticObjective 0 in
  let start := result_at objective (qc 1 1) in
  let end_ := result_at objective (qc 2 1) in
  let self := {| rel_tol := qc 1 2; ls_max_iter := 1 |} in
  let d := ksub (design_variables end_) (design_variables start) in
  d = Ok [(0%nat, qc 1 1)]
  ∧ euclidean_norm [(0%nat, qc 1 1)] ≠ 0%Qc
  ∧ Qcopp <$> (d ≫= λ d, kdot d (gradient start)) = Ok 0%Qc
  ∧ (find euclidean_norm self objective start end_ (free_at (qc 1 1))).1
    = Ok (result_at objective (qc 1 1)).
Proof. split_and!; by_compute. Qed.

(** *** Writes to the variables *)

Lemma clamp_same_bounds v v' q :
  low v' = low v → high v' = high v → clamp v' q = clamp v q.
Proof. unfold clamp. intros -> ->. reflexivity. Qed.

Lemma clamp_within_bounds v : within_bounds v → clamp v (value v) = value v.
Proof.
  intros [Hlo Hhi]. unfold clamp.
  destruct (low v) as [l|] eqn:El, (high v) as [h|] eqn:Eh;
    repeat case_decide; try reflexivity;
    try (apply Qcle_antisym; auto; fail).
Qed.

Lemma written_within_bounds v : within_bounds v → written v (value v) = v.
Proof.
  intros H. unfold written. rewrite (clamp_within_bounds _ H). by destruct v.
Qed.

Lemma written_same_bounds v v' q :
  low v' = low v → high v' = high v → written v' q = written v q.
Proof.
  intros Hl Hh. unfold written. rewrite Hl, Hh. f_equal.
  by apply clamp_same_bounds.
Qed.

Lemma same_bounds_refl s : same_bounds s s.
Proof. by intros y. Qed.

Lemma same_bounds_trans s1 s2 s3 :
  same_bounds s1 s2 → same_bounds s2 s3 → same_bounds s1 s3.
Proof.
  intros H12 H23 y. destruct (H12 y) as [<- <-]. apply H23.
Qed.

Lemma set_value_eq x q s :
  set_value x q s
  = (Ok tt, λ y, if decide (y = x) then written (s x) q else s y).
Proof. reflexivity. Qed.

Lemma compute_pure objective s r s' :
  compute objective s = (Ok r, s') → s' = s.
Proof. unfold compute. by intros [= _ ->]. Qed.

Section for_each_writes.
Context {A : Type} (key : A → var) (f : A → result Qc) (body : A → M store unit).
Context (Hbody : ∀ a s s', body a s = (Ok tt, s') →
                 ∃ q, f a = Ok q ∧ set_value (key a) q s = (Ok tt, s')).

(** A loop of writes [key a .value = f a]: the bounds stay, variables that
    are not written stay, and a written variable holds the value written
    to it, clamped. *)
Lemma for_each_writes l s s' :
  (∀ a a', a ∈ l → a' ∈ l → key a = key a' → f a = f a') →
  for_each l body s = (Ok tt, s') →
  same_bounds s s'
  ∧ unchanged_outside (key <$> l) s s'
  ∧ ∀ a, a ∈ l → ∃ q, f a = Ok q ∧ s' (key a) = written (s (key a)) q.
Proof.
  revert s. induction l as [|a l IH]; intros s Hfun H; simpl in H.
  - apply ret_Ok_inv in H as [_ ->].
    split_and!; [apply same_bounds_refl|done|intros a Ha; inversion Ha].
  - apply bind_Ok_inv in H as ([] & s1 & Ha & H).
    apply Hbody in Ha as (q & Hq & Ha).
    rewrite set_value_eq in Ha. injection Ha as <-.
    apply IH in H as (Hb & Hout & Hin);
      [|intros b b' Hb Hb'; apply Hfun; by right].
    assert (same_bounds s (λ y, if decide (y = key a)
                                then written (s (key a)) q else s y)) as Hb1.
    { intros y. case_decide; [subst y|]; done. }
    split_and!.
    + by eapply same_bounds_trans.
    + intros y Hy. rewrite fmap_cons in Hy.
      apply not_elem_of_cons in Hy as [Hya Hy].
      rewrite (Hout y Hy). by rewrite decide_False.
    + intros b Hb'. apply elem_of_cons in Hb' as [->|Hbl].
      * exists q. split; [done|].
        destruct (decide (key a ∈ key <$> l)) as [Hk|Hk].
        -- apply list_elem_of_fmap in Hk as (b & Hkb & Hbl').
           destruct (Hin b Hbl') as (q' & Hq' & Hs').
           assert (f a = f b) as Hab
             by (apply Hfun; [left|by right|done]).
           rewrite Hab, Hq' in Hq. injection Hq as ->.
           rewrite Hkb, Hs'. apply written_same_bounds; apply Hb1.
        -- rewrite (Hout _ Hk). by rewrite decide_True.
      * destruct (Hin b Hbl) as (q' & Hq' & ->). exists q'. split; [done|].
        apply written_same_bounds; apply Hb1.
Qed.
End for_each_writes.

Lemma unchanged_outside_refl xs s : unchanged_outside xs s s.
Proof. by intros y. Qed.

Lemma unchanged_outside_trans xs s1 s2 s3 :
  unchanged_outside xs s1 s2 → unchanged_outside xs s2 s3 →
  unchanged_outside xs s1 s3.
Proof. intros H12 H23 y Hy. rewrite (H23 y Hy). by apply H12. Qed.

Lemma keys_snapshot xs s : keys (snapshot xs s) = xs.
Proof.
  unfold keys, snapshot.
  induction xs as [|x xs IH]; [done|]. rewrite !fmap_cons. simpl. by f_equal.
Qed.

Section find_facts.
Context (objective : ObjectiveFunction) (start : ObjectiveFunctionResult).
Context (d : KeyedArray) (s : store).

Let ovars := snapshot (dvars objective) s.

Lemma probe_spec b s1 b' new_target new_res s2 :
  same_bounds s s1 →
  probe objective start ovars d b s1 = (Ok (b', new_target, new_res), s2) →
  same_bounds s s2
  ∧ unchanged_outside (dvars objective) s1 s2
  ∧ computed_on_line objective start d s new_res.
Proof.
  intros Hb H. unfold probe in H.
  destruct (steps b) as [s0 s1'], (targets b) as [t0 t1].
  set (new_step := ((s0 * t1 - s1' * t0) / (t1 - t0))%Qc) in H.
  apply bind_Ok_inv in H as ([] & sa & Hloop & H).
  apply bind_Ok_inv in H as (res & sb & Hres & H).
  apply bind_Ok_inv in H as (dg & sc & Hdg & H).
  apply lift_Ok_inv in Hdg as [_ ->].
  apply ret_Ok_inv in H as [[= -> -> ->] ->].
  pose proof (compute_pure _ _ _ _ Hres) as ->.
  unfold ovars in Hloop. rewrite keys_snapshot in Hloop.
  apply (for_each_writes id
           (λ x, start_x ← kget (design_variables start) x;
                 d_x ← kget d x;
                 Ok (start_x + new_step * d_x)%Qc)) in Hloop
    as (Hb' & Hout & Hin).
  - rewrite list_fmap_id in Hout.
    split_and!; [by eapply same_bounds_trans|done|].
    exists new_step, sa. split_and!; [by eapply same_bounds_trans| |done].
    intros x Hx. destruct (Hin x Hx) as (q & Hq & Hsa).
    apply rbind_Ok_inv in Hq as (start_x & Hsx & Hq).
    apply rbind_Ok_inv in Hq as (d_x & Hdx & [= <-]).
    exists start_x, d_x. split_and!; [done..|].
    simpl in Hsa. rewrite Hsa. simpl.
    by apply clamp_same_bounds; apply Hb.
  - intros x sx sx' Hx.
    apply bind_Ok_inv in Hx as (start_x & ? & Hsx & Hx).
    apply lift_Ok_inv in Hsx as [Hsx ->].
    apply bind_Ok_inv in Hx as (d_x & ? & Hdx & Hx).
    apply lift_Ok_inv in Hdx as [Hdx ->].
    exists (start_x + new_step * d_x)%Qc. split; [|done].
    by rewrite Hsx, Hdx.
  - intros x x' _ _ Hx. unfold id in Hx. by subst.
Qed.

Lemma search_spec left tol :
  ∀ b new_target new_res s1 r s2,
    same_bounds s s1 →
    unchanged_outside (dvars objective) s s1 →
    computed_on_line objective start d s new_res →
    search objective start left ovars d tol b new_target new_res s1 = (Ok r, s2) →
    same_bounds s s2
    ∧ unchanged_outside (dvars objective) s s2
    ∧ computed_on_line objective start d s r.
Proof.
  induction left as [|left IH]; intros b nt nr s1 r s2 Hb Hout Hline H; simpl in H.
  - apply ret_Ok_inv in H as [-> ->]. done.
  - case_decide.
    + apply bind_Ok_inv in H as ([[b' nt'] nr'] & sa & Hprobe & H).
      apply probe_spec in Hprobe as (Hb' & Hout' & Hline'); [|done].
      eapply IH; [| |exact Hline'|exact H]; [done|].
      by eapply unchanged_outside_trans.
    + apply ret_Ok_inv in H as [-> ->]. done.
Qed.

Lemma restore_spec s1 s2 :
  (∀ x, x ∈ dvars objective → within_bounds (s x)) →
  same_bounds s s1 →
  unchanged_outside (dvars objective) s s1 →
  for_each ovars (λ kv, set_value kv.1 kv.2) s1 = (Ok tt, s2) →
  ∀ x, s2 x = s x.
Proof.
  intros Hwf Hb Hout H.
  apply (for_each_writes fst (λ kv, Ok kv.2)) in H as (Hb' & Hout' & Hin).
  - fold (keys ovars) in Hout'. unfold ovars in Hout'.
    rewrite keys_snapshot in Hout'.
    intros x. destruct (decide (x ∈ dvars objective)) as [Hx|Hx].
    + destruct (Hin (x, value (s x))) as (q & [= <-] & Hs2).
      { unfold ovars, snapshot. apply list_elem_of_fmap. eauto. }
      simpl in Hs2. rewrite Hs2.
      rewrite (written_same_bounds (s x)) by apply Hb.
      by apply written_within_bounds, Hwf.
    + rewrite (Hout' x Hx). by apply Hout.
  - intros kv sa sb Hkv. exists kv.2. done.
  - intros kv kv' Hkv Hkv' Hk.
    unfold ovars, snapshot in Hkv, Hkv'.
    apply list_elem_of_fmap in Hkv as (x & -> & _).
    apply list_elem_of_fmap in Hkv' as (x' & -> & _).
    simpl in *. by subst.
Qed.
End find_facts.

(** C8.  When [find] returns, every variable object is as it was on entry:
    the probing assignments are undone.  The result returned is [end], or a
    result computed at a point [start + step * d] of the search line; it
    carries the variable values and the gradient of that point, not those
    of the restored variables. *)
Theorem find_restores_variables norm self objective start end_ s r s' :
  (∀ x, x ∈ dvars objective → within_bounds (s x)) →
  find norm self objective start end_ s = (Ok r, s') →
  (∀ x, s' x = s x)
  ∧ (r = end_
     ∨ ∃ d, ksub (design_variables end_) (design_variables start) = Ok d
            ∧ computed_on_line objective start d s r).
Proof.
  intros Hwf H. unfold find in H.
  apply bind_Ok_inv in H as (s0 & ? & [= <- <-] & H).
  fold (snapshot (dvars objective) s) in H.
  apply bind_Ok_inv in H as (d & ? & Hd & H).
  apply lift_Ok_inv in Hd as [Hd ->].
  case_decide; [discriminate|].
  apply bind_Ok_inv in H as (ds & ? & Hds & H).
  apply lift_Ok_inv in Hds as [_ ->].
  apply bind_Ok_inv in H as (de & ? & Hde & H).
  apply lift_Ok_inv in Hde as [_ ->].
  case_decide; [discriminate|].
  apply bind_Ok_inv in H as (res & s1 & Hres & H).
  apply bind_Ok_inv in H as ([] & s2 & Hrestore & H).
  apply ret_Ok_inv in H as [-> ->].
  assert (same_bounds s s1 ∧ unchanged_outside (dvars objective) s s1
          ∧ (res = end_ ∨ computed_on_line objective start d s res))
    as (Hb & Hout & Hres').
  { repeat case_decide.
    - apply ret_Ok_inv in Hres as [-> ->].
      split_and!; [apply same_bounds_refl|apply unchanged_outside_refl|by left].
    - apply ret_Ok_inv in Hres as [-> ->].
      split_and!; [apply same_bounds_refl|apply unchanged_outside_refl|by left].
    - apply bind_Ok_inv in Hres as ([[b nt] nr] & sa & Hprobe & Hres).
      apply probe_spec in Hprobe as (Hb & Hout & Hline);
        [|apply same_bounds_refl].
      eapply search_spec in Hres as (Hb' & Hout' & Hline'); eauto. }
  split.
  - by eapply restore_spec.
  - destruct Hres' as [->|Hline]; [by left|right; eauto].
Qed.

(** The first search of [test_find] in [tests/optimize/test_method.py]:
    from [x = -3] to [x = 3] the search returns the result at [x = 1], and
    the variable is back at -3. *)
Lemma find_restores_variables_witness :
  let self := {| rel_tol := qc 1 100000000; ls_max_iter := 1000 |} in
  let objective := QuadraticObjective 0 in
  let start := result_at objective (qc (-3) 1) in
  let end_ := result_at objective (qc 3 1) in
  let s := free_at (qc (-3) 1) in
  let r := result_at objective (qc 1 1) in
  let s' := (find euclidean_norm self objective start end_ s).2 in
  (find euclidean_norm self objective start end_ s).1 = Ok r
  ∧ (∀ x, s' x = s x)
  ∧ (r = end_
     ∨ ∃ d, ksub (design_variables end_) (design_variables start) = Ok d
            ∧ computed_on_line objective start d s r).
Proof.
  intros self objective start end_ s r s'.
  assert ((find euclidean_norm self objective start end_ s).1 = Ok r)
    as Hrun by by_compute.
  split; [exact Hrun|].
  apply (find_restores_variables euclidean_norm self objective start end_ s r s').
  - intros x _. split; intros q Hq; discriminate Hq.
  - rewrite <- Hrun. apply surjective_pairing.
Defined.

(** *** What the loop body writes, in general *)

Lemma kget_cons k v (a : KeyedArray) x :
  kget ((k, v) :: a) x = if decide (k = x) then Ok v else kget a x.
Proof.
  unfold kget. simpl. case_decide; [done|].
  by destruct (list_find (λ kv, kv.1 = x) a) as [[i [k' v']]|].
Qed.





(** The part of C7 that holds: a search interval whose start target is
    negative is refused, and no variable is written. *)
Lemma find_rejects_negative_start_target norm self objective start end_ s
    d d_dot_start d_dot_end :
  ksub (design_variables end_) (design_variables start) = Ok d →
  norm d ≠ 0%Qc →
  kdot d (gradient start) = Ok d_dot_start →
  kdot d (gradient end_) = Ok d_dot_end →
  (- d_dot_start < 0)%Qc →
  find norm self objective start end_ s
  = (Raise (ValueError "The defined search interval must be a descent direction."), s).
Proof.
  intros Hd Hnorm Hs He Hneg. unfold find.
  unfold_monad. rewrite Hd. simpl.
  rewrite decide_False by done. rewrite Hs, He. simpl.
  by rewrite decide_True.
Qed.


(** *** has_converged, the negative answer *)

Lemma has_converged_loop_cons abs_tol grad x rest :
  has_converged_loop abs_tol grad (x :: rest)
  = (g ← kget grad x;
     tol ← match tolerance abs_tol x with
           | Some t => Ok t
           | None => Raise (KeyError "Absolute tolerance not set for design variable")
           end;
     if decide (tol < Qcabs g)%Qc then Ok false
     else has_converged_loop abs_tol grad rest).
Proof. by destruct abs_tol. Qed.

Lemma has_converged_loop_false abs_tol grad xs :
  has_converged_loop abs_tol grad xs = Ok false ↔
  ∃ pre x post g tol,
    xs = pre ++ x :: post
    ∧ (∀ y, y ∈ pre → ∃ gy ty, kget grad y = Ok gy
                               ∧ tolerance abs_tol y = Some ty
                               ∧ (Qcabs gy <= ty)%Qc)
    ∧ kget grad x = Ok g ∧ tolerance abs_tol x = Some tol
    ∧ (tol < Qcabs g)%Qc.
Proof.
  induction xs as [|x0 xs IH].
  - split; [discriminate|]. intros (pre & x & post & ? & ? & Hxs & _).
    by destruct pre.
  - rewrite has_converged_loop_cons. split.
    + intros H.
      destruct (kget grad x0) as [g0|] eqn:Hg0; [|discriminate].
      destruct (tolerance abs_tol x0) as [t0|] eqn:Ht0; [|discriminate].
      simpl in H. destruct (decide (t0 < Qcabs g0)%Qc) as [Hlt|Hle].
      * exists [], x0, xs, g0, t0. split_and!; [done| |done..].
        intros y Hy. by apply elem_of_nil in Hy.
      * apply IH in H
          as (pre & x & post & g & tol & -> & Hpre & Hg & Htol & Hlt).
        exists (x0 :: pre), x, post, g, tol. split_and!; [done| |done..].
        intros y Hy. apply elem_of_cons in Hy as [->|Hy]; [|by apply Hpre].
        exists g0, t0. split_and!; [done..|]. by apply Qcnot_lt_le.
    + intros (pre & x & post & g & tol & Hxs & Hpre & Hg & Htol & Hlt).
      destruct pre as [|y pre]; simpl in Hxs; injection Hxs as -> ->.
      * rewrite Hg, Htol. simpl. by rewrite decide_True.
      * destruct (Hpre y) as (gy & ty & -> & -> & Hle); [left|]. simpl.
        rewrite decide_False by (by apply Qcle_not_lt).
        apply IH. exists pre, x, post, g, tol. split_and!; [done| |done..].
        intros z Hz. apply Hpre. by right.
Qed.

(** X21.  The two answers of [has_converged].  It answers [True]
    exactly when every design variable of the result has a gradient entry
    and a tolerance, and is within it: [|gradient| <= tolerance].  It
    answers [False] exactly when, in the order of the result's design
    variables, there is a first variable whose gradient exceeds its
    tolerance and every variable before it has a gradient entry and a
    tolerance, and is within it; nothing is asked of the variables after
    it. *)
Theorem has_converged_answers self res :
  (has_converged self res = Ok true ↔
   ∀ x, x ∈ keys (design_variables res) →
        ∃ g tol, kget (gradient res) x = Ok g
                 ∧ tolerance (abs_tol self) x = Some tol
                 ∧ (Qcabs g <= tol)%Qc)
  ∧ (has_converged self res = Ok false ↔
     ∃ pre x post g tol,
       keys (design_variables res) = pre ++ x :: post
       ∧ (∀ y, y ∈ pre → ∃ gy ty, kget (gradient res) y = Ok gy
                                  ∧ tolerance (abs_tol self) y = Some ty
                                  ∧ (Qcabs gy <= ty)%Qc)
       ∧ kget (gradient res) x = Ok g
       ∧ tolerance (abs_tol self) x = Some tol
       ∧ (tol < Qcabs g)%Qc).
Proof.
  unfold has_converged. split.
  - apply has_converged_loop_true.
  - apply has_converged_loop_false.
Qed.

(** *** The line search: refusals and the accepted end *)

(** X23.  The two refusals of [find].  An interval whose start and end
    coincide ([d.norm() == 0]) and an interval whose start target
    [-d . gradient(start)] is negative are refused with [ValueError];
    neither writes a variable. *)
Theorem find_refuses_bad_interval norm self objective start end_ s d :
  ksub (design_variables end_) (design_variables start) = Ok d →
  (norm d = 0%Qc →
   find norm self objective start end_ s
   = (Raise (ValueError "The start and end of the search interval must be different."),
      s))
  ∧ (norm d ≠ 0%Qc →
     ∀ d_dot_start d_dot_end,
       kdot d (gradient start) = Ok d_dot_start →
       kdot d (gradient end_) = Ok d_dot_end →
       (- d_dot_start < 0)%Qc →
       find norm self objective start end_ s
       = (Raise (ValueError "The defined search interval must be a descent direction."),
          s)).
Proof.
  intros Hd. split.
  - intros Hnorm. unfold find. unfold_monad. rewrite Hd. simpl.
    by rewrite decide_True.
  - intros Hnorm ds de Hs He Hneg.
    by eapply find_rejects_negative_start_target.
Qed.

(** The last two searches of [test_find] in
    [tests/optimize/test_method.py]: from [x = -1] back to [x = -3], and
    from [x = -1] to itself. *)
Lemma find_refuses_bad_interval_witness :
  let self := {| rel_tol := qc 1 100000000; ls_max_iter := 1000 |} in
  let objective := QuadraticObjective 0 in
  let res_1 := result_at objective (qc (-3) 1) in
  let res_3 := result_at objective (qc (-1) 1) in
  let s := free_at (qc (-3) 1) in
  find euclidean_norm self objective res_3 res_3 s
  = (Raise (ValueError "The start and end of the search interval must be different."),
     s)
  ∧ find euclidean_norm self objective res_3 res_1 s
    = (Raise (ValueError "The defined search interval must be a descent direction."),
       s).
Proof.
  intros self objective res_1 res_3 s. split.
  - apply (proj1 (find_refuses_bad_interval euclidean_norm self objective
                    res_3 res_3 s [(0%nat, qc 0 1)] ltac:(by_compute))).
    by_compute.
  - apply (proj2 (find_refuses_bad_interval euclidean_norm self objective
                    res_3 res_1 s [(0%nat, qc (-2) 1)] ltac:(by_compute))
             ltac:(by_compute) (qc 8 1) (qc 16 1)).
    + by_compute.
    + by_compute.
    + by_compute.
Defined.

Lemma restore_returns (ovars : KeyedArray) (s : store) :
  ∃ s', for_each ovars (λ kv, set_value kv.1 kv.2) s = (Ok tt, s').
Proof.
  revert s. induction ovars as [|kv ovars IH]; intros s; [by eexists|].
  simpl. rewrite (bind_Ok _ _ _ _ _ (set_value_eq _ _ _)). apply IH.
Qed.

(** X24.  When the target at the end of the interval is positive, or
    within the tolerance [rel_tol * |target(start)|], [find] takes the
    whole step: it returns [end] itself, and the variables, which it has
    only rewritten with their own values, are as they were. *)
Theorem find_accepts_end norm self objective start end_ s
    d d_dot_start d_dot_end :
  (∀ x, x ∈ dvars objective → within_bounds (s x)) →
  ksub (design_variables end_) (design_variables start) = Ok d →
  norm d ≠ 0%Qc →
  kdot d (gradient start) = Ok d_dot_start →
  kdot d (gradient end_) = Ok d_dot_end →
  ¬ (- d_dot_start < 0)%Qc →
  (0 < - d_dot_end)%Qc
  ∨ (Qcabs (- d_dot_end) < rel_tol self * Qcabs (- d_dot_start))%Qc →
  ∃ s', find norm self objective start end_ s = (Ok end_, s')
        ∧ ∀ x, s' x = s x.
Proof.
  intros Hwf Hd Hnorm Hs He Hpos Hend.
  destruct (restore_returns (snapshot (dvars objective) s) s) as [s' Hs'].
  exists s'. split.
  - unfold find. unfold_monad. fold (snapshot (dvars objective) s).
    rewrite Hd. simpl. rewrite decide_False by done.
    rewrite Hs, He. simpl. rewrite decide_False by done.
    destruct Hend as [Hend|Hend].
    + rewrite decide_True by done. by rewrite Hs'.
    + case_decide; [by rewrite Hs'|].
      rewrite decide_True by done. by rewrite Hs'.
  - eapply restore_spec; [done|apply same_bounds_refl|
                          apply unchanged_outside_refl|done].
Qed.

(** The second search of [test_find]: from [x = -3] to [x = -1] the
    minimum is not bracketed, and the search accepts the end. *)
Lemma find_accepts_end_witness :
  let self := {| rel_tol := qc 1 100000000; ls_max_iter := 1000 |} in
  let objective := QuadraticObjective 0 in
  let res_1 := result_at objective (qc (-3) 1) in
  let res_3 := result_at objective (qc (-1) 1) in
  let s := free_at (qc (-3) 1) in
  ∃ s', find euclidean_norm self objective res_1 res_3 s = (Ok res_3, s')
        ∧ ∀ x, s' x = s x.
Proof.
  intros self objective res_1 res_3 s.
  apply (find_accepts_end euclidean_norm self objective res_1 res_3 s
           [(0%nat, qc 2 1)] (qc (-16) 1) (qc (-8) 1)).
  - intros x _. split; intros q Hq; discriminate Hq.
  - by_compute.
  - by_compute.
  - by_compute.
  - by_compute.
  - by_compute.
  - left. by_compute.
Defined.

(** *** optimize from a converged start *)

Lemma descend_converged norm self objective left scale cur s :
  has_converged self cur = Ok true →
  descend norm self objective left scale cur s = (Ok (cur, left), s).
Proof.
  intros H. destruct left; simpl; unfold_monad; by rewrite H.
Qed.

(** X25.  When the convergence test already holds at the first result,
    [optimize] returns [True] without a single descent step: no variable
    is written, whatever [max_iter], the step size and the line search
    are. *)
Theorem optimize_at_converged_start norm self objective s first :
  dvars objective ≠ [] →
  compute objective s = (Ok first, s) →
  has_converged self first = Ok true →
  optimize norm self objective s = (Ok (Some true), s).
Proof.
  intros Hne Hfirst Hconv. unfold optimize.
  rewrite decide_False by (by destruct (dvars objective)).
  rewrite (bind_Ok _ _ _ _ _ Hfirst).
  rewrite (bind_Ok _ _ _ _ _ (descend_converged _ _ _ _ _ _ _ Hconv)).
  unfold_monad. by rewrite Hconv.
Qed.

(** [QuadraticObjective] started at its minimum [x = 1]. *)
Lemma optimize_at_converged_start_witness :
  let self := descent SteepestDescent (Scalar (qc 1 100000000)) 1000 (qc 1 4)
                (Scalar 1%Qc) None in
  let objective := QuadraticObjective 0 in
  optimize euclidean_norm self objective (free_at (qc 1 1))
  = (Ok (Some true), free_at (qc 1 1)).
Proof.
  intros self objective.
  apply (optimize_at_converged_start euclidean_norm self objective
           (free_at (qc 1 1)) (result_at objective (qc 1 1))).
  - discriminate.
  - reflexivity.
  - by_compute.
Defined.



(** *** What optimize writes *)

Lemma written_stays_within v v0 q :
  low v = low v0 → high v = high v0 → within_bounds v0 →
  within_bounds (written v q).
Proof.
  intros Hl Hh [Hlo Hhi]. unfold within_bounds, written, clamp. simpl.
  rewrite Hl, Hh.
  destruct (low v0) as [l|] eqn:El, (high v0) as [h|] eqn:Eh;
    repeat case_decide; split; intros b [= <-];
    try apply Qcle_refl; try done;
    try (by apply Qclt_le_weak, Qcnot_le_lt);
    try (by eapply Qcle_trans; [apply Hlo|apply Hhi]).
Qed.

(** The invariant carried through [optimize], relative to the store [s0]
    on entry: the bounds of all variables and the variables outside [xs]
    are as in [s0], and if every variable was within its bounds then
    every variable still is.  It survives any change to the values of [xs]
    that is followed by a write to each of them. *)
Lemma writes_keep_invariant (xs : list var) (s0 s s1 s' : store) :
  (same_bounds s0 s ∧ unchanged_outside xs s0 s
   ∧ ((∀ x, within_bounds (s0 x)) → ∀ x, within_bounds (s x))) →
  same_bounds s s1 → unchanged_outside xs s s1 →
  same_bounds s1 s' → unchanged_outside xs s1 s' →
  (∀ x, x ∈ xs → ∃ q, s' x = written (s1 x) q) →
  same_bounds s0 s' ∧ unchanged_outside xs s0 s'
  ∧ ((∀ x, within_bounds (s0 x)) → ∀ x, within_bounds (s' x)).
Proof.
  intros (Hb0 & Hout0 & Hwf0) Hb1 Hout1 Hb Hout Hin.
  assert (same_bounds s0 s1) as Hb01 by (by eapply same_bounds_trans).
  split_and!.
  - by eapply same_bounds_trans.
  - eapply unchanged_outside_trans; [|done].
    by eapply unchanged_outside_trans.
  - intros Hwf x. destruct (decide (x ∈ xs)) as [Hx|Hx].
    + destruct (Hin x Hx) as [q ->].
      apply (written_stays_within _ (s0 x)); [apply Hb01..|apply Hwf].
    + rewrite (Hout x Hx), (Hout1 x Hx). by apply Hwf0.
Qed.

Lemma assign_loop_keeps_invariant (xs : list var) (f : var → result Qc)
    (body : var → M store unit) (s0 s s' : store) :
  (∀ x sa sb, body x sa = (Ok tt, sb) →
     ∃ q, f x = Ok q ∧ set_value x q sa = (Ok tt, sb)) →
  for_each xs body s = (Ok tt, s') →
  (same_bounds s0 s ∧ unchanged_outside xs s0 s
   ∧ ((∀ x, within_bounds (s0 x)) → ∀ x, within_bounds (s x))) →
  same_bounds s0 s' ∧ unchanged_outside xs s0 s'
  ∧ ((∀ x, within_bounds (s0 x)) → ∀ x, within_bounds (s' x)).
Proof.
  intros Hbody H Hinv.
  apply (for_each_writes id f body Hbody) in H as (Hb & Hout & Hin).
  - rewrite list_fmap_id in Hout.
    apply (writes_keep_invariant xs s0 s s s');
      [done|apply same_bounds_refl|apply unchanged_outside_refl|done..|].
    intros x Hx. destruct (Hin x Hx) as (q & _ & Hq). by exists q.
  - intros x x' _ _ Hxx. unfold id in Hxx. by subst.
Qed.

Lemma find_keeps_invariant norm self objective start end_ s0 s r s' :
  find norm self objective start end_ s = (Ok r, s') →
  (same_bounds s0 s ∧ unchanged_outside (dvars objective) s0 s
   ∧ ((∀ x, within_bounds (s0 x)) → ∀ x, within_bounds (s x))) →
  same_bounds s0 s' ∧ unchanged_outside (dvars objective) s0 s'
  ∧ ((∀ x, within_bounds (s0 x)) → ∀ x, within_bounds (s' x)).
Proof.
  intros H Hinv. unfold find in H.
  apply bind_Ok_inv in H as (? & ? & [= <- <-] & H).
  fold (snapshot (dvars objective) s) in H.
  apply bind_Ok_inv in H as (d & ? & Hd & H).
  apply lift_Ok_inv in Hd as [Hd ->].
  case_decide; [discriminate|].
  apply bind_Ok_inv in H as (ds & ? & Hds & H).
  apply lift_Ok_inv in Hds as [_ ->].
  apply bind_Ok_inv in H as (de & ? & Hde & H).
  apply lift_Ok_inv in Hde as [_ ->].
  case_decide; [discriminate|].
  apply bind_Ok_inv in H as (res & s1 & Hres & H).
  apply bind_Ok_inv in H as ([] & s2 & Hrestore & H).
  apply ret_Ok_inv in H as [-> ->].
  assert (same_bounds s s1 ∧ unchanged_outside (dvars objective) s s1)
    as (Hb & Hout).
  { repeat case_decide.
    - apply ret_Ok_inv in Hres as [-> ->].
      split; [apply same_bounds_refl|apply unchanged_outside_refl].
    - apply ret_Ok_inv in Hres as [-> ->].
      split; [apply same_bounds_refl|apply unchanged_outside_refl].
    - apply bind_Ok_inv in Hres as ([[b nt] nr] & sa & Hprobe & Hres).
      apply probe_spec in Hprobe as (Hb & Hout & Hline);
        [|apply same_bounds_refl].
      eapply search_spec in Hres as (Hb' & Hout' & _); eauto. }
  apply (for_each_writes fst (λ kv, Ok kv.2)) in Hrestore
    as (Hb' & Hout' & Hin).
  - fold (keys (snapshot (dvars objective) s)) in Hout'.
    rewrite keys_snapshot in Hout'.
    apply (writes_keep_invariant (dvars objective) s0 s s1 s2); [done..|].
    intros x Hx. destruct (Hin (x, value (s x))) as (q & _ & Hq).
    { unfold snapshot. apply list_elem_of_fmap. eauto. }
    by exists q.
  - intros kv sa sb Hkv. by exists kv.2.
  - intros kv kv' Hkv Hkv' Hk. unfold snapshot in Hkv, Hkv'.
    apply list_elem_of_fmap in Hkv as (x & -> & _).
    apply list_elem_of_fmap in Hkv' as (x' & -> & _).
    simpl in *. by subst.
Qed.

Lemma iteration_keeps_invariant norm self objective scale cur s0 s r s' :
  iteration norm self objective scale cur s = (Ok r, s') →
  (same_bounds s0 s ∧ unchanged_outside (dvars objective) s0 s
   ∧ ((∀ x, within_bounds (s0 x)) → ∀ x, within_bounds (s x))) →
  same_bounds s0 s' ∧ unchanged_outside (dvars objective) s0 s'
  ∧ ((∀ x, within_bounds (s0 x)) → ∀ x, within_bounds (s' x)).
Proof.
  intros H Hinv. unfold iteration in H.
  apply bind_Ok_inv in H as (grad_y & ? & Hy & H).
  apply lift_Ok_inv in Hy as [_ ->].
  apply bind_Ok_inv in H as (update & ? & Hup & H).
  apply lift_Ok_inv in Hup as [_ ->].
  apply bind_Ok_inv in H as ([] & s1 & Hloop & H).
  apply bind_Ok_inv in H as (next & s2 & Hnext & H).
  pose proof (compute_pure _ _ _ _ Hnext) as ->.
  assert (same_bounds s0 s1 ∧ unchanged_outside (dvars objective) s0 s1
          ∧ ((∀ x, within_bounds (s0 x)) → ∀ x, within_bounds (s1 x)))
    as Hinv1.
  { apply (assign_loop_keeps_invariant (dvars objective)
             (λ x, cur_x ← kget (design_variables cur) x;
                   update_x ← kget update x;
                   Ok (cur_x - update_x)%Qc) _ s0 s s1) in Hloop; [done| |done].
    intros y sa sb Hy'.
    apply bind_Ok_inv in Hy' as (cur_y & ? & Hcy & Hy').
    apply lift_Ok_inv in Hcy as [Hcy ->].
    apply bind_Ok_inv in Hy' as (up_y & ? & Huy & Hy').
    apply lift_Ok_inv in Huy as [Huy ->].
    exists (cur_y - up_y)%Qc. split; [|done]. by rewrite Hcy, Huy. }
  destruct (line_search self) as [ls|].
  - apply bind_Ok_inv in H as (line_res & s3 & Hfind & H).
    apply bind_Ok_inv in H as ([] & s4 & Hloop' & H).
    apply ret_Ok_inv in H as [-> ->].
    apply (find_keeps_invariant _ _ _ _ _ s0) in Hfind; [|done].
    apply (assign_loop_keeps_invariant (dvars objective)
             (λ x, kget (design_variables line_res) x) _ s0 s3 s4) in Hloop';
      [done| |done].
    intros y sa sb Hy'.
    apply bind_Ok_inv in Hy' as (line_y & ? & Hly & Hy').
    apply lift_Ok_inv in Hly as [Hly ->]. by exists line_y.
  - by apply ret_Ok_inv in H as [-> ->].
Qed.

Lemma descend_keeps_invariant norm self objective left scale cur s0 s r s' :
  descend norm self objective left scale cur s = (Ok r, s') →
  (same_bounds s0 s ∧ unchanged_outside (dvars objective) s0 s
   ∧ ((∀ x, within_bounds (s0 x)) → ∀ x, within_bounds (s x))) →
  same_bounds s0 s' ∧ unchanged_outside (dvars objective) s0 s'
  ∧ ((∀ x, within_bounds (s0 x)) → ∀ x, within_bounds (s' x)).
Proof.
  revert cur s. induction left as [|left IH]; intros cur s H Hinv; simpl in H.
  - apply bind_Ok_inv in H as (c & ? & Hc & H).
    apply lift_Ok_inv in Hc as [_ ->].
    by destruct c; apply ret_Ok_inv in H as [_ ->].
  - apply bind_Ok_inv in H as (c & ? & Hc & H).
    apply lift_Ok_inv in Hc as [_ ->].
    destruct c; [by apply ret_Ok_inv in H as [_ ->]|].
    apply bind_Ok_inv in H as (next & s1 & Hnext & H).
    apply (iteration_keeps_invariant _ _ _ _ _ s0) in Hnext; [|done].
    by eapply IH.
Qed.

(** X26.  What a completed [optimize] can have done to the variables.
    It writes design variables of the objective only: every other
    variable is as it was.  It changes no bound.  And if every variable
    was within its bounds on entry, every variable is within its bounds on
    return: no descent step and no line search leaves a variable outside
    them. *)
Theorem optimize_keeps_bounds norm self objective s r s' :
  optimize norm self objective s = (Ok r, s') →
  same_bounds s s'
  ∧ unchanged_outside (dvars objective) s s'
  ∧ ((∀ x, within_bounds (s x)) → ∀ x, within_bounds (s' x)).
Proof.
  intros H. unfold optimize in H.
  assert (same_bounds s s ∧ unchanged_outside (dvars objective) s s
          ∧ ((∀ x, within_bounds (s x)) → ∀ x, within_bounds (s x))) as Hinv
    by (split_and!; [apply same_bounds_refl|apply unchanged_outside_refl|done]).
  case_decide.
  - by apply ret_Ok_inv in H as [_ ->].
  - apply bind_Ok_inv in H as (first & s1 & Hfirst & H).
    pose proof (compute_pure _ _ _ _ Hfirst) as ->.
    apply bind_Ok_inv in H as ([final left] & s2 & Hloop & H).
    apply bind_Ok_inv in H as (c & ? & Hc & H).
    apply lift_Ok_inv in Hc as [_ ->].
    apply ret_Ok_inv in H as [_ ->].
    by eapply descend_keeps_invariant.
Qed.

(** [QuadraticObjective] over the variable 0, held in [[0, 2]] and
    started at 2, with the step size 3/4: the first step, to
    [2 - 3/4 * 2 = 1/2], stays inside the bounds. *)
Lemma optimize_keeps_bounds_witness :
  let self := descent SteepestDescent (Scalar (qc 1 100000000)) 2 (qc 3 4)
                (Scalar 1%Qc) None in
  let objective := QuadraticObjective 0 in
  let s : store := λ _, {| value := qc 2 1; low := Some (qc 0 1);
                           high := Some (qc 2 1) |} in
  let run := optimize euclidean_norm self objective s in
  run.1 = Ok (Some false)
  ∧ same_bounds s run.2
  ∧ unchanged_outside (dvars objective) s run.2
  ∧ ((∀ x, within_bounds (s x)) → ∀ x, within_bounds (run.2 x)).
Proof.
  intros self objective s run.
  assert (run.1 = Ok (Some false)) as Hrun by by_compute.
  split; [exact Hrun|].
  apply (optimize_keeps_bounds euclidean_norm self objective s (Some false)).
  rewrite <- Hrun. apply surjective_pairing.
Defined.


(** *** Construction *)

Lemma kget_fmap (g : var → Qc) (xs : list var) x v :
  kget ((λ x, (x, g x)) <$> xs) x = Ok v → v = g x.
Proof.
  induction xs as [|x0 xs IH]; [discriminate|].
  rewrite fmap_cons, kget_cons. case_decide as Hx; [|done].
  subst x0. by intros [= <-].
Qed.

Lemma set_abs_tol_Ok value v :
  set_abs_tol value = Ok v ↔
  v = value ∧ ∀ x t, tolerance value x = Some t → (0 <= t)%Qc.
Proof.
  unfold set_abs_tol. destruct value as [q|d]; simpl.
  - case_bool_decide as Hq; split.
    + discriminate.
    + intros [_ H]. exfalso. revert Hq. apply Qcle_not_lt. by apply (H 0%nat).
    + intros [= <-]. split; [done|]. intros _ t [= <-]. by apply Qcnot_lt_le.
    + by intros [-> _].
  - case_bool_decide as Hd; split.
    + discriminate.
    + intros [_ H]. exfalso. destruct Hd as (x & t & Ht & Hneg).
      revert Hneg. apply Qcle_not_lt. by apply (H x).
    + intros [= <-]. split; [done|]. intros x t Ht.
      apply Qcnot_lt_le. intros Hneg. apply Hd. by exists x, t.
    + by intros [-> _].
Qed.

Lemma set_max_iter_Ok n p :
  set_max_iter n = Ok p ↔ ∃ z, n = Int z ∧ (1 <= z)%Z ∧ p = Z.to_pos z.
Proof.
  unfold set_max_iter. destruct n as [z|q].
  - case_bool_decide; split.
    + discriminate.
    + intros (z' & [= <-] & Hz & _). lia.
    + intros [= <-]. exists z. split_and!; [done|lia|done].
    + by intros (z' & [= <-] & _ & ->).
  - split; [discriminate|]. by intros (z & [=] & _).
Qed.

Lemma set_step_size_Ok value v :
  set_step_size value = Ok v ↔ v = value ∧ (0 < value)%Qc.
Proof.
  unfold set_step_size. case_bool_decide as Hv; split.
  - discriminate.
  - intros [_ H]. by apply Qclt_not_le in H.
  - intros [= <-]. split; [done|]. by apply Qcnot_le_lt.
  - by intros [-> _].
Qed.

Lemma set_scale_Ok value v :
  set_scale value = Ok v ↔
  v = value ∧ match value with
              | Scalar q => (0 < q)%Qc
              | Dict d => ∀ x X, d !! x = Some X → (0 < X)%Qc
              end.
Proof.
  unfold set_scale. destruct value as [q|d]; simpl.
  - case_bool_decide as Hq; split.
    + discriminate.
    + intros [_ H]. by apply Qclt_not_le in H.
    + intros [= <-]. split; [done|]. by apply Qcnot_le_lt.
    + by intros [-> _].
  - case_bool_decide as Hd; split.
    + discriminate.
    + intros [_ H]. exfalso. destruct Hd as (x & X & HX & Hle).
      revert Hle. apply Qclt_not_le. by apply (H x).
    + intros [= <-]. split; [done|]. intros x X HX.
      apply Qcnot_le_lt. intros Hle. apply Hd. by exists x, X.
    + by intros [-> _].
Qed.

Lemma set_rel_tol_Ok value v :
  set_rel_tol value = Ok v ↔ v = value ∧ (0 < value)%Qc ∧ (value < 1)%Qc.
Proof.
  unfold set_rel_tol.
  destruct (bool_decide_reflect (value <= 0)%Qc) as [H0|H0];
    destruct (bool_decide_reflect (1 <= value)%Qc) as [H1|H1]; simpl; split;
    try discriminate.
  - intros (_ & H & _). by apply Qclt_not_le in H.
  - intros (_ & H & _). by apply Qclt_not_le in H.
  - intros (_ & _ & H). by apply Qclt_not_le in H.
  - intros [= <-]. split_and!; [done|by apply Qcnot_le_lt..].
  - by intros [-> _].
Qed.

Lemma fix_scale_positive self :
  (∀ xs x Xx, kget (fix_scale self xs) x = Ok Xx → (0 < Xx)%Qc) ↔
  match scale self with
  | Scalar q => (0 < q)%Qc
  | Dict d => ∀ x X, d !! x = Some X → (0 < X)%Qc
  end.
Proof.
  split.
  - intros H. destruct (scale self) as [q|d] eqn:Hscale.
    + apply (H [0%nat] 0%nat). unfold fix_scale. by rewrite Hscale.
    + intros x X HX. apply (H [x] x). unfold fix_scale.
      rewrite Hscale. simpl. rewrite HX. simpl.
      rewrite kget_cons. by rewrite decide_True.
  - intros H xs x Xx Hx. apply kget_fmap in Hx as ->.
    destruct (scale self) as [q|d]; [done|].
    destruct (d !! x) as [X|] eqn:HX; simpl; [by eapply H|done].
Qed.

(** X28.  [SteepestDescent(abs_tol, max_iter, step_size, scale,
    line_search)], and [FixedStepDescent] alike, returns an optimizer
    exactly when every tolerance is non-negative, [max_iter] is an [int]
    of at least 1, the step size is positive and every scaling parameter
    is positive; the optimizer holds the arguments.  It follows that the
    scaling parameters [optimize] fixes, the default 1 for a variable the
    dictionary does not name included, are all positive. *)
Theorem Optimizer_init_invariants k tol n alpha X ls self :
  Optimizer_init k tol n alpha X ls = Ok self ↔
  (∀ x t, tolerance tol x = Some t → (0 <= t)%Qc)
  ∧ (∃ z, n = Int z ∧ (1 <= z)%Z ∧ max_iter self = Z.to_pos z)
  ∧ (0 < alpha)%Qc
  ∧ (∀ xs x Xx, kget (fix_scale self xs) x = Ok Xx → (0 < Xx)%Qc)
  ∧ kind self = k ∧ abs_tol self = tol ∧ step_size self = alpha
  ∧ scale self = X ∧ line_search self = ls.
Proof.
  unfold Optimizer_init. split.
  - intros H.
    apply rbind_Ok_inv in H as (tol' & Htol & H).
    apply rbind_Ok_inv in H as (n' & Hn & H).
    apply rbind_Ok_inv in H as (alpha' & Halpha & H).
    apply rbind_Ok_inv in H as (X' & HX & [= <-]).
    apply set_abs_tol_Ok in Htol as [-> Htol].
    apply set_max_iter_Ok in Hn as (z & -> & Hz & ->).
    apply set_step_size_Ok in Halpha as [-> Halpha].
    apply set_scale_Ok in HX as [-> HX].
    split_and!; [done|by exists z|done| |done..].
    by apply fix_scale_positive.
  - intros (Htol & (z & -> & Hz & Hmax) & Halpha & HX & <- & <- & <- & <- & <-).
    rewrite (rbind_Ok _ _ _
               (proj2 (set_abs_tol_Ok (abs_tol self) (abs_tol self))
                  (conj eq_refl Htol))).
    rewrite (rbind_Ok _ _ _
               (proj2 (set_max_iter_Ok (Int z) (max_iter self))
                  (ex_intro _ z (conj eq_refl (conj Hz Hmax))))).
    rewrite (rbind_Ok _ _ _
               (proj2 (set_step_size_Ok (step_size self) (step_size self))
                  (conj eq_refl Halpha))).
    rewrite (rbind_Ok _ _ _
               (proj2 (set_scale_Ok (scale self) (scale self))
                  (conj eq_refl (proj1 (fix_scale_positive self) HX)))).
    by destruct self.
Qed.

(** The optimizer of [test_run] in [tests/optimize/test_method.py], with
    the dictionary of scaling parameters [{x: 1.5}]. *)
Lemma Optimizer_init_invariants_witness :
  let self := descent SteepestDescent (Scalar (qc 1 100000000)) 1000 (qc 1 4)
                (Dict {[ 0%nat := qc 3 2 ]}) None in
  Optimizer_init SteepestDescent (Scalar (qc 1 100000000)) (Int 1000)
    (qc 1 4) (Dict {[ 0%nat := qc 3 2 ]}) None = Ok self
  ∧ (∀ x t, tolerance (Scalar (qc 1 100000000)) x = Some t → (0 <= t)%Qc)
  ∧ (∀ xs x Xx, kget (fix_scale self xs) x = Ok Xx → (0 < Xx)%Qc).
Proof.
  intros self.
  assert (Optimizer_init SteepestDescent (Scalar (qc 1 100000000)) (Int 1000)
            (qc 1 4) (Dict {[ 0%nat := qc 3 2 ]}) None = Ok self) as Hrun
    by by_compute.
  split; [exact Hrun|].
  destruct (proj1 (Optimizer_init_invariants SteepestDescent
                     (Scalar (qc 1 100000000)) (Int 1000) (qc 1 4)
                     (Dict {[ 0%nat := qc 3 2 ]}) None self) Hrun)
    as (Htol & _ & _ & HX & _).
  by split.
Defined.

(** X29.  [LineSearch(rel_tol, max_iter)] returns a line search exactly
    when [0 < rel_tol < 1] and [max_iter] is an [int] of at least 1.  The
    relative tolerance is checked first: outside [(0, 1)], both ends
    excluded, it is refused with [ValueError] whatever [max_iter] is; a
    [float] for [max_iter] is then a [TypeError] and an [int] below 1 a
    [ValueError]. *)
Theorem LineSearch_init_checks r n :
  (∀ ls, LineSearch_init r n = Ok ls ↔
         (0 < r)%Qc ∧ (r < 1)%Qc
         ∧ ∃ z, n = Int z ∧ (1 <= z)%Z
                ∧ ls = {| rel_tol := r; ls_max_iter := Z.to_pos z |})
  ∧ ((r <= 0)%Qc ∨ (1 <= r)%Qc →
     LineSearch_init r n
     = Raise (ValueError "The absolute tolerance must be between 0 and 1."))
  ∧ ((0 < r)%Qc → (r < 1)%Qc →
     (∀ q, n = Float q →
        LineSearch_init r n
        = Raise (TypeError "The maximum number of iterations must be an integer."))
     ∧ (∀ z, n = Int z → (z < 1)%Z →
          LineSearch_init r n
          = Raise (ValueError "The maximum number of iterations must be positive."))).
Proof.
  unfold LineSearch_init. split_and!.
  - intros ls. split.
    + intros H.
      apply rbind_Ok_inv in H as (r' & Hr & H).
      apply rbind_Ok_inv in H as (n' & Hn & [= <-]).
      apply set_rel_tol_Ok in Hr as (-> & H0 & H1).
      apply set_max_iter_Ok in Hn as (z & -> & Hz & ->).
      split_and!; [done..|]. by exists z.
    + intros (H0 & H1 & z & -> & Hz & ->).
      rewrite (rbind_Ok _ _ _ (proj2 (set_rel_tol_Ok r r)
                                 (conj eq_refl (conj H0 H1)))).
      by rewrite (rbind_Ok _ _ _
                    (proj2 (set_max_iter_Ok (Int z) (Z.to_pos z))
                       (ex_intro _ z (conj eq_refl (conj Hz eq_refl))))).
  - intros H. unfold set_rel_tol. destruct H as [H|H].
    + by rewrite (bool_decide_eq_true_2 _ H).
    + rewrite (bool_decide_eq_true_2 (1 <= r)%Qc H).
      by rewrite orb_true_r.
  - intros H0 H1.
    rewrite (rbind_Ok _ _ _ (proj2 (set_rel_tol_Ok r r)
                               (conj eq_refl (conj H0 H1)))).
    unfold set_max_iter. split.
    + by intros q ->.
    + intros z -> Hz. by rewrite bool_decide_eq_true_2.
Qed.

(** The line search and the invalid assignments of [test_init] in
    [tests/optimize/test_method.py]. *)
Lemma LineSearch_init_checks_witness :
  LineSearch_init (qc 1 100000000) (Int 1000)
  = Ok {| rel_tol := qc 1 100000000; ls_max_iter := 1000 |}
  ∧ LineSearch_init (qc 1 1) (Float (qc 100 1))
    = Raise (ValueError "The absolute tolerance must be between 0 and 1.")
  ∧ LineSearch_init (qc 1 100000000) (Float (qc 100 1))
    = Raise (TypeError "The maximum number of iterations must be an integer.")
  ∧ LineSearch_init (qc 1 100000000) (Int 0)
    = Raise (ValueError "The maximum number of iterations must be positive.").
Proof.
  split_and!.
  - apply (proj1 (LineSearch_init_checks (qc 1 100000000) (Int 1000))).
    split_and!; [by_compute..|].
    exists 1000%Z. split_and!; [done|lia|done].
  - apply (proj1 (proj2 (LineSearch_init_checks (qc 1 1) (Float (qc 100 1))))).
    right. by_compute.
  - apply (proj1 (proj2 (proj2 (LineSearch_init_checks (qc 1 100000000)
                                  (Float (qc 100 1))))
                   ltac:(by_compute) ltac:(by_compute)) (qc 100 1)).
    reflexivity.
  - apply (proj2 (proj2 (proj2 (LineSearch_init_checks (qc 1 100000000)
                                  (Int 0)))
                   ltac:(by_compute) ltac:(by_compute)) 0%Z).
    + reflexivity.
    + lia.
Defined.


(** *** The line search stays inside the interval *)

Ltac qc_to_q :=
  unfold Qcle, Qclt, Qcdiv, Qcminus, Qcplus, Qcopp, Qcmult, Qcinv in *;
  simpl in *; rewrite ?Qred_correct in *.

(** The interpolated step lies between the two steps of the bracket. *)
Lemma interpolation_inside (s0 s1 t0 t1 : Qc) :
  (s0 <= s1)%Qc → (0 < t0)%Qc → (t1 <= 0)%Qc →
  (s0 <= (s0 * t1 - s1 * t0) / (t1 - t0))%Qc
  ∧ ((s0 * t1 - s1 * t0) / (t1 - t0) <= s1)%Qc.
Proof.
  intros Hs Ht0 Ht1.
  set (D := (t0 - t1)%Qc).
  assert (0 < D)%Qc as HD.
  { subst D. apply Qclt_minus_iff in Ht0. apply Qclt_minus_iff.
    qc_to_q. lra. }
  assert (((s0 * t1 - s1 * t0) / (t1 - t0)) * D = s1 * t0 - s0 * t1)%Qc as Hns.
  { subst D. field. intros H0.
    assert (t1 = t0) as Heq.
    { rewrite <- (Qcplus_0_l t0), <- H0. ring. }
    subst t1. apply (Qclt_not_le _ _ Ht0 Ht1). }
  split; apply (Qcmult_lt_0_le_reg_r _ _ D HD); rewrite Hns.
  - qc_to_q. subst D. nra.
  - qc_to_q. nra.
Qed.

Section interval_facts.
Context (objective : ObjectiveFunction) (start : ObjectiveFunctionResult).
Context (d : KeyedArray) (s : store).

Let ovars := snapshot (dvars objective) s.

Lemma probe_inside b s1 b' new_target new_res s2 :
  same_bounds s s1 → bracketing b →
  probe objective start ovars d b s1 = (Ok (b', new_target, new_res), s2) →
  same_bounds s s2 ∧ bracketing b'
  ∧ computed_in_interval objective start d s new_res.
Proof.
  intros Hb Hgood H. unfold probe in H. unfold bracketing in Hgood.
  destruct (steps b) as [s0 s1'], (targets b) as [t0 t1].
  simpl in Hgood. destruct Hgood as (H0 & Hord & H1 & Ht0 & Ht1).
  destruct (interpolation_inside s0 s1' t0 t1 Hord Ht0 Ht1) as [Hlo Hhi].
  set (new_step := ((s0 * t1 - s1' * t0) / (t1 - t0))%Qc) in *.
  apply bind_Ok_inv in H as ([] & sa & Hloop & H).
  apply bind_Ok_inv in H as (res & sb & Hres & H).
  apply bind_Ok_inv in H as (dg & sc & Hdg & H).
  apply lift_Ok_inv in Hdg as [_ ->].
  apply ret_Ok_inv in H as [[= -> -> ->] ->].
  pose proof (compute_pure _ _ _ _ Hres) as ->.
  unfold ovars in Hloop. rewrite keys_snapshot in Hloop.
  apply (for_each_writes id
           (λ x, start_x ← kget (design_variables start) x;
                 d_x ← kget d x;
                 Ok (start_x + new_step * d_x)%Qc)) in Hloop
    as (Hb' & Hout & Hin).
  - split_and!; [by eapply same_bounds_trans| |].
    + unfold bracketing. case_decide as Hnt; simpl.
      * split_and!; [by eapply Qcle_trans|done..].
      * split_and!; [done..|by eapply Qcle_trans|done|by apply Qcnot_lt_le].
    + exists new_step, sa.
      split_and!; [by eapply Qcle_trans|by eapply Qcle_trans|
                   by eapply same_bounds_trans| |done].
      intros x Hx. destruct (Hin x Hx) as (q & Hq & Hsa).
      apply rbind_Ok_inv in Hq as (start_x & Hsx & Hq).
      apply rbind_Ok_inv in Hq as (d_x & Hdx & [= <-]).
      exists start_x, d_x. split_and!; [done..|].
      simpl in Hsa. rewrite Hsa. simpl.
      by apply clamp_same_bounds; apply Hb.
  - intros x sx sx' Hx.
    apply bind_Ok_inv in Hx as (start_x & ? & Hsx & Hx).
    apply lift_Ok_inv in Hsx as [Hsx ->].
    apply bind_Ok_inv in Hx as (d_x & ? & Hdx & Hx).
    apply lift_Ok_inv in Hdx as [Hdx ->].
    exists (start_x + new_step * d_x)%Qc. split; [|done].
    by rewrite Hsx, Hdx.
  - intros x x' _ _ Hx. unfold id in Hx. by subst.
Qed.

Lemma search_inside left tol :
  ∀ b new_target new_res s1 r s2,
    same_bounds s s1 → bracketing b →
    computed_in_interval objective start d s new_res →
    search objective start left ovars d tol b new_target new_res s1 = (Ok r, s2) →
    computed_in_interval objective start d s r.
Proof.
  induction left as [|left IH]; intros b nt nr s1 r s2 Hb Hgood Hin H;
    simpl in H.
  - by apply ret_Ok_inv in H as [-> ->].
  - case_decide.
    + apply bind_Ok_inv in H as ([[b' nt'] nr'] & sa & Hprobe & H).
      apply probe_inside in Hprobe as (Hb' & Hgood' & Hin'); [|done..].
      by eapply IH.
    + by apply ret_Ok_inv in H as [-> ->].
Qed.
End interval_facts.

(** X30.  For a descent direction (a positive target at the start of the
    interval) the line search never leaves the interval.  The bracket of
    the loop keeps its steps ordered within [[0, 1]] with a positive
    target at the lower and a non-positive target at the upper step, each
    interpolated step lies between them, and so the result [find] returns
    is [end] or was computed at a point [start + step * d] with
    [0 <= step <= 1]. *)
Theorem find_stays_in_interval norm self objective start end_ s r s'
    d d_dot_start :
  ksub (design_variables end_) (design_variables start) = Ok d →
  kdot d (gradient start) = Ok d_dot_start →
  (0 < - d_dot_start)%Qc →
  find norm self objective start end_ s = (Ok r, s') →
  r = end_ ∨ computed_in_interval objective start d s r.
Proof.
  intros Hd Hs Hpos H. unfold find in H.
  apply bind_Ok_inv in H as (s0 & ? & [= <- <-] & H).
  fold (snapshot (dvars objective) s) in H.
  apply bind_Ok_inv in H as (d' & ? & Hd' & H).
  apply lift_Ok_inv in Hd' as [Hd' ->].
  rewrite Hd in Hd'. injection Hd' as <-.
  case_decide; [discriminate|].
  apply bind_Ok_inv in H as (ds & ? & Hds & H).
  apply lift_Ok_inv in Hds as [Hds ->].
  rewrite Hs in Hds. injection Hds as <-.
  apply bind_Ok_inv in H as (de & ? & Hde & H).
  apply lift_Ok_inv in Hde as [_ ->].
  case_decide; [discriminate|].
  apply bind_Ok_inv in H as (res & s1 & Hres & H).
  apply bind_Ok_inv in H as ([] & s2 & _ & H).
  apply ret_Ok_inv in H as [-> ->].
  case_decide as Hend.
  { apply ret_Ok_inv in Hres as [-> ->]. by left. }
  case_decide.
  { apply ret_Ok_inv in Hres as [-> ->]. by left. }
  right.
  apply bind_Ok_inv in Hres as ([[b nt] nr] & sa & Hprobe & Hres).
  apply probe_inside in Hprobe as (Hb & Hgood & Hin).
  - by eapply search_inside.
  - apply same_bounds_refl.
  - unfold bracketing. simpl.
    split_and!; [done|by_compute|done|done|by apply Qcnot_lt_le].
Qed.

(** The first search of [test_find]: from [x = -3] to [x = 3] the result
    is the one at [x = 1], a point of the interval. *)
Lemma find_stays_in_interval_witness :
  let self := {| rel_tol := qc 1 100000000; ls_max_iter := 1000 |} in
  let objective := QuadraticObjective 0 in
  let start := result_at objective (qc (-3) 1) in
  let end_ := result_at objective (qc 3 1) in
  let s := free_at (qc (-3) 1) in
  let r := result_at objective (qc 1 1) in
  (find euclidean_norm self objective start end_ s).1 = Ok r
  ∧ (r = end_
     ∨ computed_in_interval objective start [(0%nat, qc 6 1)] s r).
Proof.
  intros self objective start end_ s r.
  assert ((find euclidean_norm self objective start end_ s).1 = Ok r)
    as Hrun by by_compute.
  split; [exact Hrun|].
  apply (find_stays_in_interval euclidean_norm self objective start end_ s r
           (find euclidean_norm self objective start end_ s).2
           [(0%nat, qc 6 1)] (qc (-48) 1)).
  - by_compute.
  - by_compute.
  - by_compute.
  - rewrite <- Hrun. apply surjective_pairing.
Defined.


(** *** The fixed step never divides by zero *)

Lemma kget_Ok_elem (a : KeyedArray) x v : kget a x = Ok v → x ∈ keys a.
Proof.
  induction a as [|[k w] a IH]; [discriminate|].
  rewrite kget_cons. unfold keys. rewrite fmap_cons. simpl.
  case_decide as Hk; [subst; left|]. intros H. right. by apply IH.
Qed.

Lemma elem_kget (a : KeyedArray) x : x ∈ keys a → ∃ v, kget a x = Ok v.
Proof.
  induction a as [|[k w] a IH]; intros Hx.
  - by apply elem_of_nil in Hx.
  - unfold keys in Hx. rewrite fmap_cons in Hx. simpl in Hx.
    rewrite kget_cons. case_decide as Hk; [by eexists|].
    apply elem_of_cons in Hx as [->|Hx]; [done|]. by apply IH.
Qed.

Lemma kzip_loop_kget_fwd f (a b c : KeyedArray) x va :
  kzip_loop f a b = Ok c → kget a x = Ok va →
  ∃ vb, kget b x = Ok vb ∧ kget c x = Ok (f va vb).
Proof.
  revert c. induction a as [|[k w] a IH]; intros c H Ha; [discriminate|].
  simpl in H.
  apply rbind_Ok_inv in H as (vb & Hvb & H).
  apply rbind_Ok_inv in H as (tl & Htl & [= <-]).
  rewrite kget_cons in Ha. rewrite kget_cons.
  case_decide as Hk.
  - subst k. injection Ha as <-. eauto.
  - eauto.
Qed.

(** An entry of the right operand is an entry of the result. *)
Lemma kzip_kget_right f (a b c : KeyedArray) x vb :
  kzip f a b = Ok c → kget b x = Ok vb →
  ∃ va, kget a x = Ok va ∧ kget c x = Ok (f va vb).
Proof.
  unfold kzip, same_keys. intros H Hb.
  destruct (bool_decide_reflect (keys a ⊆ keys b)) as [Hab|]; [|discriminate].
  destruct (bool_decide_reflect (keys b ⊆ keys a)) as [Hba|]; [|discriminate].
  simpl in H.
  destruct (elem_kget a x) as [va Ha]; [by apply Hba, (kget_Ok_elem b x vb)|].
  destruct (kzip_loop_kget_fwd _ _ _ _ _ _ H Ha) as (vb' & Hb' & Hc).
  rewrite Hb in Hb'. injection Hb' as <-. eauto.
Qed.

Lemma Qc_sqrt_eq_0 q : (0 <= q)%Qc → Qc_sqrt q = 0%Qc → q = 0%Qc.
Proof.
  intros Hq H. unfold Qc_sqrt in H. apply Q2Qc_eq_iff in H.
  unfold Qeq in H. simpl in H. rewrite Z.mul_1_r in H.
  assert (Qnum q = 0)%Z as Hnum.
  { assert (0 <= Qnum q)%Z as Hn.
    { unfold Qcle, Qle in Hq. simpl in Hq. lia. }
    pose proof (Z.sqrt_pos (Qnum q)) as Hpos. lia. }
  apply Qc_is_canon. unfold Qeq. simpl. lia.
Qed.

Lemma squares_sum_zero (a : KeyedArray) :
  (0 <= ksum ((λ kv, (kv.1, (kv.2 * kv.2)%Qc)) <$> a))%Qc
  ∧ (ksum ((λ kv, (kv.1, (kv.2 * kv.2)%Qc)) <$> a) = 0%Qc →
     ∀ x v, kget a x = Ok v → v = 0%Qc).
Proof.
  induction a as [|[k w] a [IH0 IH]].
  - split; [done|]. intros _ x v H. discriminate.
  - rewrite fmap_cons. unfold ksum in *. simpl. fold ksum in *.
    set (rest := foldr (λ kv acc, (kv.2 + acc)%Qc) 0%Qc
                   ((λ kv, (kv.1, (kv.2 * kv.2)%Qc)) <$> a)) in *.
    assert (0 <= w * w)%Qc as Hw by (qc_to_q; nra).
    split.
    + qc_to_q. lra.
    + intros Hsum.
      assert (w * w = 0 ∧ rest = 0)%Qc as [Hw0 Hrest].
      { split; apply Qcle_antisym; try done.
        - rewrite <- Hsum. qc_to_q. lra.
        - rewrite <- Hsum. qc_to_q. lra. }
      intros x v Hx. rewrite kget_cons in Hx. case_decide.
      * injection Hx as <-. by destruct (Qcmult_integral _ _ Hw0).
      * by eapply IH.
Qed.

(** The Euclidean norm of the examples vanishes on zero arrays only. *)
Lemma euclidean_norm_zero a :
  euclidean_norm a = 0%Qc → ∀ x v, kget a x = Ok v → v = 0%Qc.
Proof.
  intros H. destruct (squares_sum_zero a) as [H0 Hall].
  apply Hall. by apply Qc_sqrt_eq_0.
Qed.

(** X22.  The division in [FixedStepDescent.descent_amount] is never a
    division by zero.  The loop body of [optimize] runs only when
    [has_converged] has answered [False]; the constructor admits
    non-negative tolerances and positive scaling parameters only; so some
    component of the scaled gradient is not zero, and its norm, the
    divisor, is not zero.  (The norm is any function that vanishes on zero
    arrays only.)  Each descent amount of [FixedStepDescent] times that
    norm is the step size. *)
Theorem fixed_step_never_divides_by_zero norm k tol n alpha X ls self
    cur_res xs grad_y :
  (∀ a, norm a = 0%Qc → ∀ x v, kget a x = Ok v → v = 0%Qc) →
  Optimizer_init k tol n alpha X ls = Ok self →
  has_converged self cur_res = Ok false →
  kmul (fix_scale self xs) (gradient cur_res) = Ok grad_y →
  norm grad_y ≠ 0%Qc
  ∧ (k = FixedStepDescent →
     ∀ x a, kget (descent_amount norm self grad_y) x = Ok a →
            (a * norm grad_y = alpha)%Qc).
Proof.
  intros Hnorm Hinit Hconv Hy.
  unfold Optimizer_init in Hinit.
  apply rbind_Ok_inv in Hinit as (tol' & Htol & Hinit).
  apply rbind_Ok_inv in Hinit as (n' & Hn & Hinit).
  apply rbind_Ok_inv in Hinit as (alpha' & Halpha & Hinit).
  apply rbind_Ok_inv in Hinit as (X' & HX & [= <-]).
  apply set_abs_tol_Ok in Htol as [-> Htol].
  apply set_step_size_Ok in Halpha as [-> Halpha].
  apply set_scale_Ok in HX as [-> HX].
  assert (norm grad_y ≠ 0%Qc) as Hnz.
  { intros Hzero.
    apply has_converged_loop_false in Hconv
      as (pre & x & post & g & t & _ & _ & Hg & Ht & Hlt).
    simpl in Ht. apply Htol in Ht.
    destruct (kzip_kget_right _ _ _ _ _ _ Hy Hg) as (Xx & HXx & Hgy).
    assert (0 < Xx)%Qc as Hpos.
    { revert HXx. by apply fix_scale_positive. }
    apply (Hnorm _ Hzero) in Hgy.
    destruct (Qcmult_integral _ _ Hgy) as [->| ->].
    - by apply Qclt_not_le in Hpos.
    - apply (Qclt_not_le _ _ Hlt). by rewrite Qcabs_pos. }
  split; [done|].
  intros -> x a Ha. unfold descent_amount, kdiv_scalar in Ha. simpl in Ha.
  rewrite <- list_fmap_compose in Ha.
  apply (kget_fmap (λ _, (alpha / norm grad_y)%Qc)) in Ha as ->.
  by field.
Qed.

(** [FixedStepDescent] on [QuadraticObjective] at [x = 3], where the
    gradient is 4: the norm of the scaled gradient is 4, and the descent
    amount is [1/4 / 4]. *)
Lemma fixed_step_never_divides_by_zero_witness :
  let self := descent FixedStepDescent (Scalar (qc 1 100000000)) 1000 (qc 1 4)
                (Scalar 1%Qc) None in
  let cur_res := result_at (QuadraticObjective 0) (qc 3 1) in
  let grad_y : KeyedArray := [(0%nat, qc 4 1)] in
  euclidean_norm grad_y ≠ 0%Qc
  ∧ (FixedStepDescent = FixedStepDescent →
     ∀ x a, kget (descent_amount euclidean_norm self grad_y) x = Ok a →
            (a * euclidean_norm grad_y = qc 1 4)%Qc).
Proof.
  intros self cur_res grad_y.
  apply (fixed_step_never_divides_by_zero euclidean_norm FixedStepDescent
           (Scalar (qc 1 100000000)) (Int 1000) (qc 1 4) (Scalar 1%Qc) None
           self cur_res [0%nat] grad_y).
  - apply euclidean_norm_zero.
  - by_compute.
  - by_compute.
  - by_compute.
Defined.

End OptimizeFacts.
